(** * TBRS* working-memory simulation (interference version): model and properties

    A shallow embedding of [tbrs_compatible_with_bert_model.c].

    Conventions of the embedding.
    - A C [float] (or [double]) is a rational ([Q]), with the arithmetic, the
      comparisons and the conversions the program performs.  A conversion
      from float to [int] truncates toward zero, as C does.  Rounding is
      modelled where it decides whether the program goes on: on the way from
      the parameters to the time that [refresh] has left, the value stored in
      the [float] objects [var_tauR], [var_tr] and [timeAvailable] (and the
      float operands [-param_R * param_Tr] and [1-var_tauR]) is the exact
      value put through [to_float], a field of the class [Libc].  Everywhere
      else a float holds the exact value.
    - The functions of the C library the program calls ([rand], [sqrt], [log],
      [exp], [cos], [atoi], [atof]) are not part of the program: they are the
      fields of the class [Libc].  [rand] is a stream of draws together with
      the position of the next draw, which every function that draws threads
      through.
    - A one-dimensional [float v[]] parameter is the memory seen through the
      pointer: a total function from index to value.  The two item matrices
      [itemVectorsInWM] and [itemVectorsInLTM] are flat row-major memories in
      which row [k] starts at offset [k * (nbItemUnits+1)], so that an index
      past the end of a row lands where the C program makes it land.
    - An [int] local that the program reads before assigning it holds the
      value [indeterminate], which the platform chooses.
    - A [while] loop whose number of passes the data decide takes fuel, and
      returns nothing when the fuel runs out.
    - [VERBOSE] output is a side channel and is left out; so is the
      accumulation of the scores over the trials in [main].  The score of one
      trial, [compareStimAndRecalled], is modelled.

    The model comes first, then the vocabulary of the properties and sample
    data, then the properties, and last the properties at concrete inputs. *)

From Stdlib Require Import ZArith QArith Qround Qabs Qpower Bool List Lia Lqa
  String Ascii.
Import ListNotations.
Open Scope Z_scope.

(** ** Constants ([#define]s of the source) *)

Definition nbUnitBlocks : Z := 9.
Definition sizeOfPositionBlocks : Z := 6.
Definition maxPosition : Z := 100.
Definition maxMemoranda : Z := 10.
Definition maxDistractors : Z := 90.
Definition maxItem : Z := maxMemoranda + maxDistractors.
Definition nbItemUnits : Z := 100.
Definition distractorEncodingWeight : Q := 5 # 10.
(** [nbPositionUnits] is a global that [main] sets before anything else. *)
Definition nbPositionUnits : Z := nbUnitBlocks * sizeOfPositionBlocks.

(** The sentinel of an uncharacterised dimension. *)
Definition sentinel : Q := (-1) # 1.

(** ** Floats as rationals *)

(** [(int) x]: truncation toward zero. *)
Definition float_to_int (x : Q) : Z := Z.quot (Qnum x) (Z.pos (Qden x)).

Definition Qltb (a b : Q) : bool := negb (Qle_bool b a).
Definition Qgtb (a b : Q) : bool := Qltb b a.
Definition Qneqb (a b : Q) : bool := negb (Qeq_bool a b).

(** ** Loops *)

(** [for (i = lo; i <= hi; i++) s = body i s;] for a body that assigns neither
    [i] nor the bound. *)
Fixpoint for_n {S : Type} (n : nat) (i : Z) (body : Z -> S -> S) (s : S) : S :=
  match n with
  | O => s
  | Datatypes.S n' => for_n n' (i + 1) body (body i s)
  end.

Definition for_up {S : Type} (lo hi : Z) (body : Z -> S -> S) (s : S) : S :=
  for_n (Z.to_nat (hi + 1 - lo)) lo body s.

(** [for (c = hi; c > lo; c--) s = body c s;] *)
Fixpoint down_n {S : Type} (n : nat) (c : Z) (body : Z -> S -> S) (s : S) : S :=
  match n with
  | O => s
  | Datatypes.S n' => down_n n' (c - 1) body (body c s)
  end.

Definition for_down {S : Type} (hi lo : Z) (body : Z -> S -> S) (s : S) : S :=
  down_n (Z.to_nat (hi - lo)) hi body s.

Arguments for_up : simpl never.
Arguments for_down : simpl never.

(** ** Arrays *)

(** The memory behind a [float v[]] parameter. *)
Definition vec : Type := Z -> Q.

Definition vset (v : vec) (i : Z) (x : Q) : vec :=
  fun k => if k =? i then x else v k.

(** An array that a function writes, with the indices it has addressed (most
    recent first).  Every function below that reads a cell of its output array
    also writes that cell, so [touched] lists every index of the array that
    the function addresses. *)
Record parray : Type := mkParray { cells : vec; touched : list Z }.

Definition pwrite (a : parray) (i : Z) (x : Q) : parray :=
  {| cells := vset (cells a) i x; touched := i :: touched a |}.

Definition pfresh (v : vec) : parray := {| cells := v; touched := [] |}.

(** [b] is [a] except at indices from [k] on. *)
Definition agrees_below (k : Z) (a b : parray) : Prop :=
  forall j, j < k -> cells b j = cells a j.

(** Row [k] of a flat matrix of row length [nbItemUnits+1], as the pointer
    [m[k]] sees it, and the matrix after the memory behind that pointer has
    become [v]. *)
Definition rowStride : Z := nbItemUnits + 1.
Definition row (m : vec) (k : Z) : vec := fun j => m (k * rowStride + j).
Definition store_row (k : Z) (v : vec) : vec := fun a => v (a - k * rowStride).

(** A two-dimensional array addressed only inside its rows. *)
Definition mat (A : Type) : Type := Z -> Z -> A.
Definition mset {A : Type} (m : mat A) (i j : Z) (x : A) : mat A :=
  fun i' j' => if (i' =? i) && (j' =? j) then x else m i' j'.

(** ** The C library *)

Class Libc : Type := {
  RAND_MAX : Z;
  rand_draw : nat -> Z;                 (* the n-th value [rand()] returns *)
  rand_range : forall n, 0 <= rand_draw n < RAND_MAX + 1;
  sqrtf : Q -> Q;
  logf : Q -> Q;
  expf : Q -> Q;
  cosf : Q -> Q;
  atoi : string -> Z;
  atof : string -> Q;
  (* the value an [int] local without initialiser holds when it is read *)
  indeterminate : Z;
  (* the value a [float] object holds after the real number [x] is stored in
     it: [x] rounded to the float format of the platform *)
  to_float : Q -> Q
}.

(** ** Parameters (the [param_*] globals and the other settings of a run) *)

Class params : Type := mkParams {
  param_P : Q;
  param_R : Q;
  param_s : Q;
  param_tauE : Q;
  param_L : Q;
  param_theta : Q;
  param_sigma : Q;
  param_D : Q;
  param_Tr : Q;
  param_tauOp : Q;
  param_Ta : Q;
  param_freeTime : Q;
  param_freeTimeIncludesOpDuration : Z;
  param_attentionalFocusSize : Z;
  nbmemo : Z;
  nbop : Z;
  presentationTime : Q;
  param_deterministic : Z;
  param_itemDistractorOverlap : Q;
  param_itemDistractorNoise : Q;
  param_itemItemOverlap : Q;
  param_memoDistr : Q;
  param_sameDist : Z;
  VERBOSE : Z;
  PRESET : Z;
  QUIET : Z;
  nbSimulations : Z
}.

(** The initialisers of the globals. *)
Definition default_params : params := {|
  param_P := 3 # 10;
  param_R := 6 # 1;
  param_s := 1 # 1;
  param_tauE := 95 # 100;
  param_L := 1 # 9;
  param_theta := 5 # 100;
  param_sigma := 2 # 100;
  param_D := 5 # 10;
  param_Tr := 8 # 100;
  param_tauOp := 95 # 100;
  param_Ta := 5 # 10;
  param_freeTime := 1 # 1;
  param_freeTimeIncludesOpDuration := 1;
  param_attentionalFocusSize := 1;
  nbmemo := 7;
  nbop := 4;
  presentationTime := 15 # 10;
  param_deterministic := 0;
  param_itemDistractorOverlap := 4 # 10;
  param_itemDistractorNoise := 1 # 1;
  param_itemItemOverlap := 4 # 10;
  param_memoDistr := 1 # 1;
  param_sameDist := 0;
  VERBOSE := 0;
  PRESET := 1;
  QUIET := 0;
  nbSimulations := 500
|}.

(** ** Leaf functions *)

Definition min (val1 val2 : Z) : Z := if val1 <? val2 then val1 else val2.

(** [int max(int, int)]: a float argument is converted to [int] at the call. *)
Definition max (val1 val2 : Z) : Z := if val1 >? val2 then val1 else val2.

Section Random.
Context {libc : Libc}.

(** [rand()/((double)RAND_MAX + 1)] *)
Definition uniform01 (g : nat) : Q :=
  inject_Z (rand_draw g) / inject_Z (RAND_MAX + 1).

Definition pi_literal : Q := 31415926535 # 10000000000.

(** Box-Muller; two draws. *)
Definition randomNormal (mean std : Q) (g : nat) : Q * nat :=
  let u := uniform01 g in
  let v := uniform01 (S g) in
  ((mean + std * sqrtf (- (2 # 1) * logf u) * cosf ((2 # 1) * pi_literal * v))%Q,
   S (S g)).

(** [createRandomPattern(pattern, min, max)] *)
Definition createRandomPattern (pattern : parray) (lo hi : Z) (g : nat)
  : parray * nat :=
  for_up lo hi
    (fun i '(pat, g) => (pwrite pat i (uniform01 g), S g))
    (pattern, g).

(** [createSimilarRandomPattern(pattern, refPattern, std, min, max)] *)
Definition createSimilarRandomPattern (pattern : parray) (refPattern : vec)
    (std : Q) (lo hi : Z) (g : nat) : parray * nat :=
  for_up lo hi
    (fun i '(pat, g) =>
       if Qeq_bool (refPattern i) sentinel then
         (pwrite pat i (uniform01 g), S g)
       else
         let '(val, g') := randomNormal (refPattern i) std g in
         let val := if Qltb val 0 then 0%Q
                    else if Qgtb val 1 then 1%Q else val in
         (pwrite pat i val, g'))
    (pattern, g).

(** The three phases of [createOverlapingRandomPattern] follow; [i] is the
    write cursor the C function carries through them. *)

(** [i=1; while (i<=patternSize) { pattern[i]=-1; i++; }] *)
Definition fillPrefix (pattern : parray) (patternSize : Z) : parray * Z :=
  for_up 1 patternSize
    (fun _ '(pat, i) => (pwrite pat i sentinel, i + 1))
    (pattern, 1).

(** [for(c=1;c<=(1-p)*patternSize;c++) pattern[i++]=-1;]
    For an integer [c], [c <= x] is [c <= floor x]. *)
Definition fillGap (pattern : parray) (i : Z) (patternSize : Z) (p : Q)
  : parray * Z :=
  for_up 1 (Qfloor ((1 - p) * inject_Z patternSize))
    (fun _ '(pat, i) => (pwrite pat i sentinel, i + 1))
    (pattern, i).

(** The shuffle: [for(c=firstUsedUnit+patternSize;c>firstUsedUnit;c--)]. *)
Definition shuffle (pattern : parray) (firstUsedUnit patternSize : Z)
    (g : nat) : parray * nat :=
  for_down (firstUsedUnit + patternSize) firstUsedUnit
    (fun c '(pat, g) =>
       let alea := Z.rem (rand_draw g) patternSize + firstUsedUnit in
       let tmp := cells pat alea in
       let pat := pwrite pat alea (cells pat c) in
       let pat := pwrite pat c tmp in
       (pat, S g))
    (pattern, g).

(** [createOverlapingRandomPattern(pattern, refPattern, patternSize, p)] *)
Definition createOverlapingRandomPattern {cfg : params} (pattern : parray)
    (refPattern : vec) (patternSize : Z) (p : Q) (g : nat) : parray * nat :=
  let '(pat, i) := fillPrefix pattern patternSize in
  let firstUsedUnit := i in
  let '(pat, i) := fillGap pat i patternSize p in
  let '(pat, g) :=
    createSimilarRandomPattern pat refPattern param_itemDistractorNoise
      i (i + Z.quot patternSize 4) g in
  let '(pat, g) := shuffle pat firstUsedUnit patternSize g in
  let pat :=
    for_up (i + patternSize + 1) patternSize
      (fun c pat => pwrite pat c sentinel) pat in
  (pat, g).

(** [rmse(v1, v2, size)] *)
Definition rmse (v1 v2 : vec) (size : Z) : Q :=
  let acc :=
    for_up 1 size
      (fun i acc => let diff := (v1 i - v2 i)%Q in (acc + diff * diff)%Q)
      0%Q in
  sqrtf (acc / inject_Z size).

End Random.

(** ** The state of a simulation

    The arrays [main] owns and passes to every function, and the globals the
    functions assign. *)

Record state : Type := mkState {
  positionVectors : mat Z;
  itemVectorsInWM : vec;          (* flat, [maxItem+1] rows *)
  itemVectorsInLTM : vec;         (* flat, [maxItem+1] rows *)
  itemPositionMatrix : mat Q;
  var_te : Q;
  var_tr : Q;
  var_eta : Q;
  globalTime : Q;
  lastItem : Z;
  distractorNumber : Z;
  seed : nat                       (* position of the next [rand()] draw *)
}.

Definition set_positionVectors (st : state) (x : mat Z) : state :=
  mkState x (itemVectorsInWM st) (itemVectorsInLTM st) (itemPositionMatrix st)
    (var_te st) (var_tr st) (var_eta st) (globalTime st) (lastItem st)
    (distractorNumber st) (seed st).
Definition set_WM (st : state) (x : vec) : state :=
  mkState (positionVectors st) x (itemVectorsInLTM st) (itemPositionMatrix st)
    (var_te st) (var_tr st) (var_eta st) (globalTime st) (lastItem st)
    (distractorNumber st) (seed st).
Definition set_LTM (st : state) (x : vec) : state :=
  mkState (positionVectors st) (itemVectorsInWM st) x (itemPositionMatrix st)
    (var_te st) (var_tr st) (var_eta st) (globalTime st) (lastItem st)
    (distractorNumber st) (seed st).
Definition set_ipm (st : state) (x : mat Q) : state :=
  mkState (positionVectors st) (itemVectorsInWM st) (itemVectorsInLTM st) x
    (var_te st) (var_tr st) (var_eta st) (globalTime st) (lastItem st)
    (distractorNumber st) (seed st).
Definition set_var_te (st : state) (x : Q) : state :=
  mkState (positionVectors st) (itemVectorsInWM st) (itemVectorsInLTM st)
    (itemPositionMatrix st) x (var_tr st) (var_eta st) (globalTime st)
    (lastItem st) (distractorNumber st) (seed st).
Definition set_var_tr (st : state) (x : Q) : state :=
  mkState (positionVectors st) (itemVectorsInWM st) (itemVectorsInLTM st)
    (itemPositionMatrix st) (var_te st) x (var_eta st) (globalTime st)
    (lastItem st) (distractorNumber st) (seed st).
Definition set_var_eta (st : state) (x : Q) : state :=
  mkState (positionVectors st) (itemVectorsInWM st) (itemVectorsInLTM st)
    (itemPositionMatrix st) (var_te st) (var_tr st) x (globalTime st)
    (lastItem st) (distractorNumber st) (seed st).
Definition set_globalTime (st : state) (x : Q) : state :=
  mkState (positionVectors st) (itemVectorsInWM st) (itemVectorsInLTM st)
    (itemPositionMatrix st) (var_te st) (var_tr st) (var_eta st) x
    (lastItem st) (distractorNumber st) (seed st).
Definition set_lastItem (st : state) (x : Z) : state :=
  mkState (positionVectors st) (itemVectorsInWM st) (itemVectorsInLTM st)
    (itemPositionMatrix st) (var_te st) (var_tr st) (var_eta st)
    (globalTime st) x (distractorNumber st) (seed st).
Definition set_distractorNumber (st : state) (x : Z) : state :=
  mkState (positionVectors st) (itemVectorsInWM st) (itemVectorsInLTM st)
    (itemPositionMatrix st) (var_te st) (var_tr st) (var_eta st)
    (globalTime st) (lastItem st) x (seed st).
Definition set_seed (st : state) (x : nat) : state :=
  mkState (positionVectors st) (itemVectorsInWM st) (itemVectorsInLTM st)
    (itemPositionMatrix st) (var_te st) (var_tr st) (var_eta st)
    (globalTime st) (lastItem st) (distractorNumber st) x.

(** ** Association store and interference *)

(** [decay(itemPositionMatrix, factor, excludedItem)] *)
Definition decay (itemPositionMatrix : mat Q) (factor : Q) (excludedItem : Z)
  : mat Q :=
  for_up 1 maxItem
    (fun i m =>
       if (excludedItem =? -1) || negb (i =? excludedItem) then
         for_up 1 nbPositionUnits
           (fun j m =>
              if Qneqb (m i j) 0 then mset m i j (m i j * factor)%Q else m)
           m
       else m)
    itemPositionMatrix.

(** [interfere(oldItemVector, newItemVector, p)]; the result is the memory
    behind [oldItemVector].  The loop reads [newItemVector[j]] and writes
    [oldItemVector[j]] at the same [j] and only where the two differ, so the
    two pointers may be equal. *)
Definition interfere (oldItemVector newItemVector : vec) (p : Q) : vec :=
  for_up 1 nbItemUnits
    (fun j old =>
       if Qneqb (old j) (newItemVector j)
          && (negb (float_to_int (old j) =? -1)
              && negb (float_to_int (newItemVector j) =? -1))
       then vset old j (old j * (1 - p) + newItemVector j * p)%Q
       else old)
    oldItemVector.

(** ** Retrieval *)

(** What [retrieve] hands back: its return value and its three out-parameters. *)
Record retrieval : Type := mkRetrieval {
  retrievedItem : Z;
  activationMax : Q;
  retrievalDuration : Q;
  bestWMItem : Z
}.

Section Engine.
Context {libc : Libc} {cfg : params}.

(** Set once in [main]. *)
Definition logTauE : Q := - logf (1 - param_tauE).
Definition var_tauR : Q :=
  to_float (1 - expf (to_float (- param_R * param_Tr))).

(** A processing rate: [randomNormal(mean, param_s)] floored at [.1]. *)
Definition drawRate (mean : Q) (g : nat) : Q * nat :=
  let '(r, g) := randomNormal mean param_s g in
  (if Qltb r (1 # 10) then 1 # 10 else r, g).

(** The inner loop of [retrieve]: the activation of [item] that the position
    units of [pos] carry. *)
Definition positionActivation (pv : mat Z) (ipm : mat Q) (pos item : Z) : Q :=
  for_up 1 nbPositionUnits
    (fun i somme =>
       if negb (pv pos i =? 0)
       then (somme + inject_Z (pv pos i) * ipm item i)%Q
       else somme)
    0%Q.

(** [max(param_sigma, .0001)]: [max] takes and returns [int]. *)
Definition noiseScale : Z :=
  max (float_to_int param_sigma) (float_to_int (1 # 10000)).

(** The value of [somme] when it is compared with [*activationMax]; [g] is
    the position of the random stream when the noise is drawn. *)
Definition activation (pv : mat Z) (ipm : mat Q) (pos item : Z) (g : nat) : Q :=
  (positionActivation pv ipm pos item
   + fst (randomNormal 0 1 g) * inject_Z noiseScale)%Q.

(** The first loop over the live items: running maximum, its item, stream.
    The counter is a [char]; it stays below 128 as long as at most 117
    distractors exist. *)
Definition bestActivation (st : state) (pos : Z) (bestWMItem0 : Z)
  : Q * Z * nat :=
  for_up 1 (maxMemoranda + distractorNumber st)
    (fun item '(aMax, best, g) =>
       let somme :=
         activation (positionVectors st) (itemPositionMatrix st) pos item g in
       let g := snd (randomNormal 0 1 g) in
       if Qgtb somme aMax then (somme, item, g) else (aMax, best, g))
    ((-99999) # 1, bestWMItem0, seed st).

(** The second loop: the live item whose LTM vector is closest to [wm];
    [retrievedItem] has no initialiser. *)
Definition closestLTMItem (st : state) (wm : vec) : Q * Z :=
  for_up 1 (maxMemoranda + distractorNumber st)
    (fun item '(minRmse, retrieved) =>
       let aRmse := rmse wm (row (itemVectorsInLTM st) item) nbItemUnits in
       if Qltb aRmse minRmse then (aRmse, item) else (minRmse, retrieved))
    (99999 # 1, indeterminate).

(** The head of [retrieve]: for a recall ([status] 0) a rate is drawn and
    [var_tr] is set from it; for a refresh [var_tr] is left as it is. *)
Definition timedState (st : state) (status : Z) : state :=
  if status =? 0 then
    let '(var_r, g) := drawRate param_R (seed st) in
    let tr := (logTauE / var_r)%Q in
    let tr := if Qgtb tr presentationTime then presentationTime else tr in
    set_var_tr (set_seed st g) tr
  else st.

(** [retrieve(..., pos, status, &activationMax, &retrievalDuration,
    &bestWMItem)]; [bestWMItem0] is what the caller's variable holds. *)
Definition retrieve (st : state) (pos status : Z) (bestWMItem0 : Z)
  : retrieval * state :=
  let st := timedState st status in
  let duration := var_tr st in
  let '(aMax, best, g) := bestActivation st pos bestWMItem0 in
  let st := set_seed st g in
  let retrieved :=
    if Qltb aMax param_theta then 0
    else snd (closestLTMItem st (row (itemVectorsInWM st) best)) in
  (mkRetrieval retrieved aMax duration best, st).

(** ** Encoding *)

(** [for (j=1;j<=nbItemUnits;j++) dst[item][j]=src[item][j];] *)
Definition copyItem (dst src : vec) (item : Z) : vec :=
  for_up 1 nbItemUnits
    (fun j dst => vset dst (item * rowStride + j) (row src item j))
    dst.

(** The association update at the end of [encode]. *)
Definition strengthen (pv : mat Z) (ipm : mat Q) (item position : Z) (eta : Q)
  : mat Q :=
  for_up 1 nbPositionUnits
    (fun j m =>
       if negb (pv position j =? 0)
       then mset m item j (m item j + (param_L - m item j) * eta)%Q
       else m)
    ipm.

(** [interfere(m[target], source, p)] on a row of a flat matrix. *)
Definition interfereRow (m : vec) (target : Z) (source : vec) (p : Q) : vec :=
  store_row target (interfere (row m target) source p).

(** The distractor branch of [encode]: retrieve the item at [position],
    make the pattern of the current distractor, copy it to WM, let it
    interfere with the retrieved item, halve [var_eta]. *)
Definition encodeDistractor (st : state) (position : Z) : state :=
  let '(r, st) := retrieve st position 1 indeterminate in
  let newPattern (st : state) : state :=
    let slot := maxMemoranda + distractorNumber st in
    let '(pat, g) :=
      createOverlapingRandomPattern
        (pfresh (row (itemVectorsInLTM st) slot))
        (row (itemVectorsInWM st) (retrievedItem r))
        nbItemUnits param_itemDistractorOverlap (seed st) in
    set_seed (set_LTM st (store_row slot (cells pat))) g in
  let st :=
    if param_sameDist =? 1 then
      if distractorNumber st =? 0
      then newPattern (set_distractorNumber st 1)
      else st
    else newPattern st in
  let slot := maxMemoranda + distractorNumber st in
  let st := set_WM st (copyItem (itemVectorsInWM st) (itemVectorsInLTM st) slot) in
  let st :=
    set_WM st
      (interfereRow (itemVectorsInWM st) (retrievedItem r)
         (row (itemVectorsInWM st) slot) distractorEncodingWeight) in
  set_var_eta st (var_eta st * distractorEncodingWeight)%Q.

(** [encode(..., initialEncoding, currentItem, bestWMItem, position,
    timeLeft, strengthDivisor, duration, distractor)] *)
Definition encode (st : state) (initialEncoding currentItem bestWMItem
    position : Z) (timeLeft : Q) (strengthDivisor : Z) (duration : Q)
    (distractor : Z) : Q * state :=
  let '(var_r, g) := drawRate param_R (seed st) in
  let st := set_seed st g in
  let '(encodingDuration, st) :=
    if negb (initialEncoding =? 0) then
      if negb (distractor =? 0) then (0%Q, st)
      else
        let st :=
          set_WM st (copyItem (itemVectorsInWM st) (itemVectorsInLTM st)
                       currentItem) in
        let te := (logTauE / var_r)%Q in
        let te := if Qgtb te presentationTime then presentationTime else te in
        let st := set_var_te st te in
        (te, set_var_eta st (1 - expf (- var_r * te))%Q)
    else
      let '(d, st) :=
        if Qeq_bool duration ((-1) # 1) then
          let tr := to_float (- logf (to_float (1 - var_tauR)) / var_r) in
          let tr := if Qgtb tr timeLeft then timeLeft else tr in
          (tr, set_var_tr st tr)
        else (duration, st) in
      let eta := (1 - expf (- var_r * d))%Q in
      (d, set_var_eta st (eta / inject_Z strengthDivisor)%Q) in
  let st := set_globalTime st (globalTime st + encodingDuration)%Q in
  let st :=
    if (distractor =? 0) && Qeq_bool duration ((-1) # 1) then
      set_ipm st
        (decay (itemPositionMatrix st) (expf (- param_D * encodingDuration))
           currentItem)
    else st in
  let st := if negb (distractor =? 0) then encodeDistractor st position else st in
  let st :=
    set_ipm st
      (strengthen (positionVectors st) (itemPositionMatrix st) currentItem
         position (var_eta st)) in
  let st :=
    if (initialEncoding =? 0) && (distractor =? 0) then
      set_WM st
        (interfereRow (itemVectorsInWM st) bestWMItem
           (row (itemVectorsInLTM st) currentItem) (5 # 10))
    else st in
  (encodingDuration, st).

(** ** Refreshing *)

(** The body of the inner [while (afsi > 0)] loop of [refresh], on the
    variables it assigns: state, [cpi], [reencodingDuration], [bestWMItem]. *)
Definition windowStep (timeAvailable : Q) (lastPosition : Z)
    (s : state * Z * Q * Z) : state * Z * Q * Z :=
  let '(st, cpi, reencodingDuration, bestWM) := s in
  let '(r, st) := retrieve st cpi 1 bestWM in
  let '(d, st) :=
    encode st 0 (retrievedItem r) (bestWMItem r) cpi timeAvailable
      (min param_attentionalFocusSize lastPosition) reencodingDuration 0 in
  let cpi := cpi + 1 in
  let cpi := if cpi >? lastPosition then 1 else cpi in
  (st, cpi, d, bestWMItem r).

(** The inner loop of [refresh]: one attentional-focus window, [afsi]
    counting down from [min(param_attentionalFocusSize, lastPosition)]. *)
Definition refreshWindow (st : state) (timeAvailable : Q)
    (lastPosition currentPosition bestWMItem0 : Z) : state * Z * Q * Z :=
  for_n (Z.to_nat (min param_attentionalFocusSize lastPosition)) 0
    (fun _ => windowStep timeAvailable lastPosition)
    (st, currentPosition, (-1) # 1, bestWMItem0).

(** One pass of the outer loop of [refresh]: the window, then the time
    that is left. *)
Definition refreshPass (st : state) (timeAvailable : Q)
    (lastPosition currentPosition bestWMItem0 : Z) : state * Q * Z * Z :=
  let '(st, cpi, reencodingDuration, bestWM) :=
    refreshWindow st timeAvailable lastPosition currentPosition bestWMItem0 in
  let timeAvailable := to_float (timeAvailable - reencodingDuration) in
  let timeAvailable := if Qltb timeAvailable 0 then 0%Q else timeAvailable in
  (st, timeAvailable, cpi, bestWM).

(** [while (timeAvailable > 0)]: [None] when [fuel] passes do not bring
    [timeAvailable] down to zero. *)
Fixpoint refreshLoop (fuel : nat) (st : state) (timeAvailable : Q)
    (lastPosition currentPosition bestWMItem0 : Z) : option state :=
  if Qgtb timeAvailable 0 then
    match fuel with
    | O => None
    | S fuel' =>
        let '(st, timeAvailable, cpi, bestWM) :=
          refreshPass st timeAvailable lastPosition currentPosition
            bestWMItem0 in
        refreshLoop fuel' st timeAvailable lastPosition cpi bestWM
    end
  else Some st.

(** [refresh(..., timeAvailable, lastPosition)] *)
Definition refresh (fuel : nat) (st : state) (timeAvailable : Q)
    (lastPosition : Z) : option state :=
  refreshLoop fuel st timeAvailable lastPosition 1 indeterminate.

(** ** Processing a distractor *)

(** [processing(..., lastPosition)] *)
Definition processing (st : state) (lastPosition : Z) : Q * state :=
  let var_Rop := (- logf (1 - param_tauOp) / param_Ta)%Q in
  let '(var_rop, g) := drawRate var_Rop (seed st) in
  let st := set_seed st g in
  let ta := (- logf (1 - param_tauOp) / var_rop)%Q in
  let ta :=
    if Qgtb ta param_freeTime && (param_freeTimeIncludesOpDuration =? 1)
    then param_freeTime else ta in
  let '(_, st) :=
    encode st 1 (maxMemoranda + distractorNumber st) (-1) lastPosition
      (9999 # 1) 1 ta 1 in
  let st := set_globalTime st (globalTime st + ta)%Q in
  let st :=
    set_ipm st (decay (itemPositionMatrix st) (expf (- param_D * ta)) (-1)) in
  (ta, st).

(** ** Recall *)

Definition char_code (c : ascii) : Z := Z.of_nat (nat_of_ascii c).

(** Response suppression, the loop over [j] in [recall]. *)
Definition suppress (wm : vec) (ipm : mat Q) (item : Z) (amount : Q) : mat Q :=
  for_up 1 nbPositionUnits
    (fun j m =>
       if Qneqb (row wm item j) 0
       then mset m item j (m item j - amount)%Q
       else m)
    ipm.

(** The symbol of a retrieved item. *)
Definition recallSymbol (bestLTMItem : Z) : Z :=
  if (bestLTMItem >=? 1) && (bestLTMItem <=? 26)
  then bestLTMItem + char_code "A" - 1
  else char_code "*".

(** One iteration of the loop of [recall]; [recalled] is the output buffer
    and [bestWM] the variable [bestWMItem] of [recall]. *)
Definition recallStep (position : Z) (s : state * (Z -> Z) * Z)
  : state * (Z -> Z) * Z :=
  let '(st, recalled, bestWM) := s in
  let '(r, st) := retrieve st position 0 bestWM in
  let bestLTMItem := retrievedItem r in
  let duration :=
    if Qgtb (retrievalDuration r) 5 then 5%Q else retrievalDuration r in
  let st :=
    set_ipm st (decay (itemPositionMatrix st) (expf (- param_D * duration)) (-1)) in
  let '(codeItem, st) :=
    if Qgtb (activationMax r) param_theta then
      (recallSymbol bestLTMItem,
       set_ipm st
         (suppress (itemVectorsInWM st) (itemPositionMatrix st) bestLTMItem
            (param_L * activationMax r)))
    else (char_code ".", st) in
  let recalled := fun k => if k =? position - 1 then codeItem else recalled k in
  (set_globalTime st (globalTime st + duration)%Q, recalled, bestWMItem r).

(** [recall(..., lastPosition, recalled)] *)
Definition recall (st : state) (lastPosition : Z) (recalled : Z -> Z)
  : state * (Z -> Z) :=
  let '(st, recalled, _) :=
    for_up 1 lastPosition recallStep (st, recalled, indeterminate) in
  (st, fun k => if k =? lastPosition then 0 else recalled k).

(** ** Generation of the representations *)

(** Zero the six units of block [i] of position [p], then set one of them. *)
Definition resampleBlock (pv : mat Z) (p i : Z) (g : nat) : mat Z * nat :=
  let pv :=
    for_up (i * sizeOfPositionBlocks + 1) ((i + 1) * sizeOfPositionBlocks)
      (fun j pv => mset pv p j 0) pv in
  let randomPosition := 1 + Z.rem (rand_draw g) sizeOfPositionBlocks in
  (mset pv p (i * sizeOfPositionBlocks + randomPosition) 1, S g).

Definition copyBlock (pv : mat Z) (p i : Z) : mat Z :=
  for_up (i * sizeOfPositionBlocks + 1) ((i + 1) * sizeOfPositionBlocks)
    (fun j pv => mset pv p j (pv (p - 1) j)) pv.

(** [generatePositionRepresentations(positionVectors)] *)
Definition generatePositionRepresentations (pv : mat Z) (g : nat)
  : mat Z * nat :=
  let pv := for_up 1 nbPositionUnits (fun i pv => mset pv 1 i 0) pv in
  let '(pv, g) :=
    for_up 0 (nbUnitBlocks - 1)
      (fun i '(pv, g) =>
         let randomPosition := 1 + Z.rem (rand_draw g) sizeOfPositionBlocks in
         (mset pv 1 (i * sizeOfPositionBlocks + randomPosition) 1, S g))
      (pv, g) in
  for_up 2 maxPosition
    (fun p s =>
       for_up 0 (nbUnitBlocks - 1)
         (fun i '(pv, g) =>
            if Qgtb (inject_Z (Z.rem (rand_draw g) 100)) (param_P * 100)
            then resampleBlock pv p i (S g)
            else (copyBlock pv p i, S g))
         s)
    (pv, g).

(** [for (j=1;j<=nbItemUnits;j++) itemVectors[i][j]=-1;] *)
Definition clearItem (itemVectors : vec) (i : Z) : vec :=
  for_up 1 nbItemUnits
    (fun j iv => vset iv (i * rowStride + j) sentinel) itemVectors.

(** [generateItemRepresentations(itemVectors, d1, d2)]; [embeddingsList] is
    the global table [main] fills from the file. *)
Definition generateItemRepresentations (embeddingsList : mat Q)
    (itemVectors : vec) (g : nat) : vec * nat :=
  let '(iv, g) :=
    for_up 1 maxMemoranda
      (fun i '(iv, g) =>
         let iv := clearItem iv i in
         if PRESET =? 0 then
           let '(pat, g) :=
             createRandomPattern (pfresh (row iv i)) 1 nbItemUnits g in
           (store_row i (cells pat), g)
         else
           (for_up 1 nbItemUnits
              (fun jj iv =>
                 vset iv (i * rowStride + jj) (embeddingsList (i - 1) (jj - 1)))
              iv, g))
      (itemVectors, g) in
  (for_up (maxMemoranda + 1) maxItem (fun i iv => clearItem iv i) iv, g).

(** ** Vocabulary of the properties *)

(** [-log(1-var_tauR)], the numerator of the duration of a reencoding. *)
Definition reencodingCriterion : Q := - logf (to_float (1 - var_tauR)).

(** The duration a reencoding computes when none is given. *)
Definition computedDuration (g : nat) (timeLeft : Q) : Q :=
  let var_r := fst (drawRate param_R g) in
  let tr := to_float (reencodingCriterion / var_r) in
  if Qgtb tr timeLeft then timeLeft else tr.

(** The duration the first item of a window gets. *)
Definition windowDuration (st : state) (timeAvailable : Q)
    (currentPosition bestWMItem0 : Z) : Q :=
  computedDuration (seed (snd (retrieve st currentPosition 1 bestWMItem0)))
    timeAvailable.

(** A lower bound of the quotient [-log(1-var_tauR)/var_r] when no sampled
    rate exceeds [rmax]. *)
Definition quantum (rmax : Q) : Q := (reencodingCriterion / rmax)%Q.

(** What a pass takes off a time left of at most [timeAvailable], at least,
    when a store in a float is off by at most [u] of the value plus [eta]:
    the least duration as it is stored in [var_tr], less what the store of
    the difference in [timeAvailable] can add. *)
Definition progress (rmax u eta timeAvailable : Q) : Q :=
  (quantum rmax - (u * quantum rmax + eta) - (u * timeAvailable + eta))%Q.

(** The state and the variables of [recall] when position [k] comes up. *)
Definition recallBefore (st : state) (recalled : Z -> Z) (k : Z)
  : state * (Z -> Z) * Z :=
  for_up 1 (k - 1) recallStep (st, recalled, indeterminate).

(** The dimensions of an item vector, 1..nbItemUnits. *)
Definition dimensions : list Z := map Z.of_nat (seq 1 (Z.to_nat nbItemUnits)).

(** The sum of the squared differences over every dimension, whatever the
    values are. *)
Definition sumSquaredDiff (v1 v2 : vec) : Q :=
  fold_left (fun acc j => (acc + (v1 j - v2 j) * (v1 j - v2 j))%Q) dimensions 0%Q.




End Engine.

(** ** The command line and the set-up of [main] *)

(** How a run ends. *)
Inductive outcome (A : Type) : Type :=
| Done (a : A)              (* ran to the end *)
| Exit (msg : string)       (* [error(...)], or [return 1] from [main] *)
| Fault                     (* a read the C program has no data for *)
| OutOfFuel.                (* a loop of the model ran out of fuel *)
Arguments Done {A} a.
Arguments Exit {A} msg.
Arguments Fault {A}.
Arguments OutOfFuel {A}.

(** The globals an option writes, by type. *)
Inductive intGlobal : Type :=
| G_VERBOSE
| G_QUIET
| G_nbSimulations
| G_nbmemo
| G_nbop
| G_param_freeTimeIncludesOpDuration
| G_param_deterministic
| G_param_sameDist.

Inductive floatGlobal : Type :=
| G_param_memoDistr
| G_param_R
| G_param_P
| G_param_s
| G_param_D
| G_param_theta
| G_param_sigma
| G_param_Tr
| G_param_Ta
| G_param_freeTime
| G_param_itemDistractorNoise
| G_param_itemItemOverlap
| G_param_itemDistractorOverlap.

Definition assignInt (f : intGlobal) (x : Z) (c : params) : params := {|
  param_P := @param_P c;
  param_R := @param_R c;
  param_s := @param_s c;
  param_tauE := @param_tauE c;
  param_L := @param_L c;
  param_theta := @param_theta c;
  param_sigma := @param_sigma c;
  param_D := @param_D c;
  param_Tr := @param_Tr c;
  param_tauOp := @param_tauOp c;
  param_Ta := @param_Ta c;
  param_freeTime := @param_freeTime c;
  param_freeTimeIncludesOpDuration := match f with G_param_freeTimeIncludesOpDuration => x | _ => @param_freeTimeIncludesOpDuration c end;
  param_attentionalFocusSize := @param_attentionalFocusSize c;
  nbmemo := match f with G_nbmemo => x | _ => @nbmemo c end;
  nbop := match f with G_nbop => x | _ => @nbop c end;
  presentationTime := @presentationTime c;
  param_deterministic := match f with G_param_deterministic => x | _ => @param_deterministic c end;
  param_itemDistractorOverlap := @param_itemDistractorOverlap c;
  param_itemDistractorNoise := @param_itemDistractorNoise c;
  param_itemItemOverlap := @param_itemItemOverlap c;
  param_memoDistr := @param_memoDistr c;
  param_sameDist := match f with G_param_sameDist => x | _ => @param_sameDist c end;
  VERBOSE := match f with G_VERBOSE => x | _ => @VERBOSE c end;
  PRESET := @PRESET c;
  QUIET := match f with G_QUIET => x | _ => @QUIET c end;
  nbSimulations := match f with G_nbSimulations => x | _ => @nbSimulations c end
|}.

Definition assignFloat (f : floatGlobal) (x : Q) (c : params) : params := {|
  param_P := match f with G_param_P => x | _ => @param_P c end;
  param_R := match f with G_param_R => x | _ => @param_R c end;
  param_s := match f with G_param_s => x | _ => @param_s c end;
  param_tauE := @param_tauE c;
  param_L := @param_L c;
  param_theta := match f with G_param_theta => x | _ => @param_theta c end;
  param_sigma := match f with G_param_sigma => x | _ => @param_sigma c end;
  param_D := match f with G_param_D => x | _ => @param_D c end;
  param_Tr := match f with G_param_Tr => x | _ => @param_Tr c end;
  param_tauOp := @param_tauOp c;
  param_Ta := match f with G_param_Ta => x | _ => @param_Ta c end;
  param_freeTime := match f with G_param_freeTime => x | _ => @param_freeTime c end;
  param_freeTimeIncludesOpDuration := @param_freeTimeIncludesOpDuration c;
  param_attentionalFocusSize := @param_attentionalFocusSize c;
  nbmemo := @nbmemo c;
  nbop := @nbop c;
  presentationTime := @presentationTime c;
  param_deterministic := @param_deterministic c;
  param_itemDistractorOverlap := match f with G_param_itemDistractorOverlap => x | _ => @param_itemDistractorOverlap c end;
  param_itemDistractorNoise := match f with G_param_itemDistractorNoise => x | _ => @param_itemDistractorNoise c end;
  param_itemItemOverlap := match f with G_param_itemItemOverlap => x | _ => @param_itemItemOverlap c end;
  param_memoDistr := match f with G_param_memoDistr => x | _ => @param_memoDistr c end;
  param_sameDist := @param_sameDist c;
  VERBOSE := @VERBOSE c;
  PRESET := @PRESET c;
  QUIET := @QUIET c;
  nbSimulations := @nbSimulations c
|}.

(** The options that take a value, in the order [main] tests them: through
    [atoi] into an [int] global, or through [atof] into a [float] global. *)
Definition valuedOption (name : string) : option (intGlobal + floatGlobal) :=
  if String.eqb name "-n" then Some (inl G_nbSimulations)
  else if String.eqb name "nbmemo" then Some (inl G_nbmemo)
  else if String.eqb name "memoDistr" then Some (inr G_param_memoDistr)
  else if String.eqb name "nbop" then Some (inl G_nbop)
  else if String.eqb name "R" then Some (inr G_param_R)
  else if String.eqb name "P" then Some (inr G_param_P)
  else if String.eqb name "s" then Some (inr G_param_s)
  else if String.eqb name "D" then Some (inr G_param_D)
  else if String.eqb name "theta" then Some (inr G_param_theta)
  else if String.eqb name "sigma" then Some (inr G_param_sigma)
  else if String.eqb name "Tr" then Some (inr G_param_Tr)
  else if String.eqb name "Ta" then Some (inr G_param_Ta)
  else if String.eqb name "freeTime" then Some (inr G_param_freeTime)
  else if String.eqb name "ftiod" then Some (inl G_param_freeTimeIncludesOpDuration)
  else if String.eqb name "determ" then Some (inl G_param_deterministic)
  else if String.eqb name "sameDist" then Some (inl G_param_sameDist)
  else if String.eqb name "idn" then Some (inr G_param_itemDistractorNoise)
  else if String.eqb name "iio" then Some (inr G_param_itemItemOverlap)
  else if String.eqb name "ido" then Some (inr G_param_itemDistractorOverlap)
  else None.

Section Main.
Context {libc : Libc}.

(** The [while (i<argc)] loop of [main] over [argv[1..]].  An option that
    takes a value reads [argv[i+1]]; when the command line ends there,
    [atoi] or [atof] receives the null pointer that closes [argv]. *)
Fixpoint parse_args (argv : list string) (c : params) : outcome params :=
  match argv with
  | [] => Done c
  | a :: rest =>
      if String.eqb a "?" then Exit "Syntaxe:"
      else if String.eqb a "-v" then parse_args rest (assignInt G_VERBOSE 1 c)
      else if String.eqb a "-q" then parse_args rest (assignInt G_QUIET 1 c)
      else
        match valuedOption a with
        | Some target =>
            match rest with
            | v :: rest' =>
                parse_args rest'
                  match target with
                  | inl f => assignInt f (atoi v) c
                  | inr f => assignFloat f (atof v) c
                  end
            | [] => Fault
            end
        | None => Exit "Unknown parameter:"
        end
  end.

(** The part of [main] before the trials: the embeddings file is opened and
    read into [embeddingsList] ([file] is its content, [None] when [fopen]
    returns [NULL]), then the command line is analysed and checked. *)
Definition setup (file : option (mat Q)) (argv : list string) (c : params)
  : outcome (mat Q * params) :=
  match file with
  | None => Exit "Error opening file"
  | Some embeddingsList =>
      match parse_args argv c with
      | Done c =>
          if @nbop c >? 16 then Exit "Cannot handle more than 16 operations."
          else if Qltb (@param_itemDistractorOverlap c) 0
                  || Qgtb (@param_itemDistractorOverlap c) 1
          then Exit "Item distractor overlap should be between 0 and 1."
          else Done (embeddingsList, c)
      | Exit msg => Exit msg
      | Fault => Fault
      | OutOfFuel => OutOfFuel
      end
  end.

(** [stimuli]: for each memorandum its letter, then the digits of its
    operations; [#] closes the list. *)
Definition makeStimuli (c : params) : list Z :=
  for_up 0 (@nbmemo c - 1)
    (fun i stimuli =>
       for_up 1 (@nbop c)
         (fun j stimuli => stimuli ++ [j + char_code "0"])
         (stimuli ++ [65 + i]))
    []
  ++ [char_code "#"].

Context {cfg : params}.

(** The branch of the main loop for a memorandum. *)
Definition memorise (fuel : nat) (st : state) (lastPosition symbol : Z)
  : outcome (state * Z) :=
  let lastPosition := lastPosition + 1 in
  let st := set_lastItem st (symbol - char_code "A" + 1) in
  let '(encodingDuration, st) :=
    encode st 1 (symbol - char_code "A" + 1) (-1) lastPosition
      presentationTime 1 ((-1) # 1) 0 in
  if Qltb encodingDuration 0
  then Exit "There should be no error in initial encoding..."
  else
    match refresh fuel st (presentationTime - encodingDuration) lastPosition with
    | Some st => Done (st, lastPosition)
    | None => OutOfFuel
    end.

(** The head of the branch for a distractor: the capacity check, then the
    allocation of the next distractor number. *)
Definition admitDistractor (st : state) : outcome state :=
  if distractorNumber st >? maxDistractors
  then Exit "number of distractors is higher than what is allowed in the program. Increase maxDistractors constant"
  else if param_sameDist =? 0
       then Done (set_distractorNumber st (distractorNumber st + 1))
       else Done st.

(** The branch of the main loop for a distractor. *)
Definition distract (fuel : nat) (st : state) (lastPosition : Z)
  : outcome (state * Z) :=
  match admitDistractor st with
  | Done st =>
      let '(processingDuration, st) := processing st lastPosition in
      let timeLeft :=
        if negb (param_freeTimeIncludesOpDuration =? 0)
        then (param_freeTime - processingDuration)%Q
        else param_freeTime in
      match refresh fuel st timeLeft lastPosition with
      | Some st => Done (st, lastPosition)
      | None => OutOfFuel
      end
  | Exit msg => Exit msg
  | Fault => Fault
  | OutOfFuel => OutOfFuel
  end.

(** The main loop of a trial over the stimulus; it ends at [#] with the
    recalled sequence. *)
Fixpoint trialLoop (fuel : nat) (stimuli : list Z) (st : state)
    (lastPosition : Z) (recalled : Z -> Z) : outcome (state * Z * (Z -> Z)) :=
  match stimuli with
  | [] => Fault
  | symbol :: rest =>
      if (symbol >=? char_code "A") && (symbol <=? char_code "Z") then
        match memorise fuel st lastPosition symbol with
        | Done (st, lastPosition) => trialLoop fuel rest st lastPosition recalled
        | Exit msg => Exit msg
        | Fault => Fault
        | OutOfFuel => OutOfFuel
        end
      else if (symbol >=? char_code "0") && (symbol <=? char_code "9" + 7) then
        match distract fuel st lastPosition with
        | Done (st, lastPosition) => trialLoop fuel rest st lastPosition recalled
        | Exit msg => Exit msg
        | Fault => Fault
        | OutOfFuel => OutOfFuel
        end
      else if symbol =? char_code "#" then
        let '(st, recalled) := recall st lastPosition recalled in
        Done (st, lastPosition, recalled)
      else Exit "Unknown symbol in stimulus"
  end.

(** One pass of [while (cptReplic <= nbSimulations)]: the representations,
    the cleared association matrix, the counters, then the main loop.
    [itemVectorsInWM] is not initialised. *)
Definition trial (fuel : nat) (embeddingsList : mat Q) (st : state)
    (recalled : Z -> Z) : outcome (state * Z * (Z -> Z)) :=
  let '(pv, g) := generatePositionRepresentations (positionVectors st) (seed st) in
  let '(ltm, g) := generateItemRepresentations embeddingsList (itemVectorsInLTM st) g in
  let ipm :=
    for_up 1 maxItem
      (fun i m => for_up 1 nbPositionUnits (fun j m => mset m i j 0%Q) m)
      (itemPositionMatrix st) in
  let st :=
    set_distractorNumber
      (set_seed (set_ipm (set_LTM (set_positionVectors st pv) ltm) ipm) g) 0 in
  trialLoop fuel (makeStimuli cfg) st 0 recalled.

End Main.

(** ** Display and score *)

(** [name(code)]: the character that stands for an item or a distractor in
    the messages.  The value is the one of the [return] expression, an [int]
    that fits a [char] for every code from -192 on. *)
Definition name (code : Z) : Z :=
  if code <=? maxMemoranda then
    if code <? 26 then code + char_code "A" - 1 else char_code "*"
  else
    let codeDist := code - maxMemoranda in
    if codeDist <? 10 then codeDist + char_code "1" - 1 else char_code "#".

(** [compareStimAndRecalled(recalled, lastPosition, resSerialPositionData)]:
    the proportion of the positions recalled in order, together with the
    serial-position counters it increments.  The quotient is the one of the
    rationals; for [lastPosition] 0 the C function divides 0 by 0. *)
Definition compareStimAndRecalled (recalled : Z -> Z) (lastPosition : Z)
    (resSerialPositionData : vec) : Q * vec :=
  let '(sommeOrdre, res) :=
    for_up 0 (lastPosition - 1)
      (fun i '(sommeOrdre, res) =>
         if recalled i =? char_code "A" + i
         then (sommeOrdre + 1, vset res (i + 1) (res (i + 1)%Z + 1)%Q)
         else (sommeOrdre, res))
      (0, resSerialPositionData) in
  ((inject_Z sommeOrdre / inject_Z lastPosition)%Q, res).

(** ** Vocabulary of the further properties *)

(** Whether [decay] multiplies the cell [(i, j)]. *)
Definition decays (m : mat Q) (excludedItem i j : Z) : bool :=
  ((1 <=? i) && (i <=? maxItem))
  && ((excludedItem =? -1) || negb (i =? excludedItem))
  && ((1 <=? j) && (j <=? nbPositionUnits))
  && Qneqb (m i j) 0.

(** Whether [interfere] blends dimension [j]. *)
Definition blends (old new : vec) (j : Z) : bool :=
  ((1 <=? j) && (j <=? nbItemUnits))
  && (Qneqb (old j) (new j)
      && (negb (float_to_int (old j) =? -1)
          && negb (float_to_int (new j) =? -1))).

(** The swap of the cells [a] and [c], on the indices. *)
Definition transpose (a c x : Z) : Z :=
  if x =? c then a else if x =? a then c else x.

(** The character [recall] writes for a position. *)
Definition recallChar (c : Z) : Prop :=
  c = char_code "." \/ c = char_code "*" \/ char_code "A" <= c <= char_code "Z".

(** What no function called during a trial writes, but [encode] for a
    distractor. *)
Definition sameTables (st st' : state) : Prop :=
  positionVectors st' = positionVectors st
  /\ itemVectorsInLTM st' = itemVectorsInLTM st
  /\ distractorNumber st' = distractorNumber st.

Section Durations.
Context {libc : Libc} {cfg : params}.

(** The duration [processing] computes, from the position [g] of the random
    stream. *)
Definition operationDuration (g : nat) : Q :=
  let var_rop := fst (drawRate (- logf (1 - param_tauOp) / param_Ta) g) in
  let ta := (- logf (1 - param_tauOp) / var_rop)%Q in
  if Qgtb ta param_freeTime && (param_freeTimeIncludesOpDuration =? 1)
  then param_freeTime else ta.

End Durations.

(** The values a loop counter takes: [n] values from [lo]. *)
Fixpoint zseq (lo : Z) (n : nat) : list Z :=
  match n with
  | O => []
  | S n' => lo :: zseq (lo + 1) n'
  end.

(** The two tests of the main loop on a symbol of the stimulus. *)
Definition isMemorandum (symbol : Z) : bool :=
  (symbol >=? char_code "A") && (symbol <=? char_code "Z").

Definition isOperation (symbol : Z) : bool :=
  (symbol >=? char_code "0") && (symbol <=? char_code "9" + 7).

(** The part of the stimulus for memorandum [i]: its letter, then one digit
    per operation. *)
Definition stimulusBlock (c : params) (i : Z) : list Z :=
  [65 + i]
  ++ flat_map (fun j => [j + char_code "0"]) (zseq 1 (Z.to_nat (@nbop c))).

Definition countIf (f : Z -> bool) (l : list Z) : Z :=
  Z.of_nat (List.length (filter f l)).

(** The number of positions below [k] that hold their own letter. *)
Definition correctBelow (recalled : Z -> Z) (k : Z) : Z :=
  for_up 0 (k - 1)
    (fun i n => if recalled i =? char_code "A" + i then n + 1 else n) 0.


(** Whether a run came to its end. *)
Definition completes {A : Type} (o : outcome A) : bool :=
  match o with Done _ => true | _ => false end.

(** ** Sample data

    A stand-in for the C library and a few states, used to run the model on
    concrete inputs.  The library functions are rational approximations and
    the float format is binary32; the theorems below hold for every [Libc]. *)

Module Sample.

Definition draw (n : nat) : Z :=
  (Z.of_nat n * 1103515245 + 12345) mod 2147483648.

(** Six decimals of a rational. *)
Definition round6 (x : Q) : Q := Qfloor (x * 1000000) # 1000000.

Definition sqrt_approx (x : Q) : Q := Z.sqrt (Qfloor (x * 100000000)) # 10000.
Definition log_approx (x : Q) : Q := round6 (2 * (x - 1) / (x + 1)).
Definition exp_approx (x : Q) : Q := round6 ((1 + round6 x / 8) ^ 8).
Definition cos_approx (x : Q) : Q :=
  let y := round6 x in round6 (1 - y * y / 2 + y * y * y * y / 24).

Fixpoint digits (s : string) (acc : Z) : Z :=
  match s with
  | EmptyString => acc
  | String c s' =>
      let d := Z.of_nat (nat_of_ascii c) - 48 in
      if (0 <=? d) && (d <=? 9) then digits s' (10 * acc + d) else acc
  end.
Definition parse_int (s : string) : Z := digits s 0.
Definition parse_float (s : string) : Q := inject_Z (digits s 0).

(** The binary32 format: the nearest number with 24 significant bits, ties
    to the even one, the exponent of the last bit no lower than -149 (below
    [2^-126] the numbers are the multiples of [2^-149]).  There is no
    infinity: a value past the largest finite float is rounded like the
    others. *)
Definition round_half_even (y : Q) : Z :=
  let f := Qfloor y in
  match (y - inject_Z f ?= 1 # 2)%Q with
  | Lt => f
  | Gt => f + 1
  | Eq => if Z.even f then f else f + 1
  end.

(** [floor (log2 x)] for a positive [x]. *)
Definition exponent (x : Q) : Z :=
  let e := Z.log2 (Qnum x) - Z.log2 (Z.pos (Qden x)) in
  if Qle_bool (2 ^ e) x then e else e - 1.

Definition binary32 (x : Q) : Q :=
  let x := Qred x in
  if Qeq_bool x 0 then 0%Q
  else
    let k := Z.max (exponent (Qabs x)) (-126) - 23 in
    Qred (inject_Z (round_half_even (x / 2 ^ k)) * 2 ^ k).

Definition libc : Libc := {|
  RAND_MAX := 2147483647;
  rand_draw := draw;
  rand_range := fun n => Z.mod_pos_bound _ 2147483648 eq_refl;
  sqrtf := sqrt_approx;
  logf := log_approx;
  expf := exp_approx;
  cosf := cos_approx;
  atoi := parse_int;
  atof := parse_float;
  indeterminate := 0;
  to_float := binary32
|}.

(** Position [p] has the first unit of every block set. *)
Definition positions : mat Z :=
  fun _ j => if (j - 1) mod sizeOfPositionBlocks =? 0 then 1 else 0.

(** Memorandum [i] is 1 on dimension [i] and 0 on the others; every other row
    of the matrix is sentinel. *)
Definition vectors : vec :=
  fun a =>
    let i := a / rowStride in
    if (1 <=? i) && (i <=? maxMemoranda)
    then (if a mod rowStride =? i then 1%Q else 0%Q)
    else sentinel.

(** A state in which nothing is associated with any position. *)
Definition blank : state := {|
  positionVectors := positions;
  itemVectorsInWM := vectors;
  itemVectorsInLTM := vectors;
  itemPositionMatrix := fun _ _ => 0%Q;
  var_te := 0;
  var_tr := 0;
  var_eta := 0;
  globalTime := 0;
  lastItem := 0;
  distractorNumber := 0;
  seed := 0
|}.

(** Two distractors have been created; the second one is fully associated
    with the units of the positions. *)
Definition twoDistractors : state :=
  set_distractorNumber
    (set_ipm blank (fun i _ => if i =? maxMemoranda + 2 then 1 # 9 else 0%Q))
    2.

(** The distractor capacity is used up. *)
Definition fullHouse : state := set_distractorNumber blank maxDistractors.

(** [Tr 0] on the command line. *)
Definition noRefreshTime : params := assignFloat G_param_Tr 0 default_params.

(** [s 0] on the command line: every sampled rate is its mean. *)
Definition steadyRates : params := assignFloat G_param_s 0 default_params.

(** The flag [PRESET] put at 0 in the source. *)
Definition randomItems : params := {|
  param_P := @param_P default_params;
  param_R := @param_R default_params;
  param_s := @param_s default_params;
  param_tauE := @param_tauE default_params;
  param_L := @param_L default_params;
  param_theta := @param_theta default_params;
  param_sigma := @param_sigma default_params;
  param_D := @param_D default_params;
  param_Tr := @param_Tr default_params;
  param_tauOp := @param_tauOp default_params;
  param_Ta := @param_Ta default_params;
  param_freeTime := @param_freeTime default_params;
  param_freeTimeIncludesOpDuration := @param_freeTimeIncludesOpDuration default_params;
  param_attentionalFocusSize := @param_attentionalFocusSize default_params;
  nbmemo := @nbmemo default_params;
  nbop := @nbop default_params;
  presentationTime := @presentationTime default_params;
  param_deterministic := @param_deterministic default_params;
  param_itemDistractorOverlap := @param_itemDistractorOverlap default_params;
  param_itemDistractorNoise := @param_itemDistractorNoise default_params;
  param_itemItemOverlap := @param_itemItemOverlap default_params;
  param_memoDistr := @param_memoDistr default_params;
  param_sameDist := @param_sameDist default_params;
  VERBOSE := @VERBOSE default_params;
  PRESET := 0;
  QUIET := @QUIET default_params;
  nbSimulations := @nbSimulations default_params
|}.

(** [R 1 s 0 freeTime 0] on the command line: the encoding of a memorandum
    takes the whole presentation time and an operation leaves no free time,
    so that nothing is refreshed. *)
Definition unrefreshed : params :=
  assignFloat G_param_freeTime 0 (assignFloat G_param_R 1 steadyRates).

(** Two memoranda with one operation each, and one memorandum alone. *)
Definition twoLetters : params :=
  assignInt G_nbop 1 (assignInt G_nbmemo 2 unrefreshed).
Definition oneLetter : params :=
  assignInt G_nbop 0 (assignInt G_nbmemo 1 unrefreshed).

(** [nbmemo 27] and [sameDist 2] on the command line. *)
Definition tooManyLetters : params := assignInt G_nbmemo 27 default_params.
Definition thirdKind : params := assignInt G_param_sameDist 2 default_params.

(** An embeddings table, two vectors and two recalled sequences. *)
Definition identityTable : mat Q := fun i j => if i =? j then 1%Q else 0%Q.
Definition halves : vec := fun _ => 1 # 2.
Definition zeros : vec := fun _ => 0%Q.
Definition inOrder : Z -> Z := fun k => char_code "A" + k.
Definition lastWrong : Z -> Z :=
  fun k => if k =? 2 then char_code "D" else char_code "A" + k.

End Sample.

(** * Properties *)

(** ** Loops *)

Lemma for_n_ind {S : Type} (P : Z -> S -> Prop) (body : Z -> S -> S) :
  forall (n : nat) (i : Z) (s : S),
    P i s ->
    (forall k s, i <= k < i + Z.of_nat n -> P k s -> P (k + 1) (body k s)) ->
    P (i + Z.of_nat n) (for_n n i body s).
Proof.
  induction n as [|n IH]; intros i s H0 Hstep.
  - simpl. replace (i + 0) with i by lia. exact H0.
  - cbn [for_n].
    replace (i + Z.of_nat (Datatypes.S n)) with (i + 1 + Z.of_nat n) by lia.
    apply IH.
    + apply Hstep; [lia | exact H0].
    + intros k s' Hk. apply Hstep. lia.
Qed.

Lemma for_up_ind {S : Type} (P : Z -> S -> Prop) (body : Z -> S -> S)
    (lo hi : Z) (s : S) :
  lo <= hi + 1 ->
  P lo s ->
  (forall k s, lo <= k <= hi -> P k s -> P (k + 1) (body k s)) ->
  P (hi + 1) (for_up lo hi body s).
Proof.
  intros Hle H0 Hstep. unfold for_up.
  replace (hi + 1) with (lo + Z.of_nat (Z.to_nat (hi + 1 - lo))) at 1 by lia.
  apply for_n_ind; [exact H0|].
  intros k s' Hk. apply Hstep. lia.
Qed.

(** An invariant that does not mention the counter. *)
Lemma for_up_inv {S : Type} (P : S -> Prop) (body : Z -> S -> S)
    (lo hi : Z) (s : S) :
  P s ->
  (forall k s, lo <= k <= hi -> P s -> P (body k s)) ->
  P (for_up lo hi body s).
Proof.
  intros H0 Hstep. unfold for_up.
  assert (G : forall n i s', lo <= i -> i + Z.of_nat n <= Z.max lo (hi + 1) ->
                             P s' -> P (for_n n i body s')).
  { induction n as [|n IH]; intros i s' Hi Hn Hs; [exact Hs|].
    cbn [for_n]. apply IH; [lia | lia |]. apply Hstep; [lia | exact Hs]. }
  apply G; [lia | lia | exact H0].
Qed.

Lemma for_up_empty {S : Type} (body : Z -> S -> S) (lo hi : Z) (s : S) :
  hi < lo -> for_up lo hi body s = s.
Proof.
  intro H. unfold for_up. replace (Z.to_nat (hi + 1 - lo)) with O by lia.
  reflexivity.
Qed.

Lemma for_n_snoc {S : Type} (body : Z -> S -> S) :
  forall (n : nat) (i : Z) (s : S),
    for_n (Datatypes.S n) i body s = body (i + Z.of_nat n) (for_n n i body s).
Proof.
  induction n as [|n IH]; intros i s.
  - simpl. replace (i + 0) with i by lia. reflexivity.
  - change (for_n (Datatypes.S (Datatypes.S n)) i body s)
      with (for_n (Datatypes.S n) (i + 1) body (body i s)).
    rewrite IH. cbn [for_n]. f_equal. lia.
Qed.

(** The last pass of a loop. *)
Lemma for_up_last {S : Type} (body : Z -> S -> S) (lo hi : Z) (s : S) :
  lo <= hi ->
  for_up lo hi body s = body hi (for_up lo (hi - 1) body s).
Proof.
  intro H. unfold for_up.
  replace (Z.to_nat (hi + 1 - lo)) with (Datatypes.S (Z.to_nat (hi - lo))) by lia.
  rewrite for_n_snoc. replace (hi - 1 + 1 - lo) with (hi - lo) by lia.
  f_equal. lia.
Qed.

Lemma for_n_app {S : Type} (body : Z -> S -> S) :
  forall (n m : nat) (i : Z) (s : S),
    for_n (n + m) i body s = for_n m (i + Z.of_nat n) body (for_n n i body s).
Proof.
  induction n as [|n IH]; intros m i s.
  - simpl. replace (i + 0) with i by lia. reflexivity.
  - cbn [Nat.add for_n]. rewrite IH. f_equal. lia.
Qed.

(** A loop is its passes before [k], then pass [k], then the passes after. *)
Lemma for_up_split {S : Type} (body : Z -> S -> S) (lo hi k : Z) (s : S) :
  lo <= k <= hi ->
  for_up lo hi body s
  = for_up (k + 1) hi body (body k (for_up lo (k - 1) body s)).
Proof.
  intro H. rewrite <- for_up_last by lia. unfold for_up.
  replace (Z.to_nat (hi + 1 - lo))
    with (Z.to_nat (k + 1 - lo) + Z.to_nat (hi + 1 - (k + 1)))%nat by lia.
  rewrite for_n_app. f_equal. lia.
Qed.

Lemma down_n_inv {S : Type} (P : S -> Prop) (body : Z -> S -> S) :
  forall (n : nat) (c : Z) (s : S),
    P s ->
    (forall k s, c - Z.of_nat n < k <= c -> P s -> P (body k s)) ->
    P (down_n n c body s).
Proof.
  induction n as [|n IH]; intros c s H0 Hstep; [exact H0|].
  cbn [down_n]. apply IH.
  - apply Hstep; [lia | exact H0].
  - intros k s' Hk. apply Hstep. lia.
Qed.

Lemma for_down_inv {S : Type} (P : S -> Prop) (body : Z -> S -> S)
    (hi lo : Z) (s : S) :
  P s ->
  (forall k s, lo < k <= hi -> P s -> P (body k s)) ->
  P (for_down hi lo body s).
Proof.
  intros H0 Hstep. unfold for_down. apply down_n_inv; [exact H0|].
  intros k s' Hk. apply Hstep. lia.
Qed.

(** ** Floats *)

Lemma float_to_int_small (x : Q) : (0 <= x)%Q -> (x < 1)%Q -> float_to_int x = 0.
Proof.
  destruct x as [n d]. unfold Qle, Qlt, float_to_int. simpl. intros H0 H1.
  apply Z.quot_small. lia.
Qed.

Lemma Qltb_true (a b : Q) : Qltb a b = true <-> (a < b)%Q.
Proof.
  unfold Qltb. rewrite negb_true_iff. split; intro H.
  - apply Qnot_le_lt. intro L. apply Qle_bool_iff in L. congruence.
  - destruct (Qle_bool b a) eqn:E; [|reflexivity].
    apply Qle_bool_iff in E. exfalso. apply (Qlt_not_le _ _ H E).
Qed.

Lemma Qltb_false (a b : Q) : Qltb a b = false <-> (b <= a)%Q.
Proof.
  unfold Qltb. rewrite negb_false_iff. apply Qle_bool_iff.
Qed.

Lemma Qgtb_true (a b : Q) : Qgtb a b = true <-> (b < a)%Q.
Proof. apply Qltb_true. Qed.

Lemma Qgtb_false (a b : Q) : Qgtb a b = false <-> (a <= b)%Q.
Proof. apply Qltb_false. Qed.

Lemma Qneqb_true (a b : Q) : Qneqb a b = true <-> ~ (a == b)%Q.
Proof.
  unfold Qneqb. rewrite negb_true_iff. split; intro H.
  - intro E. apply Qeq_bool_iff in E. congruence.
  - destruct (Qeq_bool a b) eqn:E; [|reflexivity].
    apply Qeq_bool_iff in E. contradiction.
Qed.

Lemma Qneqb_false (a b : Q) : Qneqb a b = false <-> (a == b)%Q.
Proof. unfold Qneqb. rewrite negb_false_iff. apply Qeq_bool_iff. Qed.

(** ** Pattern generation *)

Lemma agrees_below_refl k a : agrees_below k a a.
Proof. intros j _. reflexivity. Qed.

Lemma agrees_below_trans k a b c :
  agrees_below k a b -> agrees_below k b c -> agrees_below k a c.
Proof. intros H1 H2 j Hj. rewrite H2, H1 by exact Hj. reflexivity. Qed.

Lemma agrees_below_pwrite k a i x : k <= i -> agrees_below k a (pwrite a i x).
Proof.
  intros Hi j Hj. unfold pwrite, vset. simpl.
  destruct (j =? i) eqn:E; [apply Z.eqb_eq in E; lia | reflexivity].
Qed.

Lemma agrees_below_weaken k k' a b :
  k' <= k -> agrees_below k a b -> agrees_below k' a b.
Proof. intros Hk H j Hj. apply H. lia. Qed.

Section PatternFacts.
Context {libc : Libc}.

Lemma fillPrefix_spec (pattern : parray) (patternSize : Z) :
  0 <= patternSize ->
  snd (fillPrefix pattern patternSize) = patternSize + 1
  /\ forall j, 1 <= j <= patternSize ->
               cells (fst (fillPrefix pattern patternSize)) j = sentinel.
Proof.
  intro Hs. unfold fillPrefix.
  assert (G : (fun k (s : parray * Z) =>
                 snd s = k
                 /\ forall j, 1 <= j < k -> cells (fst s) j = sentinel)
                (patternSize + 1)
                (for_up 1 patternSize
                   (fun _ '(pat, i) => (pwrite pat i sentinel, i + 1))
                   (pattern, 1))).
  { apply for_up_ind.
    - lia.
    - simpl. split; [reflexivity | intros; lia].
    - intros k [pat i] Hk [Hi Hc]. simpl in *. subst i.
      split; [reflexivity|].
      intros j Hj. unfold vset. destruct (j =? k) eqn:E; [reflexivity|].
      apply Z.eqb_neq in E. apply Hc. lia. }
  destruct G as [Hi Hc]. split; [exact Hi|]. intros j Hj. apply Hc. lia.
Qed.

Lemma fillGap_spec (pattern : parray) (i patternSize : Z) (p : Q) :
  i <= snd (fillGap pattern i patternSize p)
  /\ agrees_below i pattern (fst (fillGap pattern i patternSize p)).
Proof.
  unfold fillGap.
  apply (for_up_inv
           (fun s : parray * Z => i <= snd s /\ agrees_below i pattern (fst s))).
  - simpl. split; [lia | apply agrees_below_refl].
  - intros k [pat c] _ [Hc Ha]. simpl in *. split; [lia|].
    eapply agrees_below_trans; [exact Ha|]. apply agrees_below_pwrite. exact Hc.
Qed.

Lemma createSimilarRandomPattern_frame (pattern : parray) (refPattern : vec)
    (std : Q) (lo hi : Z) (g : nat) :
  agrees_below lo pattern
    (fst (createSimilarRandomPattern pattern refPattern std lo hi g)).
Proof.
  unfold createSimilarRandomPattern.
  apply (for_up_inv (fun s : parray * nat => agrees_below lo pattern (fst s))).
  - apply agrees_below_refl.
  - intros k [pat c] Hk Ha. simpl in *.
    destruct (Qeq_bool (refPattern k) sentinel).
    + simpl. eapply agrees_below_trans; [exact Ha|].
      apply agrees_below_pwrite. lia.
    + destruct (randomNormal (refPattern k) std c) as [val g'].
      simpl. eapply agrees_below_trans; [exact Ha|].
      apply agrees_below_pwrite. lia.
Qed.

Lemma shuffle_frame (pattern : parray) (firstUsedUnit patternSize : Z)
    (g : nat) :
  0 < patternSize ->
  agrees_below firstUsedUnit pattern
    (fst (shuffle pattern firstUsedUnit patternSize g)).
Proof.
  intro Hs. unfold shuffle.
  apply (for_down_inv
           (fun s : parray * nat => agrees_below firstUsedUnit pattern (fst s))).
  - apply agrees_below_refl.
  - intros c [pat g'] Hc Ha. simpl in *.
    eapply agrees_below_trans; [exact Ha|].
    eapply agrees_below_trans; apply agrees_below_pwrite.
    + pose proof (rand_range g') as Hr.
      pose proof (Z.rem_nonneg (rand_draw g') patternSize). lia.
    + lia.
Qed.

(** The shuffle starts by addressing the cell [firstUsedUnit+patternSize]. *)
Lemma shuffle_touches_top (pattern : parray) (firstUsedUnit patternSize : Z)
    (g : nat) :
  0 < patternSize ->
  In (firstUsedUnit + patternSize)
     (touched (fst (shuffle pattern firstUsedUnit patternSize g))).
Proof.
  intro Hs. unfold shuffle, for_down.
  replace (Z.to_nat (firstUsedUnit + patternSize - firstUsedUnit))
    with (Datatypes.S (Z.to_nat (patternSize - 1))) by lia.
  cbn [down_n].
  apply (down_n_inv
           (fun s : parray * nat =>
              In (firstUsedUnit + patternSize) (touched (fst s)))).
  - simpl. left. reflexivity.
  - intros c [pat g'] _ H. simpl in *. right. right. exact H.
Qed.

Lemma touched_tail_loop (pattern : parray) (lo hi x : Z) :
  In x (touched pattern) ->
  In x (touched (for_up lo hi (fun c pat => pwrite pat c sentinel) pattern)).
Proof.
  intro H. apply (for_up_inv (fun s : parray => In x (touched s))).
  - exact H.
  - intros k s _ Hs. simpl. right. exact Hs.
Qed.

Lemma tail_loop_frame (pattern : parray) (lo hi : Z) :
  agrees_below lo pattern
    (for_up lo hi (fun c pat => pwrite pat c sentinel) pattern).
Proof.
  apply (for_up_inv (fun s : parray => agrees_below lo pattern s)).
  - apply agrees_below_refl.
  - intros k s Hk Hs. eapply agrees_below_trans; [exact Hs|].
    apply agrees_below_pwrite. lia.
Qed.

End PatternFacts.

(** The bound 99999 from which the search starts is out of reach of vectors
    whose entries lie between -1 and 1, as soon as [sqrt] is below it on
    [0,4]: each squared difference is at most 4. *)
Lemma Qsquare_diff_bound (a b : Q) :
  (-1 <= a)%Q -> (a <= 1)%Q -> (-1 <= b)%Q -> (b <= 1)%Q ->
  (0 <= (a - b) * (a - b))%Q /\ ((a - b) * (a - b) <= 4)%Q.
Proof.
  intros Ha1 Ha2 Hb1 Hb2.
  assert (Hsq : (0 <= (a - b) * (a - b))%Q).
  { destruct (Qlt_le_dec (a - b) 0) as [Hn | Hp].
    - setoid_replace ((a - b) * (a - b))%Q with ((b - a) * (b - a))%Q by ring.
      apply Qmult_le_0_compat; lra.
    - apply Qmult_le_0_compat; exact Hp. }
  split; [exact Hsq|].
  assert (Hprod : (0 <= (2 - (a - b)) * (2 + (a - b)))%Q)
    by (apply Qmult_le_0_compat; lra).
  setoid_replace ((2 - (a - b)) * (2 + (a - b)))%Q
    with (4 - (a - b) * (a - b))%Q in Hprod by ring.
  lra.
Qed.

Lemma Qmean_bound (acc : Q) (n : Z) :
  0 < n -> (0 <= acc)%Q -> (acc <= 4 * inject_Z n)%Q ->
  (0 <= acc / inject_Z n)%Q /\ (acc / inject_Z n <= 4)%Q.
Proof.
  intros Hn H0 H4.
  assert (Hpos : (0 < inject_Z n)%Q).
  { change 0%Q with (inject_Z 0). rewrite <- Zlt_Qlt. exact Hn. }
  split.
  - apply Qle_shift_div_l; [exact Hpos|]. rewrite Qmult_0_l. exact H0.
  - apply Qle_shift_div_r; [exact Hpos | exact H4].
Qed.

Lemma Qacc_step (acc d : Q) (k : Z) :
  (0 <= acc)%Q -> (acc <= 4 * inject_Z (k - 1))%Q ->
  (0 <= d)%Q -> (d <= 4)%Q ->
  (0 <= acc + d)%Q /\ (acc + d <= 4 * inject_Z (k + 1 - 1))%Q.
Proof.
  intros H0 H1 H2 H3. split; [lra|].
  replace (k + 1 - 1) with (k - 1 + 1) by lia. rewrite inject_Z_plus.
  change (inject_Z 1) with 1%Q. lra.
Qed.

Lemma Qplus_mult_zero (a n : Q) : (a + n * inject_Z 0 == a)%Q.
Proof. change (inject_Z 0) with 0%Q. ring. Qed.

Section Claims.
Context {libc : Libc} {cfg : params}.

Lemma activation_eq pv ipm pos item g :
  activation pv ipm pos item g
  = (positionActivation pv ipm pos item
     + fst (randomNormal 0 1 g) * inject_Z noiseScale)%Q.
Proof. reflexivity. Qed.

(** C1 (what the code does).  [max] is declared on [int], so both of its
    arguments are truncated at the call: for every [param_sigma] strictly
    between 0 and 1 the factor that multiplies the normal deviate in
    [retrieve] is the integer 0, and the activation of an item is exactly
    the sum its position units carry.  The noise has standard deviation 0,
    not [param_sigma]. *)
Theorem retrieve_noise_scale_truncated :
  (0 < param_sigma)%Q -> (param_sigma < 1)%Q ->
  noiseScale = 0
  /\ forall pv ipm pos item g,
       (activation pv ipm pos item g == positionActivation pv ipm pos item)%Q.
Proof.
  intros H0 H1.
  assert (E : noiseScale = 0).
  { unfold noiseScale. rewrite (float_to_int_small param_sigma).
    - reflexivity.
    - apply Qlt_le_weak. exact H0.
    - exact H1. }
  split; [exact E|].
  intros pv ipm pos item g. rewrite activation_eq, E. apply Qplus_mult_zero.
Qed.

(** C3 (what the code does).  The first loop of
    [createOverlapingRandomPattern] runs over the whole pattern, so every
    later write lands past index [patternSize]: whatever the reference, the
    overlap fraction and the random draws, the cells 1..nbItemUnits of the
    pattern are all sentinel when the function returns. *)
Theorem createOverlapingRandomPattern_all_sentinel :
  forall (pattern : parray) (refPattern : vec) (p : Q) (g : nat) (j : Z),
    1 <= j <= nbItemUnits ->
    cells (fst (createOverlapingRandomPattern pattern refPattern nbItemUnits p g)) j
    = sentinel.
Proof.
  intros pattern refPattern p g j Hj. unfold createOverlapingRandomPattern.
  pose proof (fillPrefix_spec pattern nbItemUnits ltac:(unfold nbItemUnits; lia))
    as [Hi Hc].
  destruct (fillPrefix pattern nbItemUnits) as [pat1 i1]. simpl in Hi, Hc.
  pose proof (fillGap_spec pat1 i1 nbItemUnits p) as [Hi2 Ha2].
  destruct (fillGap pat1 i1 nbItemUnits p) as [pat2 i2]. simpl in Hi2, Ha2.
  pose proof (createSimilarRandomPattern_frame pat2 refPattern
                param_itemDistractorNoise i2 (i2 + Z.quot nbItemUnits 4) g) as Ha3.
  destruct (createSimilarRandomPattern pat2 refPattern param_itemDistractorNoise
              i2 (i2 + Z.quot nbItemUnits 4) g) as [pat3 g3]. simpl in Ha3.
  pose proof (shuffle_frame pat3 i1 nbItemUnits g3
                ltac:(unfold nbItemUnits; lia)) as Ha4.
  destruct (shuffle pat3 i1 nbItemUnits g3) as [pat4 g4]. simpl in Ha4.
  pose proof (tail_loop_frame pat4 (i2 + nbItemUnits + 1) nbItemUnits) as Ha5.
  simpl. unfold nbItemUnits in *.
  rewrite Ha5 by lia. rewrite Ha4 by lia. rewrite Ha3 by lia.
  rewrite Ha2 by lia. apply Hc. lia.
Qed.

(** C4 (what the code does).  On a pattern of [nbItemUnits] = 100 cells
    (valid indices 0..100) every call of [createOverlapingRandomPattern]
    addresses the cell of index 201: the shuffle starts at
    [firstUsedUnit + patternSize], and [firstUsedUnit] is 101 after the
    first loop. *)
Theorem createOverlapingRandomPattern_out_of_bounds :
  forall (pattern : parray) (refPattern : vec) (p : Q) (g : nat),
    In (2 * nbItemUnits + 1)
       (touched (fst (createOverlapingRandomPattern pattern refPattern
                        nbItemUnits p g)))
    /\ nbItemUnits < 2 * nbItemUnits + 1.
Proof.
  intros pattern refPattern p g. split; [|unfold nbItemUnits; lia].
  unfold createOverlapingRandomPattern.
  pose proof (fillPrefix_spec pattern nbItemUnits ltac:(unfold nbItemUnits; lia))
    as [Hi _].
  destruct (fillPrefix pattern nbItemUnits) as [pat1 i1]. simpl in Hi.
  destruct (fillGap pat1 i1 nbItemUnits p) as [pat2 i2].
  destruct (createSimilarRandomPattern pat2 refPattern param_itemDistractorNoise
              i2 (i2 + Z.quot nbItemUnits 4) g) as [pat3 g3].
  pose proof (shuffle_touches_top pat3 i1 nbItemUnits g3
                ltac:(unfold nbItemUnits; lia)) as Ht.
  destruct (shuffle pat3 i1 nbItemUnits g3) as [pat4 g4]. simpl in Ht.
  simpl. apply touched_tail_loop.
  subst i1. exact Ht.
Qed.

(** *** Retrieval *)

Lemma retrieve_eq (st : state) (pos status bestWMItem0 : Z) :
  retrieve st pos status bestWMItem0
  = let st1 := timedState st status in
    let b := bestActivation st1 pos bestWMItem0 in
    let st2 := set_seed st1 (snd b) in
    (mkRetrieval
       (if Qltb (fst (fst b)) param_theta then 0
        else snd (closestLTMItem st2 (row (itemVectorsInWM st2) (snd (fst b)))))
       (fst (fst b)) (var_tr st1) (snd (fst b)),
     st2).
Proof.
  unfold retrieve. cbv zeta.
  destruct (bestActivation (timedState st status) pos bestWMItem0)
    as [[aMax best] g].
  reflexivity.
Qed.

Lemma timedState_frame (st : state) (status : Z) :
  itemVectorsInWM (timedState st status) = itemVectorsInWM st
  /\ itemVectorsInLTM (timedState st status) = itemVectorsInLTM st
  /\ itemPositionMatrix (timedState st status) = itemPositionMatrix st
  /\ positionVectors (timedState st status) = positionVectors st
  /\ distractorNumber (timedState st status) = distractorNumber st.
Proof.
  unfold timedState. destruct (status =? 0); [|repeat split].
  destruct (drawRate param_R (seed st)) as [r g]. repeat split.
Qed.

(** [retrieve] writes [var_tr] and consumes random draws, nothing else. *)
Lemma retrieve_frame (st : state) (pos status bestWMItem0 : Z) :
  let st' := snd (retrieve st pos status bestWMItem0) in
  itemVectorsInWM st' = itemVectorsInWM st
  /\ itemVectorsInLTM st' = itemVectorsInLTM st
  /\ itemPositionMatrix st' = itemPositionMatrix st
  /\ positionVectors st' = positionVectors st
  /\ distractorNumber st' = distractorNumber st.
Proof.
  rewrite retrieve_eq. cbv zeta. cbn [snd].
  destruct (timedState_frame st status) as (H1 & H2 & H3 & H4 & H5).
  repeat split; assumption.
Qed.

Lemma closestLTMItem_eq (st st' : state) (wm : vec) :
  itemVectorsInLTM st' = itemVectorsInLTM st ->
  distractorNumber st' = distractorNumber st ->
  closestLTMItem st' wm = closestLTMItem st wm.
Proof. intros H1 H2. unfold closestLTMItem. rewrite H1, H2. reflexivity. Qed.

(** The search for the closest LTM item: the running minimum never exceeds
    a distance already seen, and the item kept is the first one that
    reaches it. *)
Lemma closestLTMItem_spec (st : state) (wm : vec) :
  let f := fun item => rmse wm (row (itemVectorsInLTM st) item) nbItemUnits in
  let n := maxMemoranda + distractorNumber st in
  let res := closestLTMItem st wm in
  (forall i, 1 <= i <= n -> (fst res <= f i)%Q)
  /\ ((res = (99999 # 1, indeterminate)
       /\ forall i, 1 <= i <= n -> (99999 # 1 <= f i)%Q)
      \/ (1 <= snd res <= n /\ fst res = f (snd res)
          /\ forall i, 1 <= i < snd res -> (f (snd res) < f i)%Q)).
Proof.
  intros f n res.
  destruct (Z_lt_le_dec n 1) as [Hn | Hn].
  { subst res. unfold closestLTMItem. fold n. rewrite for_up_empty by lia.
    split; [intros; lia|]. left. split; [reflexivity | intros; lia]. }
  set (P := fun (k : Z) (s : Q * Z) =>
              (forall i, 1 <= i < k -> (fst s <= f i)%Q)
              /\ ((s = (99999 # 1, indeterminate)
                   /\ forall i, 1 <= i < k -> (99999 # 1 <= f i)%Q)
                  \/ (1 <= snd s < k /\ fst s = f (snd s)
                      /\ forall i, 1 <= i < snd s -> (f (snd s) < f i)%Q))).
  assert (G : P (n + 1) res).
  { subst res. unfold closestLTMItem. fold n. apply for_up_ind.
    - lia.
    - split; [intros; lia|]. left. split; [reflexivity | intros; lia].
    - intros k [m r] Hk [Ha Hb]. fold (f k).
      destruct (Qltb (f k) m) eqn:E.
      + apply Qltb_true in E. split.
        * intros i Hi. cbn [fst]. destruct (Z.eq_dec i k) as [->|Hne].
          -- apply Qle_refl.
          -- apply Qlt_le_weak. eapply Qlt_le_trans; [exact E|].
             apply Ha. lia.
        * right. cbn [fst snd]. split; [lia|]. split; [reflexivity|].
          intros i Hi. eapply Qlt_le_trans; [exact E|]. apply Ha. lia.
      + apply Qltb_false in E. split.
        * intros i Hi. cbn [fst] in *. destruct (Z.eq_dec i k) as [->|Hne].
          -- exact E.
          -- apply Ha. lia.
        * destruct Hb as [[Hinit Hall] | (Hr & Hm & Hfirst)].
          -- left. split; [exact Hinit|]. intros i Hi.
             destruct (Z.eq_dec i k) as [->|Hne].
             ++ inversion Hinit; subst. exact E.
             ++ apply Hall. lia.
          -- right. cbn [fst snd] in *. split; [lia|]. split; assumption. }
  destruct G as [Ha Hb]. split.
  - intros i Hi. apply Ha. lia.
  - destruct Hb as [[Hinit Hall] | (Hr & Hm & Hfirst)].
    + left. split; [exact Hinit|]. intros i Hi. apply Hall. lia.
    + right. split; [lia|]. split; assumption.
Qed.

Lemma for_n_fold {S : Type} (body : Z -> S -> S) :
  forall (n : nat) (i : Z) (s : S),
    for_n n i body s
    = fold_left (fun acc k => body k acc)
        (map (fun k => i + Z.of_nat k) (seq 0 n)) s.
Proof.
  induction n as [|n IH]; intros i s; [reflexivity|].
  cbn [for_n seq map fold_left]. rewrite IH.
  replace (i + Z.of_nat 0) with i by lia.
  rewrite <- seq_shift, map_map. f_equal.
  apply map_ext. intro k. lia.
Qed.

Lemma rmse_unmasked (v1 v2 : vec) :
  rmse v1 v2 nbItemUnits
  = sqrtf (sumSquaredDiff v1 v2 / inject_Z nbItemUnits).
Proof.
  unfold rmse, sumSquaredDiff, for_up. rewrite for_n_fold. reflexivity.
Qed.

Lemma rmse_below_search_bound (v1 v2 : vec) :
  (forall x, (0 <= x)%Q -> (x <= 4)%Q -> (sqrtf x < 99999 # 1)%Q) ->
  (forall j, 1 <= j <= nbItemUnits ->
             (-1 <= v1 j)%Q /\ (v1 j <= 1)%Q /\ (-1 <= v2 j)%Q /\ (v2 j <= 1)%Q) ->
  (rmse v1 v2 nbItemUnits < 99999 # 1)%Q.
Proof.
  intros Hsqrt Hrange. unfold rmse.
  assert (G : (fun k (acc : Q) =>
                 (0 <= acc)%Q /\ (acc <= 4 * inject_Z (k - 1))%Q)
                (nbItemUnits + 1)
                (for_up 1 nbItemUnits
                   (fun i acc =>
                      let diff := (v1 i - v2 i)%Q in (acc + diff * diff)%Q)
                   0%Q)).
  { apply for_up_ind.
    - unfold nbItemUnits. lia.
    - split; [apply Qle_refl|]. change (inject_Z (1 - 1)) with 0%Q.
      rewrite Qmult_0_r. apply Qle_refl.
    - intros k acc Hk [H0 H1]. cbv zeta.
      destruct (Hrange k Hk) as (Ha & Hb & Hc & Hd).
      destruct (Qsquare_diff_bound (v1 k) (v2 k) Ha Hb Hc Hd) as [Hs0 Hs4].
      apply Qacc_step; assumption. }
  destruct G as [H0 H4].
  replace (nbItemUnits + 1 - 1) with nbItemUnits in H4 by lia.
  destruct (Qmean_bound _ nbItemUnits ltac:(unfold nbItemUnits; lia) H0 H4)
    as [Hm0 Hm4].
  apply Hsqrt; assumption.
Qed.

(** C6.  When [retrieve] does not fail (the maximal activation is not below
    [param_theta]) and some live item lies closer than the bound 99999 from
    which the search starts, the item returned is a live item whose LTM
    vector has minimal RMSE to the WM vector of the best WM item, and it is
    the first such item.  The RMSE is the square root of the mean over all
    100 dimensions of the squared differences: no dimension is masked, a
    sentinel counts as the number -1. *)
Theorem retrieve_returns_first_closest_LTM_item :
  forall (st : state) (pos status bestWMItem0 : Z),
    let r := fst (retrieve st pos status bestWMItem0) in
    let dist := fun item =>
      rmse (row (itemVectorsInWM st) (bestWMItem r))
           (row (itemVectorsInLTM st) item) nbItemUnits in
    let n := maxMemoranda + distractorNumber st in
    ~ (activationMax r < param_theta)%Q ->
    (exists i, 1 <= i <= n /\ (dist i < 99999 # 1)%Q) ->
    1 <= retrievedItem r <= n
    /\ (forall i, 1 <= i <= n -> (dist (retrievedItem r) <= dist i)%Q)
    /\ (forall i, 1 <= i < retrievedItem r -> (dist (retrievedItem r) < dist i)%Q)
    /\ (forall item,
          dist item
          = sqrtf (sumSquaredDiff (row (itemVectorsInWM st) (bestWMItem r))
                     (row (itemVectorsInLTM st) item) / inject_Z nbItemUnits)).
Proof.
  intros st pos status b0. rewrite retrieve_eq. cbv zeta.
  cbn [fst retrievedItem activationMax bestWMItem].
  destruct (timedState_frame st status) as (HW & HL & _ & _ & HD).
  set (st1 := timedState st status) in *.
  destruct (bestActivation st1 pos b0) as [[aMax best] g]. cbn [fst snd].
  intros Hok [i0 [Hi0 Hd0]].
  destruct (Qltb aMax param_theta) eqn:E.
  { apply Qltb_true in E. contradiction. }
  assert (HWM : itemVectorsInWM (set_seed st1 g) = itemVectorsInWM st)
    by exact HW.
  rewrite HWM.
  rewrite (closestLTMItem_eq st (set_seed st1 g)) by assumption.
  pose proof (closestLTMItem_spec st (row (itemVectorsInWM st) best)) as Hs.
  cbv zeta in Hs.
  destruct Hs as [Hmin [[Hinit Hall] | (Hr & Hm & Hfirst)]].
  - exfalso. apply (Qlt_not_le _ _ Hd0). apply Hall. exact Hi0.
  - split; [exact Hr|]. split; [|split; [exact Hfirst|]].
    + intros i Hi. rewrite <- Hm. apply Hmin. exact Hi.
    + intro item. apply rmse_unmasked.
Qed.

(** *** Recall *)

Lemma recallStep_eq (position : Z) (st : state) (recalled : Z -> Z) (bestWM : Z) :
  recallStep position (st, recalled, bestWM)
  = let r := fst (retrieve st position 0 bestWM) in
    let st1 := snd (retrieve st position 0 bestWM) in
    let duration :=
      if Qgtb (retrievalDuration r) 5 then 5%Q else retrievalDuration r in
    let st2 :=
      set_ipm st1
        (decay (itemPositionMatrix st1) (expf (- param_D * duration)) (-1)) in
    let hit := Qgtb (activationMax r) param_theta in
    let codeItem :=
      if hit then recallSymbol (retrievedItem r) else char_code "." in
    let st3 :=
      if hit then
        set_ipm st2
          (suppress (itemVectorsInWM st2) (itemPositionMatrix st2)
             (retrievedItem r) (param_L * activationMax r))
      else st2 in
    (set_globalTime st3 (globalTime st3 + duration)%Q,
     fun k => if k =? position - 1 then codeItem else recalled k,
     bestWMItem r).
Proof.
  unfold recallStep. destruct (retrieve st position 0 bestWM) as [r st1].
  cbv zeta. cbn [fst snd].
  destruct (Qgtb (activationMax r) param_theta); reflexivity.
Qed.

(** What the suppression loop leaves in the matrix. *)
Lemma suppress_spec (wm : vec) (ipm : mat Q) (item : Z) (amount : Q) :
  forall i j,
    suppress wm ipm item amount i j
    = if (i =? item) && ((1 <=? j) && (j <=? nbPositionUnits))
         && Qneqb (row wm item j) 0
      then (ipm i j - amount)%Q else ipm i j.
Proof.
  assert (G : (fun k (m : mat Q) =>
                 forall i j,
                   m i j = if (i =? item) && ((1 <=? j) && (j <? k))
                              && Qneqb (row wm item j) 0
                           then (ipm i j - amount)%Q else ipm i j)
                (nbPositionUnits + 1) (suppress wm ipm item amount)).
  { unfold suppress. apply for_up_ind.
    - unfold nbPositionUnits, nbUnitBlocks, sizeOfPositionBlocks. lia.
    - intros i j. destruct (i =? item); [|reflexivity].
      destruct (1 <=? j) eqn:E1; [|reflexivity].
      destruct (j <? 1) eqn:E2; [|reflexivity]. lia.
    - intros k m Hk Hm i j.
      destruct (Qneqb (row wm item k) 0) eqn:Emask.
      + unfold mset. destruct ((i =? item) && (j =? k)) eqn:Eij.
        * apply andb_true_iff in Eij. destruct Eij as [Ei Ej].
          apply Z.eqb_eq in Ej. subst j. rewrite Ei, Emask.
          replace (1 <=? k) with true by lia.
          replace (k <? k + 1) with true by lia.
          cbn [andb]. rewrite Hm. apply Z.eqb_eq in Ei. subst i.
          rewrite Z.eqb_refl. replace (k <? k) with false by lia.
          rewrite andb_false_r. reflexivity.
        * rewrite Hm. apply andb_false_iff in Eij.
          destruct (i =? item) eqn:Ei; [|reflexivity].
          destruct Eij as [Eij|Eij]; [discriminate|].
          apply Z.eqb_neq in Eij.
          replace (j <? k + 1) with (j <? k) by lia. reflexivity.
      + rewrite Hm. destruct (i =? item) eqn:Ei; [|reflexivity].
        destruct (Z.eq_dec j k) as [->|Hne].
        * rewrite Emask, !andb_false_r. reflexivity.
        * replace (j <? k + 1) with (j <? k) by lia. reflexivity. }
  intros i j. rewrite G. replace (j <? nbPositionUnits + 1)
    with (j <=? nbPositionUnits) by lia.
  reflexivity.
Qed.

(** The symbol of a position is the one its own pass of the loop writes. *)
Lemma recall_buffer (st : state) (recalled : Z -> Z) (lastPosition k : Z) :
  1 <= k <= lastPosition ->
  snd (recall st lastPosition recalled) (k - 1)
  = snd (fst (recallStep k (recallBefore st recalled k))) (k - 1).
Proof.
  intro Hk. unfold recall, recallBefore.
  rewrite (for_up_split recallStep 1 lastPosition k) by lia.
  set (s := recallStep k (for_up 1 (k - 1) recallStep (st, recalled, indeterminate))).
  assert (G : snd (fst (for_up (k + 1) lastPosition recallStep s)) (k - 1)
              = snd (fst s) (k - 1)).
  { apply (for_up_ind
             (fun c (x : state * (Z -> Z) * Z) =>
                snd (fst x) (k - 1) = snd (fst s) (k - 1))).
    - lia.
    - reflexivity.
    - intros c [[stc rc] bc] Hc Hx. rewrite recallStep_eq. cbv zeta.
      cbn [fst snd] in *. replace (k - 1 =? c - 1) with false by lia.
      exact Hx. }
  destruct (for_up (k + 1) lastPosition recallStep s) as [[st' rec'] b'].
  cbn [fst snd] in *. replace (k - 1 =? lastPosition) with false by lia.
  exact G.
Qed.

(** C5.  Whatever the position and the mode, [retrieve] returns 0 when the
    maximal activation is strictly below [param_theta]; it has no other way
    out.  In [recall], the pass of a position at which this happens writes
    the character [.] for that position, and the buffer keeps it. *)
Theorem retrieval_below_threshold_is_no_item :
  (forall (st : state) (pos status bestWMItem0 : Z),
      let r := fst (retrieve st pos status bestWMItem0) in
      (activationMax r < param_theta)%Q -> retrievedItem r = 0)
  /\ (forall (st : state) (recalled : Z -> Z) (lastPosition position : Z),
        1 <= position <= lastPosition ->
        let '(stp, _, bestWM) := recallBefore st recalled position in
        let r := fst (retrieve stp position 0 bestWM) in
        (activationMax r < param_theta)%Q ->
        retrievedItem r = 0
        /\ snd (recall st lastPosition recalled) (position - 1) = char_code ".").
Proof.
  assert (A : forall (st : state) (pos status bestWMItem0 : Z),
             let r := fst (retrieve st pos status bestWMItem0) in
             (activationMax r < param_theta)%Q -> retrievedItem r = 0).
  { intros st pos status b0. rewrite retrieve_eq. cbv zeta.
    cbn [fst retrievedItem activationMax]. intro H.
    apply Qltb_true in H. rewrite H. reflexivity. }
  split; [exact A|].
  intros st recalled lastPosition position Hp.
  pose proof (recall_buffer st recalled lastPosition position Hp) as Hb.
  destruct (recallBefore st recalled position) as [[stp recp] bestWM].
  cbv zeta. intro Hlow. split; [apply A; exact Hlow|].
  rewrite Hb, recallStep_eq. cbv zeta. cbn [fst snd].
  rewrite Z.eqb_refl.
  replace (Qgtb (activationMax (fst (retrieve stp position 0 bestWM))) param_theta)
    with false; [reflexivity|].
  symmetry. apply Qgtb_false. apply Qlt_le_weak. exact Hlow.
Qed.

(** C2 (as amended).  In the pass of [recall] for a position, when the
    maximal activation exceeds [param_theta], [param_L * activationMax] is
    subtracted from the associations of the item [retrieve] returns (the
    closest LTM item) with the position units 1..nbPositionUnits at which
    the WM vector of that same item is not zero; every other association
    is left as the decay of the pass leaves it. *)
Theorem recall_suppresses_retrieved_item :
  forall (st : state) (recalled : Z -> Z) (bestWM position : Z),
    let r := fst (retrieve st position 0 bestWM) in
    let duration :=
      if Qgtb (retrievalDuration r) 5 then 5%Q else retrievalDuration r in
    let decayed :=
      decay (itemPositionMatrix st) (expf (- param_D * duration)) (-1) in
    let st' := fst (fst (recallStep position (st, recalled, bestWM))) in
    (param_theta < activationMax r)%Q ->
    forall i j,
      itemPositionMatrix st' i j
      = if (i =? retrievedItem r)
           && ((1 <=? j) && (j <=? nbPositionUnits))
           && Qneqb (row (itemVectorsInWM st) (retrievedItem r) j) 0
        then (decayed i j - param_L * activationMax r)%Q
        else decayed i j.
Proof.
  intros st recalled bestWM position. rewrite recallStep_eq. cbv zeta.
  cbn [fst]. intros Hhit i j.
  destruct (retrieve_frame st position 0 bestWM) as (HW & _ & HI & _ & _).
  apply Qgtb_true in Hhit. rewrite Hhit.
  cbn [itemPositionMatrix set_globalTime set_ipm itemVectorsInWM].
  rewrite suppress_spec, HW, HI. reflexivity.
Qed.

(** *** Position vectors *)









(** *** Item vectors *)

Lemma uniform01_range (g : nat) : (0 <= uniform01 g)%Q /\ (uniform01 g < 1)%Q.
Proof.
  pose proof (rand_range g) as Hr. unfold uniform01.
  assert (Hpos : (0 < inject_Z (RAND_MAX + 1))%Q).
  { change 0%Q with (inject_Z 0). rewrite <- Zlt_Qlt. lia. }
  split.
  - apply Qle_shift_div_l; [exact Hpos|].
    rewrite Qmult_0_l. change 0%Q with (inject_Z 0). rewrite <- Zle_Qle. lia.
  - apply Qlt_shift_div_r; [exact Hpos|].
    rewrite Qmult_1_l. rewrite <- Zlt_Qlt. lia.
Qed.

Lemma clearItem_spec (iv : vec) (i : Z) :
  forall a,
    clearItem iv i a
    = if (i * rowStride + 1 <=? a) && (a <=? i * rowStride + nbItemUnits)
      then sentinel else iv a.
Proof.
  assert (G : (fun k (v : vec) =>
                 forall a, v a = if (i * rowStride + 1 <=? a)
                                    && (a <? i * rowStride + k)
                                 then sentinel else iv a)
                (nbItemUnits + 1) (clearItem iv i)).
  { unfold clearItem. apply for_up_ind.
    - unfold nbItemUnits. lia.
    - intro a. destruct (i * rowStride + 1 <=? a) eqn:E1; [|reflexivity].
      destruct (a <? i * rowStride + 1) eqn:E2; [lia | reflexivity].
    - intros k v Hk Hv a. unfold vset.
      destruct (a =? i * rowStride + k) eqn:E.
      + replace (i * rowStride + 1 <=? a) with true by lia.
        replace (a <? i * rowStride + (k + 1)) with true by lia. reflexivity.
      + rewrite Hv.
        replace (a <? i * rowStride + (k + 1)) with (a <? i * rowStride + k)
          by lia.
        reflexivity. }
  intro a. rewrite G.
  replace (a <? i * rowStride + (nbItemUnits + 1))
    with (a <=? i * rowStride + nbItemUnits) by lia.
  reflexivity.
Qed.

Lemma createRandomPattern_spec (pattern : parray) (lo hi : Z) (g : nat) :
  lo <= hi + 1 ->
  snd (createRandomPattern pattern lo hi g) = (g + Z.to_nat (hi + 1 - lo))%nat
  /\ forall j,
       cells (fst (createRandomPattern pattern lo hi g)) j
       = if (lo <=? j) && (j <=? hi)
         then uniform01 (g + Z.to_nat (j - lo)) else cells pattern j.
Proof.
  intro Hle.
  assert (G : (fun k (s : parray * nat) =>
                 snd s = (g + Z.to_nat (k - lo))%nat
                 /\ forall j,
                      cells (fst s) j
                      = if (lo <=? j) && (j <? k)
                        then uniform01 (g + Z.to_nat (j - lo))
                        else cells pattern j)
                (hi + 1) (createRandomPattern pattern lo hi g)).
  { unfold createRandomPattern. apply for_up_ind.
    - exact Hle.
    - cbn [fst snd]. split; [lia|]. intro j.
      destruct (lo <=? j) eqn:E1; [|reflexivity].
      destruct (j <? lo) eqn:E2; [lia | reflexivity].
    - intros k [pat g'] Hk [Hg Hc]. cbn [fst snd] in *. split; [lia|].
      intro j. unfold pwrite. cbn [cells]. unfold vset.
      destruct (j =? k) eqn:E.
      + apply Z.eqb_eq in E. subst j.
        replace (lo <=? k) with true by lia.
        replace (k <? k + 1) with true by lia. rewrite Hg. reflexivity.
      + rewrite Hc. replace (j <? k + 1) with (j <? k) by lia. reflexivity. }
  destruct G as [Hg Hc]. split; [exact Hg|]. intro j. rewrite Hc.
  replace (j <? hi + 1) with (j <=? hi) by lia. reflexivity.
Qed.

Lemma copyTable_spec (embeddingsList : mat Q) (iv : vec) (i : Z) :
  forall a,
    for_up 1 nbItemUnits
      (fun jj iv => vset iv (i * rowStride + jj) (embeddingsList (i - 1) (jj - 1)))
      iv a
    = if (i * rowStride + 1 <=? a) && (a <=? i * rowStride + nbItemUnits)
      then embeddingsList (i - 1) (a - i * rowStride - 1) else iv a.
Proof.
  assert (G : (fun k (v : vec) =>
                 forall a, v a = if (i * rowStride + 1 <=? a)
                                    && (a <? i * rowStride + k)
                                 then embeddingsList (i - 1) (a - i * rowStride - 1)
                                 else iv a)
                (nbItemUnits + 1)
                (for_up 1 nbItemUnits
                   (fun jj iv =>
                      vset iv (i * rowStride + jj) (embeddingsList (i - 1) (jj - 1)))
                   iv)).
  { apply for_up_ind.
    - unfold nbItemUnits. lia.
    - intro a. destruct (i * rowStride + 1 <=? a) eqn:E1; [|reflexivity].
      destruct (a <? i * rowStride + 1) eqn:E2; [lia | reflexivity].
    - intros k v Hk Hv a. unfold vset.
      destruct (a =? i * rowStride + k) eqn:E.
      + apply Z.eqb_eq in E. subst a.
        replace (i * rowStride + 1 <=? i * rowStride + k) with true by lia.
        replace (i * rowStride + k <? i * rowStride + (k + 1)) with true by lia.
        cbn [andb]. f_equal. lia.
      + rewrite Hv.
        replace (a <? i * rowStride + (k + 1)) with (a <? i * rowStride + k)
          by lia.
        reflexivity. }
  intro a. rewrite G.
  replace (a <? i * rowStride + (nbItemUnits + 1))
    with (a <=? i * rowStride + nbItemUnits) by lia.
  reflexivity.
Qed.

(** The loop over the distractor slots leaves the memoranda alone. *)
Lemma clearDistractors_frame (iv : vec) :
  forall a, a <= maxMemoranda * rowStride + nbItemUnits ->
    for_up (maxMemoranda + 1) maxItem (fun i iv => clearItem iv i) iv a = iv a.
Proof.
  intros a Ha.
  apply (for_up_inv (fun v : vec => v a = iv a)); [reflexivity|].
  intros k v Hk Hv. rewrite clearItem_spec.
  replace (k * rowStride + 1 <=? a) with false
    by (unfold maxMemoranda, rowStride, nbItemUnits in *; lia).
  exact Hv.
Qed.

(** With [PRESET] at 0 every dimension of every memorandum is one draw. *)
Lemma generateItemRepresentations_random (embeddingsList : mat Q) (iv : vec)
    (g : nat) :
  PRESET = 0 ->
  forall i j, 1 <= i <= maxMemoranda -> 1 <= j <= nbItemUnits ->
    row (fst (generateItemRepresentations embeddingsList iv g)) i j
    = uniform01 (g + Z.to_nat ((i - 1) * nbItemUnits + (j - 1))).
Proof.
  intros HP i j Hi Hj. unfold generateItemRepresentations.
  rewrite HP. cbn [Z.eqb].
  set (loop := for_up 1 maxMemoranda _ (iv, g)).
  assert (G : (fun k (s : vec * nat) =>
                 snd s = (g + Z.to_nat ((k - 1) * nbItemUnits))%nat
                 /\ forall i j, 1 <= i < k -> 1 <= j <= nbItemUnits ->
                      fst s (i * rowStride + j)
                      = uniform01 (g + Z.to_nat ((i - 1) * nbItemUnits + (j - 1))))
                (maxMemoranda + 1) loop).
  { subst loop. apply for_up_ind.
    - unfold maxMemoranda. lia.
    - cbn [fst snd]. split; [unfold nbItemUnits; lia | intros; lia].
    - intros k [v g'] Hk [Hg Hv]. cbn [fst snd] in Hg, Hv. cbv beta iota zeta.
      destruct (createRandomPattern_spec (pfresh (row (clearItem v k) k)) 1
                  nbItemUnits g' ltac:(unfold nbItemUnits; lia)) as [Hs Hc].
      destruct (createRandomPattern (pfresh (row (clearItem v k) k)) 1
                  nbItemUnits g') as [pat g''].
      cbn [fst snd] in *. split.
      + rewrite Hs, Hg. unfold nbItemUnits in *. lia.
      + intros i' j' Hi' Hj'. unfold store_row. rewrite Hc.
        destruct (Z.eq_dec i' k) as [->|Hne].
        * replace (k * rowStride + j' - k * rowStride) with j' by lia.
          replace (1 <=? j') with true by lia.
          replace (j' <=? nbItemUnits) with true by lia.
          cbn [andb]. rewrite Hg. f_equal. unfold nbItemUnits in *. lia.
        * replace ((1 <=? i' * rowStride + j' - k * rowStride)
                   && (i' * rowStride + j' - k * rowStride <=? nbItemUnits))
            with false
            by (unfold rowStride, nbItemUnits in *; lia).
          unfold pfresh. cbn [cells]. unfold row.
          replace (k * rowStride + (i' * rowStride + j' - k * rowStride))
            with (i' * rowStride + j') by lia.
          rewrite clearItem_spec.
          replace ((k * rowStride + 1 <=? i' * rowStride + j')
                   && (i' * rowStride + j' <=? k * rowStride + nbItemUnits))
            with false
            by (unfold rowStride, nbItemUnits in *; lia).
          apply Hv; [lia | exact Hj']. }
  destruct loop as [iv1 g1]. cbn [fst snd] in *. unfold row.
  rewrite clearDistractors_frame
    by (unfold maxMemoranda, rowStride, nbItemUnits in *; lia).
  apply G; [lia | exact Hj].
Qed.

(** With [PRESET] not at 0 every memorandum is its row of the table. *)
Lemma generateItemRepresentations_preset (embeddingsList : mat Q) (iv : vec)
    (g : nat) :
  PRESET <> 0 ->
  forall i j, 1 <= i <= maxMemoranda -> 1 <= j <= nbItemUnits ->
    row (fst (generateItemRepresentations embeddingsList iv g)) i j
    = embeddingsList (i - 1) (j - 1).
Proof.
  intros HP i j Hi Hj. unfold generateItemRepresentations.
  apply Z.eqb_neq in HP. rewrite HP.
  set (loop := for_up 1 maxMemoranda _ (iv, g)).
  assert (G : (fun k (s : vec * nat) =>
                 forall i j, 1 <= i < k -> 1 <= j <= nbItemUnits ->
                   fst s (i * rowStride + j) = embeddingsList (i - 1) (j - 1))
                (maxMemoranda + 1) loop).
  { subst loop. apply for_up_ind.
    - unfold maxMemoranda. lia.
    - intros; lia.
    - intros k [v g'] Hk Hv. cbn [fst snd] in Hv. cbv beta iota zeta.
      cbn [fst]. intros i' j' Hi' Hj'. rewrite copyTable_spec.
      destruct (Z.eq_dec i' k) as [->|Hne].
      + replace (k * rowStride + 1 <=? k * rowStride + j') with true by lia.
        replace (k * rowStride + j' <=? k * rowStride + nbItemUnits)
          with true by lia.
        cbn [andb]. f_equal. lia.
      + replace ((k * rowStride + 1 <=? i' * rowStride + j')
                 && (i' * rowStride + j' <=? k * rowStride + nbItemUnits))
          with false
          by (unfold rowStride, nbItemUnits in *; lia).
        rewrite clearItem_spec.
        replace ((k * rowStride + 1 <=? i' * rowStride + j')
                 && (i' * rowStride + j' <=? k * rowStride + nbItemUnits))
          with false
          by (unfold rowStride, nbItemUnits in *; lia).
        apply Hv; [lia | exact Hj']. }
  destruct loop as [iv1 g1]. cbn [fst snd] in *. unfold row.
  rewrite clearDistractors_frame
    by (unfold maxMemoranda, rowStride, nbItemUnits in *; lia).
  apply G; [lia | exact Hj].
Qed.

End Claims.

Section SetupFacts.
Context {libc : Libc}.

Lemma assignInt_PRESET (f : intGlobal) (x : Z) (c : params) :
  @PRESET (assignInt f x c) = @PRESET c.
Proof. reflexivity. Qed.

Lemma assignFloat_PRESET (f : floatGlobal) (x : Q) (c : params) :
  @PRESET (assignFloat f x c) = @PRESET c.
Proof. reflexivity. Qed.

(** No option of the command line writes [PRESET]. *)
Lemma parse_args_PRESET :
  forall (n : nat) (argv : list string) (c c' : params),
    (List.length argv <= n)%nat ->
    parse_args argv c = Done c' -> @PRESET c' = @PRESET c.
Proof.
  induction n as [|n IH]; intros argv c c' Hlen H.
  - destruct argv; [|simpl in Hlen; lia]. simpl in H. congruence.
  - destruct argv as [|a rest]; [simpl in H; congruence|].
    simpl in Hlen. cbn [parse_args] in H.
    destruct (String.eqb a "?"); [discriminate|].
    destruct (String.eqb a "-v").
    { rewrite (IH rest (assignInt G_VERBOSE 1 c) c' ltac:(lia) H).
      apply assignInt_PRESET. }
    destruct (String.eqb a "-q").
    { rewrite (IH rest (assignInt G_QUIET 1 c) c' ltac:(lia) H).
      apply assignInt_PRESET. }
    destruct (valuedOption a) as [target|]; [|discriminate].
    destruct rest as [|v rest']; [discriminate|]. simpl in Hlen.
    destruct target as [f|f].
    + rewrite (IH rest' (assignInt f (atoi v) c) c' ltac:(lia) H).
      apply assignInt_PRESET.
    + rewrite (IH rest' (assignFloat f (atof v) c) c' ltac:(lia) H).
      apply assignFloat_PRESET.
Qed.

(** C8 (as amended).  [generateItemRepresentations] has both branches: with
    the flag [PRESET] at 0 every dimension of every memorandum is one uniform
    draw in [0,1) and the table is not consulted; with [PRESET] not at 0 the
    memorandum is copied from the table.  But [main] opens the embeddings
    file before anything else and stops when it cannot, and no option of the
    command line writes [PRESET], which starts at 1: in a run the table is
    required and is always the source of the memoranda. *)
Theorem embeddings_table_is_required :
  (forall (cfg : params) (embeddingsList : mat Q) (iv : vec) (g : nat) (i j : Z),
      @PRESET cfg = 0 -> 1 <= i <= maxMemoranda -> 1 <= j <= nbItemUnits ->
      let x := row (fst (generateItemRepresentations embeddingsList iv g)) i j in
      x = uniform01 (g + Z.to_nat ((i - 1) * nbItemUnits + (j - 1)))
      /\ (0 <= x)%Q /\ (x < 1)%Q)
  /\ (forall (cfg : params) (embeddingsList : mat Q) (iv : vec) (g : nat) (i j : Z),
        @PRESET cfg <> 0 -> 1 <= i <= maxMemoranda -> 1 <= j <= nbItemUnits ->
        row (fst (generateItemRepresentations embeddingsList iv g)) i j
        = embeddingsList (i - 1) (j - 1))
  /\ (forall (argv : list string) (c : params),
        setup None argv c = Exit "Error opening file")
  /\ (forall (embeddingsList table : mat Q) (argv : list string) (c c' : params),
        setup (Some embeddingsList) argv c = Done (table, c') ->
        table = embeddingsList /\ @PRESET c' = @PRESET c)
  /\ @PRESET default_params = 1.
Proof.
  split; [|split; [|split; [|split]]].
  - intros cfg tbl iv g i j HP Hi Hj x. subst x.
    rewrite (generateItemRepresentations_random tbl iv g HP i j Hi Hj).
    split; [reflexivity | apply uniform01_range].
  - intros cfg tbl iv g i j HP Hi Hj.
    apply generateItemRepresentations_preset; assumption.
  - reflexivity.
  - intros tbl table argv c c' H. unfold setup in H.
    destruct (parse_args argv c) as [c1| | |] eqn:E; try discriminate.
    destruct (@nbop c1 >? 16); [discriminate|].
    destruct (Qltb (@param_itemDistractorOverlap c1) 0
              || Qgtb (@param_itemDistractorOverlap c1) 1); [discriminate|].
    inversion H; subst. split; [reflexivity|].
    apply (parse_args_PRESET (List.length argv) argv c c' (le_n _) E).
  - reflexivity.
Qed.

End SetupFacts.

(** ** Rational arithmetic used for the refresh loop *)

Lemma Qdiv_le_antitone (c r rmax : Q) :
  (0 < c)%Q -> (0 < r)%Q -> (r <= rmax)%Q -> (c / rmax <= c / r)%Q.
Proof.
  intros Hc Hr Hle.
  assert (Hmax : (0 < rmax)%Q) by (eapply Qlt_le_trans; eassumption).
  apply Qle_shift_div_l; [exact Hr|].
  apply Qle_shift_div_r with (b := rmax) (a := (c * r)%Q) (c := c) in Hmax as H.
  - setoid_replace (c / rmax * r)%Q with (c * r / rmax)%Q by (field; lra).
    exact H.
  - apply Qmult_le_l; assumption.
Qed.

Lemma Qdiv_pos (c r : Q) : (0 < c)%Q -> (0 < r)%Q -> (0 < c / r)%Q.
Proof.
  intros Hc Hr. apply Qlt_shift_div_l; [exact Hr|]. rewrite Qmult_0_l. exact Hc.
Qed.

Lemma Qeq_bool_pos_marker (d : Q) : (0 <= d)%Q -> Qeq_bool d ((-1) # 1) = false.
Proof.
  intro H. destruct (Qeq_bool d (-1 # 1)) eqn:E; [|reflexivity].
  apply Qeq_bool_iff in E. rewrite E in H. exfalso. revert H.
  unfold Qle. simpl. lia.
Qed.

Lemma clamp_le (x bound : Q) :
  (x <= bound)%Q -> (0 <= bound)%Q -> ((if Qltb x 0 then 0 else x) <= bound)%Q.
Proof. intros Hx H0. destruct (Qltb x 0); assumption. Qed.

Lemma Qscale_le (u x y : Q) : (0 <= u)%Q -> (x <= y)%Q -> (u * x <= u * y)%Q.
Proof.
  intros Hu Hxy. rewrite (Qmult_comm u x), (Qmult_comm u y).
  apply Qmult_le_compat_r; assumption.
Qed.

Lemma Qzero_div (c r : Q) : (c == 0)%Q -> (c / r == 0)%Q.
Proof. intro H. rewrite H. unfold Qdiv. apply Qmult_0_l. Qed.

Lemma fuel_bound (t delta : Q) :
  (0 < delta)%Q ->
  (t <= inject_Z (Z.of_nat (Z.to_nat (Qceiling (t / delta)))) * delta)%Q.
Proof.
  intro Hd.
  destruct (Qlt_le_dec 0 t) as [Ht | Ht].
  - assert (H1 : (t / delta <= inject_Z (Qceiling (t / delta)))%Q)
      by apply Qle_ceiling.
    assert (H0 : (0 <= Qceiling (t / delta))%Z).
    { rewrite Zle_Qle. eapply Qle_trans; [|exact H1].
      apply Qlt_le_weak. apply Qdiv_pos; assumption. }
    rewrite Z2Nat.id by exact H0.
    apply Qmult_le_compat_r with (z := delta) in H1; [|lra].
    setoid_replace (t / delta * delta)%Q with t in H1 by (field; lra).
    exact H1.
  - eapply Qle_trans; [exact Ht|].
    apply Qmult_le_0_compat; [|lra].
    change 0%Q with (inject_Z 0). rewrite <- Zle_Qle. lia.
Qed.

Section RefreshFacts.
Context {libc : Libc} {cfg : params}.

Lemma drawRate_floor (mean : Q) (g : nat) : (1 # 10 <= fst (drawRate mean g))%Q.
Proof.
  unfold drawRate. destruct (randomNormal mean param_s g) as [r g'].
  cbn [fst]. destruct (Qltb r (1 # 10)) eqn:E.
  - apply Qle_refl.
  - apply Qltb_false in E. exact E.
Qed.

(** What a reencoding returns: the duration it is given, unless that is the
    marker -1. *)
Lemma encode_refresh_duration (st : state) (item best pos : Z) (timeLeft : Q)
    (divisor : Z) (duration : Q) :
  fst (encode st 0 item best pos timeLeft divisor duration 0)
  = if Qeq_bool duration ((-1) # 1)
    then computedDuration (seed st) timeLeft
    else duration.
Proof.
  unfold encode, computedDuration.
  destruct (drawRate param_R (seed st)) as [r g].
  cbn [Z.eqb negb andb fst snd].
  destruct (Qeq_bool duration (-1 # 1)); reflexivity.
Qed.

Lemma refreshWindow_eq (st : state) (timeAvailable : Q)
    (lastPosition currentPosition bestWMItem0 : Z) :
  refreshWindow st timeAvailable lastPosition currentPosition bestWMItem0
  = for_n (Z.to_nat (min param_attentionalFocusSize lastPosition)) 0
      (fun _ => windowStep timeAvailable lastPosition)
      (st, currentPosition, (-1) # 1, bestWMItem0).
Proof. reflexivity. Qed.

Lemma windowStep_duration (timeAvailable : Q) (lastPosition : Z)
    (st : state) (cpi : Z) (d : Q) (bestWM : Z) :
  snd (fst (windowStep timeAvailable lastPosition (st, cpi, d, bestWM)))
  = if Qeq_bool d ((-1) # 1)
    then windowDuration st timeAvailable cpi bestWM
    else d.
Proof.
  unfold windowStep, windowDuration.
  destruct (retrieve st cpi 1 bestWM) as [r st1]. cbn [snd].
  pose proof (encode_refresh_duration st1 (retrievedItem r) (bestWMItem r) cpi
                timeAvailable (min param_attentionalFocusSize lastPosition) d)
    as He.
  destruct (encode st1 0 (retrievedItem r) (bestWMItem r) cpi timeAvailable
              (min param_attentionalFocusSize lastPosition) d 0) as [d' st2].
  cbn [fst snd] in *. exact He.
Qed.

(** The duration computed for the first item of a window is the one every
    other item of the window is reencoded with: after each item the variable
    [reencodingDuration] holds it. *)
Lemma window_prefix_duration (st : state) (timeAvailable : Q)
    (lastPosition currentPosition bestWMItem0 : Z) :
  Qeq_bool (windowDuration st timeAvailable currentPosition bestWMItem0)
    ((-1) # 1) = false ->
  forall items : nat,
    (1 <= items)%nat ->
    snd (fst (for_n items 0 (fun _ => windowStep timeAvailable lastPosition)
                (st, currentPosition, (-1) # 1, bestWMItem0)))
    = windowDuration st timeAvailable currentPosition bestWMItem0.
Proof.
  intros Hd items Hn.
  replace items with (S (items - 1)) by lia.
  cbn [for_n].
  pose proof (windowStep_duration timeAvailable lastPosition st
                currentPosition ((-1) # 1) bestWMItem0) as H1.
  change (Qeq_bool (-1 # 1) (-1 # 1)) with true in H1. cbv iota in H1.
  set (s1 := windowStep timeAvailable lastPosition
               (st, currentPosition, -1 # 1, bestWMItem0)) in *.
  set (d1 := windowDuration st timeAvailable currentPosition bestWMItem0) in *.
  apply (for_n_ind (fun _ (s : state * Z * Q * Z) => snd (fst s) = d1)).
  - exact H1.
  - intros k [[[stk cpik] dk] bk] _ Hk. cbn [fst snd] in Hk. subst dk.
    rewrite windowStep_duration, Hd. reflexivity.
Qed.

Lemma refreshWindow_duration (st : state) (timeAvailable : Q)
    (lastPosition currentPosition bestWMItem0 : Z) :
  1 <= min param_attentionalFocusSize lastPosition ->
  Qeq_bool (windowDuration st timeAvailable currentPosition bestWMItem0)
    ((-1) # 1) = false ->
  snd (fst (refreshWindow st timeAvailable lastPosition currentPosition
              bestWMItem0))
  = windowDuration st timeAvailable currentPosition bestWMItem0.
Proof.
  intros Hn Hd. rewrite refreshWindow_eq.
  apply window_prefix_duration; [exact Hd | lia].
Qed.

(** The time that is left after a pass. *)
Lemma refreshPass_time (st : state) (timeAvailable : Q)
    (lastPosition currentPosition bestWMItem0 : Z) :
  snd (fst (fst (refreshPass st timeAvailable lastPosition currentPosition
                   bestWMItem0)))
  = let d := snd (fst (refreshWindow st timeAvailable lastPosition
                         currentPosition bestWMItem0)) in
    let left := to_float (timeAvailable - d) in
    if Qltb left 0 then 0%Q else left.
Proof.
  unfold refreshPass.
  destruct (refreshWindow st timeAvailable lastPosition currentPosition
              bestWMItem0) as [[[st' cpi] d] b].
  reflexivity.
Qed.

Lemma refreshLoop_done (fuel : nat) (st : state) (timeAvailable : Q)
    (lastPosition currentPosition bestWMItem0 : Z) :
  ~ (0 < timeAvailable)%Q ->
  refreshLoop fuel st timeAvailable lastPosition currentPosition bestWMItem0
  = Some st.
Proof.
  intro H. assert (E : Qgtb timeAvailable 0 = false).
  { apply Qgtb_false. apply Qnot_lt_le. exact H. }
  destruct fuel; cbn [refreshLoop]; rewrite E; reflexivity.
Qed.

Lemma refreshLoop_pass (fuel : nat) (st : state) (timeAvailable : Q)
    (lastPosition currentPosition bestWMItem0 : Z) :
  (0 < timeAvailable)%Q ->
  refreshLoop (S fuel) st timeAvailable lastPosition currentPosition bestWMItem0
  = let p := refreshPass st timeAvailable lastPosition currentPosition
               bestWMItem0 in
    refreshLoop fuel (fst (fst (fst p))) (snd (fst (fst p))) lastPosition
      (snd (fst p)) (snd p).
Proof.
  intro H. apply Qgtb_true in H. cbn [refreshLoop]. rewrite H.
  destruct (refreshPass st timeAvailable lastPosition currentPosition
              bestWMItem0) as [[[st' t'] cpi] b].
  reflexivity.
Qed.

(** A pass that hands back the time it was given: the loop never ends. *)
Lemma refreshLoop_no_progress (lastPosition : Z) (t : Q) :
  (0 < t)%Q ->
  (forall st cur b0,
      snd (fst (fst (refreshPass st t lastPosition cur b0))) = t) ->
  forall (fuel : nat) (st : state) (cur b0 : Z),
    refreshLoop fuel st t lastPosition cur b0 = None.
Proof.
  intros Ht Hsame. induction fuel as [|fuel IH]; intros st cur b0.
  - cbn [refreshLoop]. apply Qgtb_true in Ht. rewrite Ht. reflexivity.
  - rewrite refreshLoop_pass by exact Ht. cbv zeta. rewrite Hsame. apply IH.
Qed.

Section Bounded.
Variables rmax u eta budget : Q.
Hypothesis focus : 1 <= param_attentionalFocusSize.
Hypothesis criterion : (0 < reencodingCriterion)%Q.
Hypothesis rates : forall g, (fst (drawRate param_R g) <= rmax)%Q.
Hypothesis relative : (0 <= u <= 1)%Q.
Hypothesis absolute : (0 <= eta)%Q.
Hypothesis stored_below :
  forall x, (0 <= x -> x - (u * x + eta) <= to_float x)%Q.
Hypothesis stored_sign : forall x, (x <= 0 -> to_float x <= 0)%Q.
Hypothesis stored_above :
  forall x, (0 <= x <= budget -> to_float x <= x + (u * x + eta))%Q.
Hypothesis resolved : (0 < progress rmax u eta budget)%Q.

Lemma rmax_pos : (0 < rmax)%Q.
Proof.
  eapply Qlt_le_trans; [|apply (rates O)].
  eapply Qlt_le_trans; [|apply drawRate_floor]. reflexivity.
Qed.

Lemma quantum_pos : (0 < quantum rmax)%Q.
Proof. apply Qdiv_pos; [exact criterion | exact rmax_pos]. Qed.

(** The duration as [var_tr] holds it is not below the least duration less
    the error of the store. *)
Lemma stored_duration_floor (g : nat) :
  (quantum rmax - (u * quantum rmax + eta)
   <= to_float (reencodingCriterion / fst (drawRate param_R g)))%Q.
Proof.
  set (x := (reencodingCriterion / fst (drawRate param_R g))%Q).
  assert (Hr : (0 < fst (drawRate param_R g))%Q).
  { eapply Qlt_le_trans; [|apply drawRate_floor]. reflexivity. }
  assert (Hq : (quantum rmax <= x)%Q).
  { apply Qdiv_le_antitone; [exact criterion | exact Hr | apply rates]. }
  assert (Hx : (0 <= x)%Q).
  { apply Qlt_le_weak. apply Qdiv_pos; [exact criterion | exact Hr]. }
  pose proof (stored_below x Hx) as Hlo.
  assert (Hs : (u * quantum rmax <= u * x)%Q).
  { apply Qscale_le; [apply relative | exact Hq]. }
  assert (Hd : (0 <= (1 - u) * (x - quantum rmax))%Q).
  { apply Qmult_le_0_compat; destruct relative; lra. }
  lra.
Qed.

Lemma computedDuration_bounds (g : nat) (t : Q) :
  (0 < t)%Q -> (t <= budget)%Q ->
  (0 < computedDuration g t)%Q
  /\ (computedDuration g t = t
      \/ (quantum rmax - (u * quantum rmax + eta) <= computedDuration g t
          /\ computedDuration g t <= t))%Q.
Proof.
  intros Ht Hb. unfold computedDuration. cbv zeta.
  pose proof (stored_duration_floor g) as Hlo.
  set (tr := to_float (reencodingCriterion / fst (drawRate param_R g))) in *.
  assert (Hub : (0 <= u * budget)%Q).
  { apply Qmult_le_0_compat; [apply relative | lra]. }
  assert (Hpos : (0 < tr)%Q).
  { unfold progress in resolved. lra. }
  destruct (Qgtb tr t) eqn:E.
  - split; [exact Ht | left; reflexivity].
  - apply Qgtb_false in E.
    split; [exact Hpos | right; split; [exact Hlo | exact E]].
Qed.

(** A pass entered with time left, at most [budget], takes [progress] off
    it, or all of it. *)
Lemma refreshPass_progress (lastPosition : Z) (st : state) (t : Q)
    (cur b0 : Z) (bound : Q) :
  1 <= lastPosition ->
  (0 < t)%Q -> (t <= budget)%Q ->
  (t <= bound + progress rmax u eta budget)%Q -> (0 <= bound)%Q ->
  (snd (fst (fst (refreshPass st t lastPosition cur b0))) <= bound)%Q.
Proof.
  intros Hlp Ht Hb Hbound H0.
  rewrite refreshPass_time. cbv zeta.
  destruct (computedDuration_bounds (seed (snd (retrieve st cur 1 b0))) t
              Ht Hb) as [Hd0 Hd].
  fold (windowDuration st t cur b0) in Hd0, Hd.
  rewrite refreshWindow_duration.
  - set (d := windowDuration st t cur b0) in *.
    apply clamp_le; [|exact H0].
    destruct Hd as [Hd | [Hlo Hhi]].
    + eapply Qle_trans; [|exact H0]. apply stored_sign. rewrite Hd. lra.
    + assert (Hx : (0 <= t - d <= budget)%Q) by (split; lra).
      pose proof (stored_above _ Hx) as Hup.
      assert (Hs : (u * (t - d) <= u * budget)%Q).
      { apply Qscale_le; [apply relative | apply Hx]. }
      unfold progress in Hbound. lra.
  - unfold min. destruct (param_attentionalFocusSize <? lastPosition); lia.
  - apply Qeq_bool_pos_marker. apply Qlt_le_weak. exact Hd0.
Qed.

Lemma refreshLoop_enough_fuel (lastPosition : Z) :
  1 <= lastPosition ->
  forall (n : nat) (st : state) (t : Q) (cur b0 : Z),
    (t <= budget)%Q ->
    (t <= inject_Z (Z.of_nat n) * progress rmax u eta budget)%Q ->
    exists st', refreshLoop n st t lastPosition cur b0 = Some st'.
Proof.
  intros Hlp. induction n as [|n IH]; intros st t cur b0 Hb Ht.
  - exists st. apply refreshLoop_done. intro H.
    apply (Qlt_not_le _ _ H). eapply Qle_trans; [exact Ht|].
    rewrite Qmult_0_l. apply Qle_refl.
  - destruct (Qlt_le_dec 0 t) as [Hpos | Hneg].
    + rewrite refreshLoop_pass by exact Hpos. cbv zeta.
      assert (Hn : (0 <= inject_Z (Z.of_nat n) * progress rmax u eta budget)%Q).
      { apply Qmult_le_0_compat.
        - change 0%Q with (inject_Z 0). rewrite <- Zle_Qle. lia.
        - apply Qlt_le_weak. exact resolved. }
      apply IH.
      * apply refreshPass_progress; [exact Hlp | exact Hpos | exact Hb | | lra].
        lra.
      * apply refreshPass_progress; [exact Hlp | exact Hpos | exact Hb | |
                                     exact Hn].
        eapply Qle_trans; [exact Ht|].
        rewrite Nat2Z.inj_succ. unfold Z.succ. rewrite inject_Z_plus.
        change (inject_Z 1) with 1%Q. lra.
    + exists st. apply refreshLoop_done. apply Qle_not_lt. exact Hneg.
Qed.

End Bounded.

(** C10 (as amended).  Let the attentional focus hold at least one item, let
    [-log(1 - tauR)], as the program computes it, be strictly positive and
    let the sampled rates be at most [rmax].  Let a store in a float keep the
    sign, and be off by at most [u] of the value plus [eta] (for binary32,
    [u] is [2^-24] and [eta] is [2^-150]): downward for every value, upward
    for the values up to the time budget.  Then for every state, every
    [lastPosition >= 1] and every time budget small enough for the float
    to register the least duration of a pass ([progress] is positive): in a
    pass entered with time left, the duration computed for the first item of
    the window is the one every item of the window is reencoded with and the
    one the window hands back, it is strictly positive, and the time left
    becomes the float that holds the difference, floored at 0; the loop
    stops as soon as the time left is not strictly positive; and [refresh]
    terminates. *)
Theorem refresh_terminates_when_the_budget_registers_the_duration :
  forall rmax u eta : Q,
    1 <= param_attentionalFocusSize ->
    (0 < reencodingCriterion)%Q ->
    (forall g, (fst (drawRate param_R g) <= rmax)%Q) ->
    (0 <= u <= 1)%Q ->
    (0 <= eta)%Q ->
    (forall x, (0 <= x -> x - (u * x + eta) <= to_float x)%Q) ->
    (forall x, (x <= 0 -> to_float x <= 0)%Q) ->
    forall (st : state) (timeAvailable : Q) (lastPosition : Z),
      1 <= lastPosition ->
      (forall x,
          (0 <= x <= timeAvailable -> to_float x <= x + (u * x + eta))%Q) ->
      (0 < progress rmax u eta timeAvailable)%Q ->
      (forall cur b0,
          (0 < timeAvailable)%Q ->
          let d := windowDuration st timeAvailable cur b0 in
          (forall items : nat,
              (1 <= items)%nat ->
              snd (fst (for_n items 0
                          (fun _ => windowStep timeAvailable lastPosition)
                          (st, cur, (-1) # 1, b0))) = d)
          /\ snd (fst (refreshWindow st timeAvailable lastPosition cur b0)) = d
          /\ (0 < d)%Q
          /\ snd (fst (fst (refreshPass st timeAvailable lastPosition cur b0)))
             = (let left := to_float (timeAvailable - d) in
                if Qltb left 0 then 0 else left)%Q)
      /\ (forall fuel cur b0,
             ~ (0 < timeAvailable)%Q ->
             refreshLoop fuel st timeAvailable lastPosition cur b0 = Some st)
      /\ exists fuel st', refresh fuel st timeAvailable lastPosition = Some st'.
Proof.
  intros rmax u eta Hfocus Hc Hrates Hu Heta Hbelow Hsign st t lastPosition
    Hlp Habove Hres.
  split; [|split].
  - intros cur b0 Ht d.
    destruct (computedDuration_bounds rmax u eta t Hc Hrates Hu Heta Hbelow
                Hres (seed (snd (retrieve st cur 1 b0))) t Ht (Qle_refl t))
      as [Hd0 _].
    fold (windowDuration st t cur b0) in Hd0. fold d in Hd0.
    assert (Hm : Qeq_bool d ((-1) # 1) = false).
    { apply Qeq_bool_pos_marker. apply Qlt_le_weak. exact Hd0. }
    assert (Hw : snd (fst (refreshWindow st t lastPosition cur b0)) = d).
    { apply refreshWindow_duration; [|exact Hm].
      unfold min. destruct (param_attentionalFocusSize <? lastPosition); lia. }
    split; [intros items Hi; apply window_prefix_duration; assumption|].
    split; [exact Hw|]. split; [exact Hd0|].
    rewrite refreshPass_time. cbv zeta. rewrite Hw. reflexivity.
  - intros fuel cur b0 Ht. apply refreshLoop_done. exact Ht.
  - exists (Z.to_nat (Qceiling (t / progress rmax u eta t))).
    apply (refreshLoop_enough_fuel rmax u eta t Hfocus Hc Hrates Hu Heta
             Hbelow Hsign Habove Hres lastPosition Hlp).
    + apply Qle_refl.
    + apply fuel_bound. exact Hres.
Qed.

End RefreshFacts.

(** ** The capacity check *)

Section CounterFacts.
Context {libc : Libc} {cfg : params}.

(** Only [main], and [encode] for the first of identical distractors, write
    [distractorNumber]. *)
Lemma encodeDistractor_distractorNumber (st : state) (position : Z) :
  param_sameDist = 0 ->
  distractorNumber (encodeDistractor st position) = distractorNumber st.
Proof.
  intro Hs. unfold encodeDistractor.
  destruct (retrieve_frame st position 1 indeterminate) as (_ & _ & _ & _ & Hd).
  destruct (retrieve st position 1 indeterminate) as [r st1]. cbn [snd] in Hd.
  rewrite Hs. cbn [Z.eqb].
  destruct (createOverlapingRandomPattern
              (pfresh (row (itemVectorsInLTM st1)
                         (maxMemoranda + distractorNumber st1)))
              (row (itemVectorsInWM st1) (retrievedItem r)) nbItemUnits
              param_itemDistractorOverlap (seed st1)) as [pat g].
  exact Hd.
Qed.

Lemma encode_distractorNumber (st : state) (initialEncoding currentItem
    bestWM position : Z) (timeLeft : Q) (strengthDivisor : Z) (duration : Q)
    (distractor : Z) :
  distractor = 0 \/ param_sameDist = 0 ->
  distractorNumber
    (snd (encode st initialEncoding currentItem bestWM position timeLeft
            strengthDivisor duration distractor))
  = distractorNumber st.
Proof.
  intro H. unfold encode.
  destruct (drawRate param_R (seed st)) as [r g].
  destruct (initialEncoding =? 0); destruct (distractor =? 0) eqn:Ed;
    destruct (Qeq_bool duration (-1 # 1)); cbn [negb andb fst snd];
    cbn [distractorNumber set_seed set_WM set_ipm set_var_te set_var_tr
           set_var_eta set_globalTime];
    try reflexivity;
    try (rewrite encodeDistractor_distractorNumber;
         [reflexivity | destruct H as [H|H]; [subst; discriminate | exact H]]).
Qed.

Lemma windowStep_distractorNumber (timeAvailable : Q) (lastPosition : Z)
    (s : state * Z * Q * Z) :
  distractorNumber (fst (fst (fst (windowStep timeAvailable lastPosition s))))
  = distractorNumber (fst (fst (fst s))).
Proof.
  destruct s as [[[st cpi] d] b]. unfold windowStep.
  destruct (retrieve_frame st cpi 1 b) as (_ & _ & _ & _ & Hd).
  destruct (retrieve st cpi 1 b) as [r st1]. cbn [snd] in Hd.
  pose proof (encode_distractorNumber st1 0 (retrievedItem r) (bestWMItem r) cpi
                timeAvailable (min param_attentionalFocusSize lastPosition) d 0
                (or_introl eq_refl)) as He.
  destruct (encode st1 0 (retrievedItem r) (bestWMItem r) cpi timeAvailable
              (min param_attentionalFocusSize lastPosition) d 0) as [d' st2].
  cbn [fst snd] in *. congruence.
Qed.

Lemma refreshPass_distractorNumber (st : state) (timeAvailable : Q)
    (lastPosition currentPosition bestWMItem0 : Z) :
  distractorNumber
    (fst (fst (fst (refreshPass st timeAvailable lastPosition currentPosition
                      bestWMItem0))))
  = distractorNumber st.
Proof.
  unfold refreshPass.
  assert (G : distractorNumber
                (fst (fst (fst (refreshWindow st timeAvailable lastPosition
                                  currentPosition bestWMItem0))))
              = distractorNumber st).
  { unfold refreshWindow.
    apply (for_n_ind
             (fun _ (s : state * Z * Q * Z) =>
                distractorNumber (fst (fst (fst s))) = distractorNumber st)).
    - reflexivity.
    - intros k s _ Hs. rewrite windowStep_distractorNumber. exact Hs. }
  destruct (refreshWindow st timeAvailable lastPosition currentPosition
              bestWMItem0) as [[[st' cpi] d] b].
  exact G.
Qed.

Lemma refreshLoop_distractorNumber (lastPosition : Z) :
  forall (fuel : nat) (st st' : state) (t : Q) (cur b0 : Z),
    refreshLoop fuel st t lastPosition cur b0 = Some st' ->
    distractorNumber st' = distractorNumber st.
Proof.
  induction fuel as [|fuel IH]; intros st st' t cur b0 H.
  - cbn [refreshLoop] in H. destruct (Qgtb t 0); [discriminate|].
    inversion H. reflexivity.
  - cbn [refreshLoop] in H. destruct (Qgtb t 0); [|inversion H; reflexivity].
    pose proof (refreshPass_distractorNumber st t lastPosition cur b0) as Hp.
    destruct (refreshPass st t lastPosition cur b0) as [[[st1 t1] cpi] b1].
    cbn [fst] in Hp. rewrite (IH _ _ _ _ _ H). exact Hp.
Qed.

Lemma processing_distractorNumber (st : state) (lastPosition : Z) :
  param_sameDist = 0 ->
  distractorNumber (snd (processing st lastPosition)) = distractorNumber st.
Proof.
  intro Hs. unfold processing.
  destruct (drawRate (- logf (1 - param_tauOp) / param_Ta) (seed st)) as [rop g].
  set (ta := if Qgtb (- logf (1 - param_tauOp) / rop) param_freeTime
                && (param_freeTimeIncludesOpDuration =? 1)
             then param_freeTime else (- logf (1 - param_tauOp) / rop)%Q).
  pose proof (encode_distractorNumber (set_seed st g) 1
                (maxMemoranda + distractorNumber (set_seed st g)) (-1)
                lastPosition (9999 # 1) 1 ta 1 (or_intror Hs)) as He.
  destruct (encode (set_seed st g) 1
              (maxMemoranda + distractorNumber (set_seed st g)) (-1)
              lastPosition (9999 # 1) 1 ta 1) as [d st1].
  cbn [fst snd] in *. exact He.
Qed.

(** When the refresh loop terminates (the conditions are those of the
    theorem on [refresh] above, for a budget that covers the free time and
    what the operation leaves of it), the branch
    of the main loop for the 91st distractor runs to its end. *)
Lemma distract_runs_past_capacity (rmax u eta budget : Q) (st : state)
    (lastPosition : Z) :
  1 <= param_attentionalFocusSize ->
  (0 < reencodingCriterion)%Q ->
  (forall g, (fst (drawRate param_R g) <= rmax)%Q) ->
  (0 <= u <= 1)%Q ->
  (0 <= eta)%Q ->
  (forall x, (0 <= x -> x - (u * x + eta) <= to_float x)%Q) ->
  (forall x, (x <= 0 -> to_float x <= 0)%Q) ->
  (forall x, (0 <= x <= budget -> to_float x <= x + (u * x + eta))%Q) ->
  (0 < progress rmax u eta budget)%Q ->
  (param_freeTime <= budget)%Q ->
  (param_freeTime
   - fst (processing (set_distractorNumber st (maxDistractors + 1))
            lastPosition) <= budget)%Q ->
  1 <= lastPosition ->
  distractorNumber st = maxDistractors ->
  param_sameDist = 0 ->
  exists fuel st',
    distract fuel st lastPosition = Done (st', lastPosition)
    /\ distractorNumber st' = maxDistractors + 1.
Proof.
  intros Hfocus Hc Hrates Hu Heta Hbelow Hsign Habove Hres Hfree Hpd Hlp Hd
    Hs.
  assert (Ha : admitDistractor st
               = Done (set_distractorNumber st (maxDistractors + 1))).
  { unfold admitDistractor. rewrite Hd, Hs. reflexivity. }
  unfold distract. rewrite Ha.
  pose proof (processing_distractorNumber
                (set_distractorNumber st (maxDistractors + 1)) lastPosition Hs)
    as Hp.
  destruct (processing (set_distractorNumber st (maxDistractors + 1))
              lastPosition) as [pd st1].
  cbn [fst snd distractorNumber set_distractorNumber] in Hp, Hpd.
  set (timeLeft := if negb (param_freeTimeIncludesOpDuration =? 0)
                   then (param_freeTime - pd)%Q else param_freeTime).
  assert (Hleft : (timeLeft <= budget)%Q).
  { unfold timeLeft. destruct (negb (param_freeTimeIncludesOpDuration =? 0));
      assumption. }
  set (n := Z.to_nat (Qceiling (timeLeft / progress rmax u eta budget))).
  destruct (refreshLoop_enough_fuel rmax u eta budget Hfocus Hc Hrates Hu Heta
              Hbelow Hsign Habove Hres lastPosition Hlp n st1 timeLeft 1
              indeterminate Hleft) as [st2 H2].
  { apply fuel_bound. exact Hres. }
  exists n, st2.
  unfold refresh. rewrite H2. split; [reflexivity|].
  rewrite (refreshLoop_distractorNumber _ _ _ _ _ _ _ H2). exact Hp.
Qed.

(** C7 (what the code does).  The check before a distractor is admitted
    compares with [>]: when [maxDistractors] = 90 distractors exist already
    and distractors differ from each other, the run does not stop; the
    distractor number becomes 91, the item index handed to [processing] and
    [encode] is [maxMemoranda + 91] = 101, past [maxItem] = 100, and the
    branch of the main loop never ends in [error]: when it ends, 91
    distractors exist.  The run stops at the distractor after that one. *)
Theorem distractor_capacity_check_off_by_one :
  forall st : state,
    distractorNumber st = maxDistractors ->
    param_sameDist = 0 ->
    admitDistractor st = Done (set_distractorNumber st (maxDistractors + 1))
    /\ maxItem < maxMemoranda + (maxDistractors + 1)
    /\ (forall fuel lastPosition,
           (forall msg, distract fuel st lastPosition <> Exit msg)
           /\ (forall st' lastPosition',
                  distract fuel st lastPosition = Done (st', lastPosition') ->
                  distractorNumber st' = maxDistractors + 1))
    /\ exists msg,
         admitDistractor (set_distractorNumber st (maxDistractors + 1))
         = Exit msg.
Proof.
  intros st Hd Hs.
  assert (Ha : admitDistractor st
               = Done (set_distractorNumber st (maxDistractors + 1))).
  { unfold admitDistractor. rewrite Hd, Hs. reflexivity. }
  split; [exact Ha|]. split; [reflexivity|]. split.
  - intros fuel lastPosition. unfold distract. rewrite Ha.
    pose proof (processing_distractorNumber
                  (set_distractorNumber st (maxDistractors + 1)) lastPosition Hs)
      as Hp.
    destruct (processing (set_distractorNumber st (maxDistractors + 1))
                lastPosition) as [pd st1].
    cbn [snd distractorNumber set_distractorNumber] in Hp.
    set (timeLeft := if negb (param_freeTimeIncludesOpDuration =? 0)
                     then (param_freeTime - pd)%Q else param_freeTime).
    unfold refresh.
    destruct (refreshLoop fuel st1 timeLeft lastPosition 1 indeterminate)
      as [st2|] eqn:Er.
    + split; [discriminate|]. intros st' lp' E. inversion E; subst.
      rewrite (refreshLoop_distractorNumber _ _ _ _ _ _ _ Er). exact Hp.
    + split; discriminate.
  - unfold admitDistractor. cbn [distractorNumber set_distractorNumber].
    eexists. reflexivity.
Qed.

End CounterFacts.

Lemma Qsteady_sum (m s x y : Q) : (s == 0)%Q -> (m + s * x * y <= m)%Q.
Proof. intro H. rewrite H. ring_simplify. apply Qle_refl. Qed.

Section SteadyRates.
Context {libc : Libc} {cfg : params}.

(** Without spread every sampled rate is the mean, or the floor. *)
Lemma drawRate_steady (mean : Q) (g : nat) :
  (param_s == 0)%Q -> (1 # 10 <= mean)%Q -> (fst (drawRate mean g) <= mean)%Q.
Proof.
  intros Hs Hm. unfold drawRate, randomNormal. cbn [fst].
  destruct (Qltb _ (1 # 10)); [exact Hm|].
  apply Qsteady_sum. exact Hs.
Qed.

(** Without spread and with a mean above the floor every sampled rate is
    the mean. *)
Lemma drawRate_steady_eq (mean : Q) (g : nat) :
  (param_s == 0)%Q -> (1 # 10 <= mean)%Q -> (fst (drawRate mean g) == mean)%Q.
Proof.
  intros Hs Hm. unfold drawRate, randomNormal. cbn [fst].
  set (x := sqrtf _). set (y := cosf _).
  assert (E : (mean + param_s * x * y == mean)%Q) by (rewrite Hs; ring).
  destruct (Qltb _ (1 # 10)) eqn:El; [|exact E].
  apply Qltb_true in El. rewrite E in El. lra.
Qed.

End SteadyRates.

(** ** The float format of the sample data *)

Lemma round_half_even_near (y : Q) :
  (y - (1 # 2) <= inject_Z (Sample.round_half_even y) <= y + (1 # 2))%Q.
Proof.
  unfold Sample.round_half_even. cbv zeta.
  pose proof (Qfloor_le y) as Hlo. pose proof (Qlt_floor y) as Hhi.
  rewrite inject_Z_plus in Hhi. change (inject_Z 1) with 1%Q in Hhi.
  destruct (y - inject_Z (Qfloor y) ?= 1 # 2)%Q eqn:E.
  - apply Qeq_alt in E. destruct (Z.even (Qfloor y)).
    + split; lra.
    + rewrite inject_Z_plus. change (inject_Z 1) with 1%Q. split; lra.
  - apply Qlt_alt in E. split; lra.
  - apply Qgt_alt in E. rewrite inject_Z_plus. change (inject_Z 1) with 1%Q.
    split; lra.
Qed.

Lemma round_half_even_nonpos (y : Q) :
  (y <= 0)%Q -> Sample.round_half_even y <= 0.
Proof.
  intro Hy. unfold Sample.round_half_even. cbv zeta.
  pose proof (Qfloor_le y) as Hlo.
  assert (Hf : Qfloor y <= 0).
  { rewrite Zle_Qle. change (inject_Z 0) with 0%Q. lra. }
  destruct (y - inject_Z (Qfloor y) ?= 1 # 2)%Q eqn:E.
  - apply Qeq_alt in E.
    assert (Qfloor y <> 0).
    { intro H0. rewrite H0 in E. change (inject_Z 0) with 0%Q in E. lra. }
    destruct (Z.even (Qfloor y)); lia.
  - exact Hf.
  - apply Qgt_alt in E.
    assert (Qfloor y <> 0).
    { intro H0. rewrite H0 in E. change (inject_Z 0) with 0%Q in E. lra. }
    lia.
Qed.

Lemma two_power_pos (k : Z) : (0 < 2 ^ k)%Q.
Proof. apply Qpower_0_lt. reflexivity. Qed.

Lemma exponent_le (x : Q) : (0 < x)%Q -> (2 ^ Sample.exponent x <= x)%Q.
Proof.
  intro Hx. unfold Sample.exponent. cbv zeta.
  set (a := Z.log2 (Qnum x)). set (b := Z.log2 (Z.pos (Qden x))).
  destruct (Qle_bool (2 ^ (a - b)) x) eqn:E.
  - apply Qle_bool_iff. exact E.
  - clear E.
    assert (Hn : 0 < Qnum x).
    { unfold Qlt in Hx. simpl in Hx. lia. }
    assert (Ha : 2 ^ a <= Qnum x) by (apply Z.log2_spec; exact Hn).
    assert (Hb : Z.pos (Qden x) < 2 ^ (b + 1)).
    { replace (b + 1) with (Z.succ b) by lia. apply Z.log2_spec. reflexivity. }
    assert (Ha0 : 0 <= a) by apply Z.log2_nonneg.
    assert (Hb0 : 0 <= b + 1).
    { pose proof (Z.log2_nonneg (Z.pos (Qden x))). lia. }
    replace (a - b - 1) with (a - (b + 1)) by lia.
    rewrite Qpower_minus by (intro H; discriminate H).
    change 2%Q with (inject_Z 2).
    rewrite <- !Zpower_Qpower by assumption.
    assert (Hp : (0 < inject_Z (2 ^ (b + 1)))%Q).
    { change 0%Q with (inject_Z 0). rewrite <- Zlt_Qlt. lia. }
    apply Qle_shift_div_r; [exact Hp|].
    set (p := 2 ^ a) in *. set (q := 2 ^ (b + 1)) in *.
    destruct x as [n d]. cbn [Qnum Qden] in *.
    unfold Qle, Qmult, inject_Z. cbn [Qnum Qden].
    rewrite Pos.mul_1_r. nia.
Qed.

(** The float depends on the value only, not on the fraction that holds it. *)
Lemma binary32_eq (x y : Q) :
  (x == y)%Q -> Sample.binary32 x = Sample.binary32 y.
Proof.
  intro H. unfold Sample.binary32. rewrite (Qred_complete x y H). reflexivity.
Qed.

Lemma binary32_nonpos (x : Q) : (x <= 0)%Q -> (Sample.binary32 x <= 0)%Q.
Proof.
  intro Hx. unfold Sample.binary32. cbv zeta.
  destruct (Qeq_bool (Qred x) 0); [apply Qle_refl|].
  set (k := Z.max (Sample.exponent (Qabs (Qred x))) (-126) - 23).
  rewrite Qred_correct.
  pose proof (two_power_pos k) as Hk.
  assert (Hy : (Qred x / 2 ^ k <= 0)%Q).
  { apply Qle_shift_div_r; [exact Hk|]. rewrite Qred_correct. lra. }
  apply round_half_even_nonpos in Hy.
  rewrite Zle_Qle in Hy. change (inject_Z 0) with 0%Q in Hy.
  setoid_replace 0%Q with (0 * 2 ^ k)%Q by ring.
  apply Qmult_le_compat_r; [exact Hy | lra].
Qed.

(** The error of a store: half a unit in the last place, which is at most
    [2^-24] of the value for a normal number and [2^-150] below. *)
Lemma binary32_error (x : Q) :
  (0 <= x)%Q ->
  (x - ((1 # 16777216) * x + 2 ^ (-150)) <= Sample.binary32 x
   <= x + ((1 # 16777216) * x + 2 ^ (-150)))%Q.
Proof.
  intro Hx. unfold Sample.binary32. cbv zeta.
  destruct (Qeq_bool (Qred x) 0) eqn:E0.
  - apply Qeq_bool_iff in E0. rewrite Qred_correct in E0.
    pose proof (two_power_pos (-150)). split; lra.
  - assert (Hpos : (0 < x)%Q).
    { apply Qeq_bool_neq in E0. rewrite Qred_correct in E0.
      destruct (Qle_lt_or_eq _ _ Hx) as [H|H]; [exact H|].
      exfalso. apply E0. symmetry. exact H. }
    set (e := Sample.exponent (Qabs (Qred x))).
    set (k := Z.max e (-126) - 23).
    rewrite Qred_correct.
    pose proof (two_power_pos k) as Hk.
    pose proof (round_half_even_near (Qred x / 2 ^ k)) as [Hlo Hhi].
    set (m := inject_Z (Sample.round_half_even (Qred x / 2 ^ k))) in *.
    rewrite Qred_correct in Hlo, Hhi.
    assert (Hlo' : (x - (1 # 2) * 2 ^ k <= m * 2 ^ k)%Q).
    { apply Qmult_le_compat_r with (z := (2 ^ k)%Q) in Hlo; [|lra].
      setoid_replace ((x / 2 ^ k - (1 # 2)) * 2 ^ k)%Q
        with (x - (1 # 2) * 2 ^ k)%Q in Hlo by (field; lra).
      exact Hlo. }
    assert (Hhi' : (m * 2 ^ k <= x + (1 # 2) * 2 ^ k)%Q).
    { apply Qmult_le_compat_r with (z := (2 ^ k)%Q) in Hhi; [|lra].
      setoid_replace ((x / 2 ^ k + (1 # 2)) * 2 ^ k)%Q
        with (x + (1 # 2) * 2 ^ k)%Q in Hhi by (field; lra).
      exact Hhi. }
    assert (Hulp : ((1 # 2) * 2 ^ k <= (1 # 16777216) * x + 2 ^ (-150))%Q).
    { pose proof (two_power_pos (-150)) as H150.
      destruct (Z.max_spec e (-126)) as [[Hlt Hm] | [Hge Hm]].
      - (* subnormal *)
        assert (Ek : k = -149) by (unfold k; lia).
        rewrite Ek.
        setoid_replace ((1 # 2) * 2 ^ (-149))%Q with (2 ^ (-150))%Q
          by reflexivity.
        assert ((0 <= (1 # 16777216) * x)%Q) by (apply Qmult_le_0_compat; lra).
        lra.
      - assert (Ek : k = e + (-23)) by (unfold k; lia).
        rewrite Ek, Qpower_plus by (intro H; discriminate H).
        assert (He : (2 ^ e <= x)%Q).
        { unfold e.
          assert (Hab : (Qabs (Qred x) == x)%Q).
          { rewrite Qred_correct. apply Qabs_pos. exact Hx. }
          rewrite <- Hab at 2. apply exponent_le. rewrite Hab. exact Hpos. }
        setoid_replace ((1 # 2) * (2 ^ e * 2 ^ (-23)))%Q
          with ((1 # 16777216) * 2 ^ e)%Q
          by (change (2 ^ (-23))%Q with (1 # 8388608)%Q; ring).
        lra. }
    split; lra.
Qed.

(** With the sample data, when the quotient [-log(1-var_tauR)/var_r] is [q]
    at every draw and the float that holds [t] less the duration is [t]
    again, a pass hands back the time [t] it was given. *)
Lemma sample_pass_stalls (cfg : params) (t q : Q) :
  @param_attentionalFocusSize cfg = 1 ->
  (forall g,
      (reencodingCriterion (libc := Sample.libc) (cfg := cfg)
       / fst (drawRate (libc := Sample.libc) (cfg := cfg) param_R g) == q)%Q) ->
  (let tr := Sample.binary32 q in
   let d := if Qgtb tr t then t else tr in
   let left := Sample.binary32 (t - d) in
   Qeq_bool d ((-1) # 1) = false
   /\ (if Qltb left 0 then 0%Q else left) = t) ->
  forall st cur b0,
    snd (fst (fst (refreshPass (libc := Sample.libc) (cfg := cfg) st t 1 cur
                     b0))) = t.
Proof.
  intros Hfocus Hq Hrun st cur b0. cbv zeta in Hrun. destruct Hrun as [Hm Hleft].
  assert (Hd : windowDuration (libc := Sample.libc) (cfg := cfg) st t cur b0
               = if Qgtb (Sample.binary32 q) t then t else Sample.binary32 q).
  { unfold windowDuration, computedDuration. cbv zeta.
    change (@to_float Sample.libc) with Sample.binary32.
    rewrite (binary32_eq _ q (Hq _)). reflexivity. }
  rewrite refreshPass_time. cbv zeta.
  rewrite refreshWindow_duration.
  - rewrite Hd. exact Hleft.
  - rewrite Hfocus. reflexivity.
  - rewrite Hd. exact Hm.
Qed.

(** * Further properties *)

(** ** The association store *)

Lemma mset_eq {A : Type} (m : mat A) (i j i' j' : Z) (x : A) :
  mset m i j x i' j' = if (i' =? i) && (j' =? j) then x else m i' j'.
Proof. reflexivity. Qed.

(** One row of [decay]: the inner loop over the position units. *)
Lemma decayRow_spec (m : mat Q) (factor : Q) (i : Z) :
  forall i' j,
    for_up 1 nbPositionUnits
      (fun j m => if Qneqb (m i j) 0 then mset m i j (m i j * factor)%Q else m)
      m i' j
    = if (i' =? i) && ((1 <=? j) && (j <=? nbPositionUnits)) && Qneqb (m i j) 0
      then (m i j * factor)%Q else m i' j.
Proof.
  assert (G : (fun k (m' : mat Q) =>
                 forall i' j,
                   m' i' j = if (i' =? i) && ((1 <=? j) && (j <? k))
                                && Qneqb (m i j) 0
                             then (m i j * factor)%Q else m i' j)
                (nbPositionUnits + 1)
                (for_up 1 nbPositionUnits
                   (fun j m =>
                      if Qneqb (m i j) 0 then mset m i j (m i j * factor)%Q
                      else m) m)).
  { apply for_up_ind.
    - unfold nbPositionUnits, nbUnitBlocks, sizeOfPositionBlocks. lia.
    - intros i' j. destruct (i' =? i); [|reflexivity].
      destruct (1 <=? j) eqn:E1; [|reflexivity].
      destruct (j <? 1) eqn:E2; [|reflexivity]. lia.
    - intros k m' Hk Hm i' j. cbv beta.
      assert (Hik : m' i k = m i k).
      { rewrite Hm. rewrite Z.eqb_refl. replace (k <? k) with false by lia.
        rewrite andb_false_r. reflexivity. }
      rewrite Hik.
      destruct (Z.eq_dec j k) as [->|Hne].
      + destruct (Qneqb (m i k) 0) eqn:Emask.
        * rewrite mset_eq, Z.eqb_refl, andb_true_r.
          replace (1 <=? k) with true by lia.
          replace (k <? k + 1) with true by lia.
          destruct (i' =? i) eqn:Ei; cbn [andb]; [reflexivity|].
          rewrite Hm, Ei. reflexivity.
        * rewrite Hm, Emask, !andb_false_r. reflexivity.
      + assert (Hstep : (if Qneqb (m i k) 0
                         then mset m' i k (m i k * factor)%Q else m') i' j
                        = m' i' j).
        { destruct (Qneqb (m i k) 0); [|reflexivity].
          rewrite mset_eq. replace (j =? k) with false by lia.
          rewrite andb_false_r. reflexivity. }
        transitivity (m' i' j); [exact Hstep|]. rewrite Hm.
        replace (j <? k + 1) with (j <? k) by lia. reflexivity. }
  intros i' j. rewrite G.
  replace (j <? nbPositionUnits + 1) with (j <=? nbPositionUnits) by lia.
  reflexivity.
Qed.

Lemma decay_spec (m : mat Q) (factor : Q) (excludedItem : Z) :
  forall i j,
    decay m factor excludedItem i j
    = if decays m excludedItem i j then (m i j * factor)%Q else m i j.
Proof.
  assert (G : (fun k (m' : mat Q) =>
                 forall i j,
                   m' i j
                   = if ((1 <=? i) && (i <? k))
                        && ((excludedItem =? -1) || negb (i =? excludedItem))
                        && ((1 <=? j) && (j <=? nbPositionUnits))
                        && Qneqb (m i j) 0
                     then (m i j * factor)%Q else m i j)
                (maxItem + 1) (decay m factor excludedItem)).
  { unfold decay. apply for_up_ind.
    - unfold maxItem, maxMemoranda, maxDistractors. lia.
    - intros i j. destruct (1 <=? i) eqn:E1; [|reflexivity].
      destruct (i <? 1) eqn:E2; [lia | reflexivity].
    - intros k m' Hk Hm i j. cbv beta.
      assert (Hrow : forall j', m' k j' = m k j').
      { intro j'. rewrite Hm. replace (k <? k) with false by lia.
        rewrite andb_false_r. reflexivity. }
      destruct ((excludedItem =? -1) || negb (k =? excludedItem)) eqn:Ex.
      + rewrite decayRow_spec. rewrite Hrow.
        destruct (Z.eq_dec i k) as [->|Hne].
        * rewrite Z.eqb_refl. replace (1 <=? k) with true by lia.
          replace (k <? k + 1) with true by lia. rewrite Ex. cbn [andb].
          rewrite Hrow. reflexivity.
        * replace (i =? k) with false by lia. cbn [andb]. rewrite Hm.
          replace (i <? k + 1) with (i <? k) by lia. reflexivity.
      + rewrite Hm. destruct (Z.eq_dec i k) as [->|Hne].
        * rewrite Ex. rewrite !andb_false_r. reflexivity.
        * replace (i <? k + 1) with (i <? k) by lia. reflexivity. }
  intros i j. rewrite G. unfold decays.
  replace (i <? maxItem + 1) with (i <=? maxItem) by lia. reflexivity.
Qed.

(** X1.  [decay] multiplies by [factor] exactly the cells of rows 1..maxItem and
    columns 1..nbPositionUnits that are not zero, the row of the excluded
    item apart (no row is excluded when [excludedItem] is -1).  Every other
    cell is left as it is; in particular the row of the excluded item, the
    cells at zero, and the rows and columns outside those ranges. *)
Theorem decay_multiplies_live_cells_only :
  forall (m : mat Q) (factor : Q) (excludedItem i j : Z),
    decay m factor excludedItem i j
    = (if ((1 <=? i) && (i <=? maxItem))
          && ((excludedItem =? -1) || negb (i =? excludedItem))
          && ((1 <=? j) && (j <=? nbPositionUnits))
          && Qneqb (m i j) 0
       then (m i j * factor)%Q else m i j)
    /\ decay m factor excludedItem excludedItem j = m excludedItem j
    /\ ((m i j == 0)%Q -> decay m factor excludedItem i j = m i j)
    /\ (i < 1 \/ maxItem < i \/ j < 1 \/ nbPositionUnits < j ->
        decay m factor excludedItem i j = m i j).
Proof.
  intros m factor e i j. rewrite !decay_spec. unfold decays.
  split; [reflexivity|]. split; [|split].
  - destruct (Z.eqb_spec e (-1)) as [->|Hne].
    + reflexivity.
    + rewrite Z.eqb_refl. cbn [negb orb]. rewrite andb_false_r. reflexivity.
  - intro Hz. apply Qneqb_false in Hz. rewrite Hz, andb_false_r. reflexivity.
  - intros [H|[H|[H|H]]].
    + replace (1 <=? i) with false by lia. reflexivity.
    + replace (i <=? maxItem) with false by lia. rewrite andb_false_r.
      reflexivity.
    + replace (1 <=? j) with false by lia. rewrite !andb_false_r. reflexivity.
    + replace (j <=? nbPositionUnits) with false by lia.
      rewrite !andb_false_r. reflexivity.
Qed.

(** X2.  Two decays in a row with the same excluded item are one decay by the
    product of the factors, cell by cell (as rationals). *)
Theorem decay_composes_multiplicatively :
  forall (m : mat Q) (f1 f2 : Q) (excludedItem i j : Z),
    (decay (decay m f1 excludedItem) f2 excludedItem i j
     == decay m (f1 * f2) excludedItem i j)%Q.
Proof.
  intros m f1 f2 e i j. rewrite !decay_spec. unfold decays.
  rewrite decay_spec. unfold decays.
  destruct (((1 <=? i) && (i <=? maxItem)) && ((e =? -1) || negb (i =? e))
            && ((1 <=? j) && (j <=? nbPositionUnits))) eqn:Ein;
    cbn [andb]; [|reflexivity].
  destruct (Qneqb (m i j) 0) eqn:E0.
  - destruct (Qneqb (m i j * f1) 0) eqn:E1.
    + ring.
    + apply Qneqb_false in E1.
      setoid_replace (m i j * (f1 * f2))%Q with (m i j * f1 * f2)%Q by ring.
      rewrite E1. ring.
  - rewrite E0. reflexivity.
Qed.

(** ** Interference *)

Lemma vset_eq (v : vec) (i k : Z) (x : Q) :
  vset v i x k = if k =? i then x else v k.
Proof. reflexivity. Qed.

Lemma interfere_spec (old new : vec) (p : Q) :
  forall j,
    interfere old new p j
    = if blends old new j then (old j * (1 - p) + new j * p)%Q else old j.
Proof.
  assert (G : (fun k (v : vec) =>
                 forall j,
                   v j = if ((1 <=? j) && (j <? k))
                            && (Qneqb (old j) (new j)
                                && (negb (float_to_int (old j) =? -1)
                                    && negb (float_to_int (new j) =? -1)))
                         then (old j * (1 - p) + new j * p)%Q else old j)
                (nbItemUnits + 1) (interfere old new p)).
  { unfold interfere. apply for_up_ind.
    - unfold nbItemUnits. lia.
    - intro j. destruct (1 <=? j) eqn:E1; [|reflexivity].
      destruct (j <? 1) eqn:E2; [lia | reflexivity].
    - intros k v Hk Hv j. cbv beta.
      assert (Hvk : v k = old k).
      { rewrite Hv. replace (k <? k) with false by lia.
        rewrite andb_false_r. reflexivity. }
      rewrite Hvk.
      set (c := Qneqb (old k) (new k)
                && (negb (float_to_int (old k) =? -1)
                    && negb (float_to_int (new k) =? -1))).
      destruct (Z.eq_dec j k) as [->|Hne].
      + replace (1 <=? k) with true by lia.
        replace (k <? k + 1) with true by lia. cbn [andb]. fold c.
        destruct c.
        * rewrite vset_eq, Z.eqb_refl. reflexivity.
        * exact Hvk.
      + transitivity (v j).
        * destruct c; [|reflexivity]. rewrite vset_eq.
          replace (j =? k) with false by lia. reflexivity.
        * rewrite Hv. replace (j <? k + 1) with (j <? k) by lia. reflexivity. }
  intro j. rewrite G. unfold blends.
  replace (j <? nbItemUnits + 1) with (j <=? nbItemUnits) by lia. reflexivity.
Qed.

Lemma float_to_int_sentinel : float_to_int sentinel = -1.
Proof. reflexivity. Qed.

(** X3.  [interfere] replaces a dimension by the blend [old*(1-p) + new*p]
    exactly when the dimension is in 1..nbItemUnits, the two values differ
    and neither of them is -1 once truncated to [int].  Every other
    dimension keeps its old value: those where either value truncates to
    -1, those where the two agree, and those outside 1..nbItemUnits. *)
Theorem interfere_blends_characterised_dimensions_only :
  forall (old new : vec) (p : Q) (j : Z),
    interfere old new p j
    = (if ((1 <=? j) && (j <=? nbItemUnits))
          && (Qneqb (old j) (new j)
              && (negb (float_to_int (old j) =? -1)
                  && negb (float_to_int (new j) =? -1)))
       then (old j * (1 - p) + new j * p)%Q else old j)
    /\ (float_to_int (old j) = -1 \/ float_to_int (new j) = -1
        \/ (old j == new j)%Q \/ j < 1 \/ nbItemUnits < j ->
        interfere old new p j = old j).
Proof.
  intros old new p j. rewrite !interfere_spec. unfold blends.
  split; [reflexivity|].
  intros [H|[H|[H|[H|H]]]].
  - rewrite H. cbn [Z.eqb negb andb]. rewrite !andb_false_r. reflexivity.
  - rewrite H. cbn [Z.eqb negb andb]. rewrite !andb_false_r. reflexivity.
  - apply Qneqb_false in H. rewrite H. cbn [andb]. rewrite andb_false_r.
    reflexivity.
  - replace (1 <=? j) with false by lia. reflexivity.
  - replace (j <=? nbItemUnits) with false by lia. rewrite andb_false_r.
    reflexivity.
Qed.

Lemma Qblend_between (a b p lo hi : Q) :
  (0 <= p)%Q -> (p <= 1)%Q ->
  (lo <= a)%Q -> (a <= hi)%Q -> (lo <= b)%Q -> (b <= hi)%Q ->
  (lo <= a * (1 - p) + b * p)%Q /\ (a * (1 - p) + b * p <= hi)%Q.
Proof.
  intros Hp0 Hp1 Ha0 Ha1 Hb0 Hb1.
  assert (H1 : (0 <= (a - lo) * (1 - p))%Q) by (apply Qmult_le_0_compat; lra).
  assert (H2 : (0 <= (b - lo) * p)%Q) by (apply Qmult_le_0_compat; lra).
  assert (H3 : (0 <= (hi - a) * (1 - p))%Q) by (apply Qmult_le_0_compat; lra).
  assert (H4 : (0 <= (hi - b) * p)%Q) by (apply Qmult_le_0_compat; lra).
  split.
  - setoid_replace (a * (1 - p) + b * p)%Q
      with (lo + ((a - lo) * (1 - p) + (b - lo) * p))%Q by ring. lra.
  - setoid_replace (a * (1 - p) + b * p)%Q
      with (hi - ((hi - a) * (1 - p) + (hi - b) * p))%Q by ring. lra.
Qed.

(** X4.  With a weight between 0 and 1, [interfere] keeps a dimension within
    any bounds that hold for both its old and its new value: vectors with
    values between 0 and 1 stay so. *)
Theorem interfere_stays_between_old_and_new :
  forall (old new : vec) (p lo hi : Q) (j : Z),
    (0 <= p)%Q -> (p <= 1)%Q ->
    (lo <= old j)%Q -> (old j <= hi)%Q ->
    (lo <= new j)%Q -> (new j <= hi)%Q ->
    (lo <= interfere old new p j)%Q /\ (interfere old new p j <= hi)%Q.
Proof.
  intros old new p lo hi j Hp0 Hp1 Ha0 Ha1 Hb0 Hb1.
  rewrite interfere_spec. destruct (blends old new j).
  - apply Qblend_between; assumption.
  - split; assumption.
Qed.

(** X5.  With weight 0, [interfere] leaves the old vector as it is (as
    rationals). *)
Theorem interfere_with_weight_zero_keeps_the_old_vector :
  forall (old new : vec) (p : Q) (j : Z),
    (p == 0)%Q -> (interfere old new p j == old j)%Q.
Proof.
  intros old new p j Hp. rewrite interfere_spec.
  destruct (blends old new j); [|reflexivity]. rewrite Hp. ring.
Qed.

(** ** The association update *)

Section UpdateFacts.
Context {libc : Libc} {cfg : params}.

Lemma strengthen_spec (pv : mat Z) (ipm : mat Q) (item position : Z) (eta : Q) :
  forall i j,
    strengthen pv ipm item position eta i j
    = if (i =? item) && ((1 <=? j) && (j <=? nbPositionUnits))
         && negb (pv position j =? 0)
      then (ipm item j + (param_L - ipm item j) * eta)%Q else ipm i j.
Proof.
  assert (G : (fun k (m : mat Q) =>
                 forall i j,
                   m i j = if (i =? item) && ((1 <=? j) && (j <? k))
                              && negb (pv position j =? 0)
                           then (ipm item j + (param_L - ipm item j) * eta)%Q
                           else ipm i j)
                (nbPositionUnits + 1) (strengthen pv ipm item position eta)).
  { unfold strengthen. apply for_up_ind.
    - unfold nbPositionUnits, nbUnitBlocks, sizeOfPositionBlocks. lia.
    - intros i j. destruct (i =? item); [|reflexivity].
      destruct (1 <=? j) eqn:E1; [|reflexivity].
      destruct (j <? 1) eqn:E2; [lia | reflexivity].
    - intros k m Hk Hm i j. cbv beta.
      assert (Hmk : m item k = ipm item k).
      { rewrite Hm. replace (k <? k) with false by lia.
        rewrite !andb_false_r. reflexivity. }
      rewrite Hmk.
      destruct (Z.eq_dec j k) as [->|Hne].
      + replace (1 <=? k) with true by lia.
        replace (k <? k + 1) with true by lia. rewrite andb_true_r.
        destruct (negb (pv position k =? 0)) eqn:Ea.
        * rewrite mset_eq, Z.eqb_refl, andb_true_r.
          destruct (i =? item) eqn:Ei; cbn [andb]; [reflexivity|].
          rewrite Hm, Ei. reflexivity.
        * rewrite Hm, Ea, !andb_false_r. reflexivity.
      + transitivity (m i j).
        * destruct (negb (pv position k =? 0)); [|reflexivity].
          rewrite mset_eq. replace (j =? k) with false by lia.
          rewrite andb_false_r. reflexivity.
        * rewrite Hm. replace (j <? k + 1) with (j <? k) by lia. reflexivity. }
  intros i j. rewrite G.
  replace (j <? nbPositionUnits + 1) with (j <=? nbPositionUnits) by lia.
  reflexivity.
Qed.

(** X6.  The association update that ends [encode] writes the row of the item
    at the units that are active in the position vector, and nothing else.
    With a learning rate between 0 and 1, an association that is at most
    [param_L] moves toward [param_L] and does not pass it. *)
Theorem strengthen_moves_active_units_toward_L :
  forall (pv : mat Z) (ipm : mat Q) (item position : Z) (eta : Q) (i j : Z),
    (0 <= eta)%Q -> (eta <= 1)%Q -> (ipm i j <= param_L)%Q ->
    strengthen pv ipm item position eta i j
    = (if (i =? item) && ((1 <=? j) && (j <=? nbPositionUnits))
          && negb (pv position j =? 0)
       then (ipm item j + (param_L - ipm item j) * eta)%Q else ipm i j)
    /\ (ipm i j <= strengthen pv ipm item position eta i j)%Q
    /\ (strengthen pv ipm item position eta i j <= param_L)%Q.
Proof.
  intros pv ipm item position eta i j He0 He1 Hle.
  rewrite !strengthen_spec. split; [reflexivity|].
  destruct ((i =? item) && ((1 <=? j) && (j <=? nbPositionUnits))
            && negb (pv position j =? 0)) eqn:E.
  - apply andb_true_iff in E. destruct E as [E _].
    apply andb_true_iff in E. destruct E as [E _].
    apply Z.eqb_eq in E. subst i.
    assert (H1 : (0 <= (param_L - ipm item j) * eta)%Q)
      by (apply Qmult_le_0_compat; lra).
    assert (H2 : (0 <= (param_L - ipm item j) * (1 - eta))%Q)
      by (apply Qmult_le_0_compat; lra).
    split; [lra|].
    setoid_replace (ipm item j + (param_L - ipm item j) * eta)%Q
      with (param_L - (param_L - ipm item j) * (1 - eta))%Q by ring.
    lra.
  - split; [apply Qle_refl | exact Hle].
Qed.

End UpdateFacts.

(** ** Patterns and item vectors *)

Section PatternMore.
Context {libc : Libc}.

Lemma cells_pwrite (a : parray) (i k : Z) (x : Q) :
  cells (pwrite a i x) k = if k =? i then x else cells a k.
Proof. reflexivity. Qed.



Lemma transpose_involutive (a c x : Z) : transpose a c (transpose a c x) = x.
Proof.
  unfold transpose.
  destruct (Z.eqb_spec x c) as [->|Hc].
  - destruct (Z.eqb_spec a c) as [->|Hac]; [reflexivity|].
    rewrite Z.eqb_refl. reflexivity.
  - destruct (Z.eqb_spec x a) as [->|Ha].
    + rewrite Z.eqb_refl. reflexivity.
    + replace (x =? c) with false by lia. replace (x =? a) with false by lia.
      reflexivity.
Qed.

(** X8.  The shuffle of [createOverlapingRandomPattern] permutes the cells
    firstUsedUnit..firstUsedUnit+patternSize among themselves: its result
    is the pattern read through a bijection of the indices that fixes
    every index outside that window. *)
Theorem shuffle_permutes_its_window :
  forall (pattern : parray) (firstUsedUnit patternSize : Z) (g : nat),
    0 < patternSize ->
    exists sigma tau : Z -> Z,
      (forall x, sigma (tau x) = x)
      /\ (forall x, tau (sigma x) = x)
      /\ (forall x, x < firstUsedUnit \/ firstUsedUnit + patternSize < x ->
                    sigma x = x)
      /\ forall x,
           cells (fst (shuffle pattern firstUsedUnit patternSize g)) x
           = cells pattern (sigma x).
Proof.
  intros pattern first size g Hs. unfold shuffle.
  apply (for_down_inv
           (fun s : parray * nat =>
              exists sigma tau : Z -> Z,
                (forall x, sigma (tau x) = x)
                /\ (forall x, tau (sigma x) = x)
                /\ (forall x, x < first \/ first + size < x -> sigma x = x)
                /\ forall x, cells (fst s) x = cells pattern (sigma x))).
  - exists (fun x => x), (fun x => x). repeat split; reflexivity.
  - intros c [pat g'] Hc (sigma & tau & Hst & Hts & Hfix & Hcells).
    cbn [fst] in *.
    set (alea := Z.rem (rand_draw g') size + first).
    assert (Ha : first <= alea < first + size).
    { pose proof (rand_range g') as Hr.
      assert (0 <= Z.rem (rand_draw g') size < size)
        by (apply Z.rem_bound_pos; lia).
      subst alea. lia. }
    exists (fun x => sigma (transpose alea c x)),
           (fun x => transpose alea c (tau x)).
    split; [|split; [|split]].
    + intro x. rewrite transpose_involutive. apply Hst.
    + intro x. rewrite Hts. apply transpose_involutive.
    + intros x Hx. unfold transpose.
      replace (x =? c) with false by lia. replace (x =? alea) with false by lia.
      apply Hfix. exact Hx.
    + intro x. rewrite !cells_pwrite. rewrite <- !Hcells. unfold transpose.
      destruct (Z.eqb_spec x c) as [->|Hxc]; [reflexivity|].
      destruct (Z.eqb_spec x alea) as [->|Hxa]; reflexivity.
Qed.

End PatternMore.

Section ItemMore.
Context {libc : Libc} {cfg : params}.

(** X9.  [generateItemRepresentations] leaves every dimension of every
    distractor row (maxMemoranda+1..maxItem) at the sentinel, whatever the
    table, the flag [PRESET] and the draws. *)
Theorem generateItemRepresentations_clears_distractors :
  forall (embeddingsList : mat Q) (iv : vec) (g : nat) (i j : Z),
    maxMemoranda + 1 <= i <= maxItem ->
    1 <= j <= nbItemUnits ->
    row (fst (generateItemRepresentations embeddingsList iv g)) i j = sentinel.
Proof.
  intros tbl iv g i j Hi Hj. unfold generateItemRepresentations.
  destruct (for_up 1 maxMemoranda _ (iv, g)) as [iv1 g1]. cbn [fst].
  assert (G : (fun k (v : vec) =>
                 forall i j, maxMemoranda + 1 <= i < k -> 1 <= j <= nbItemUnits ->
                   v (i * rowStride + j) = sentinel)
                (maxItem + 1)
                (for_up (maxMemoranda + 1) maxItem
                   (fun i iv => clearItem iv i) iv1)).
  { apply for_up_ind.
    - unfold maxItem, maxMemoranda, maxDistractors. lia.
    - intros i' j' Hi'. lia.
    - intros k v Hk Hv i' j' Hi' Hj'. rewrite clearItem_spec.
      destruct (Z.eq_dec i' k) as [->|Hne].
      + replace (k * rowStride + 1 <=? k * rowStride + j') with true by lia.
        replace (k * rowStride + j' <=? k * rowStride + nbItemUnits)
          with true by lia.
        reflexivity.
      + replace (k * rowStride + 1 <=? i' * rowStride + j') with false
          by (unfold rowStride, nbItemUnits in *; lia).
        apply Hv; lia. }
  unfold row. apply G; lia.
Qed.

End ItemMore.

(** ** Retrieval and first encoding *)

Lemma copyItem_spec (dst src : vec) (item : Z) :
  forall a,
    copyItem dst src item a
    = if (item * rowStride + 1 <=? a) && (a <=? item * rowStride + nbItemUnits)
      then src a else dst a.
Proof.
  assert (G : (fun k (v : vec) =>
                 forall a, v a = if (item * rowStride + 1 <=? a)
                                    && (a <? item * rowStride + k)
                                 then src a else dst a)
                (nbItemUnits + 1) (copyItem dst src item)).
  { unfold copyItem. apply for_up_ind.
    - unfold nbItemUnits. lia.
    - intro a. destruct (item * rowStride + 1 <=? a) eqn:E1; [|reflexivity].
      destruct (a <? item * rowStride + 1) eqn:E2; [lia | reflexivity].
    - intros k v Hk Hv a. rewrite vset_eq.
      destruct (Z.eqb_spec a (item * rowStride + k)) as [->|Hne].
      + replace (item * rowStride + 1 <=? item * rowStride + k) with true by lia.
        replace (item * rowStride + k <? item * rowStride + (k + 1))
          with true by lia.
        reflexivity.
      + rewrite Hv.
        replace (a <? item * rowStride + (k + 1))
          with (a <? item * rowStride + k) by lia.
        reflexivity. }
  intro a. rewrite G.
  replace (a <? item * rowStride + (nbItemUnits + 1))
    with (a <=? item * rowStride + nbItemUnits) by lia.
  reflexivity.
Qed.

Section EngineMore.
Context {libc : Libc} {cfg : params}.


(** The first encoding of a memorandum, as [main] calls it. *)
Lemma encode_memorandum_eq (st : state) (initialEncoding currentItem bestWM
    position : Z) (timeLeft : Q) (strengthDivisor : Z) (duration : Q) :
  initialEncoding <> 0 ->
  encode st initialEncoding currentItem bestWM position timeLeft
    strengthDivisor duration 0
  = let var_r := fst (drawRate param_R (seed st)) in
    let g := snd (drawRate param_R (seed st)) in
    let te := (logTauE / var_r)%Q in
    let te := if Qgtb te presentationTime then presentationTime else te in
    let st1 :=
      set_var_eta
        (set_var_te
           (set_WM (set_seed st g)
              (copyItem (itemVectorsInWM st) (itemVectorsInLTM st) currentItem))
           te)
        (1 - expf (- var_r * te))%Q in
    let st2 := set_globalTime st1 (globalTime st + te)%Q in
    let st3 :=
      if Qeq_bool duration ((-1) # 1) then
        set_ipm st2
          (decay (itemPositionMatrix st) (expf (- param_D * te)) currentItem)
      else st2 in
    (te,
     set_ipm st3
       (strengthen (positionVectors st) (itemPositionMatrix st3) currentItem
          position (1 - expf (- var_r * te))%Q)).
Proof.
  intro Hi. unfold encode. apply Z.eqb_neq in Hi. rewrite Hi.
  destruct (drawRate param_R (seed st)) as [r g]. cbn [fst snd negb Z.eqb andb].
  destruct (Qeq_bool duration (-1 # 1)); reflexivity.
Qed.

(** X11.  The first encoding of a memorandum copies its LTM vector to working
    memory: the dimensions 1..nbItemUnits of the WM row of the item become
    those of its LTM row, no other WM cell changes, and neither the LTM
    vectors nor the position vectors are written. *)
Theorem initial_encoding_copies_the_LTM_vector :
  forall (st : state) (initialEncoding currentItem bestWM position : Z)
         (timeLeft : Q) (strengthDivisor : Z) (duration : Q),
    initialEncoding <> 0 ->
    let st' :=
      snd (encode st initialEncoding currentItem bestWM position timeLeft
             strengthDivisor duration 0) in
    (forall a,
        itemVectorsInWM st' a
        = if (currentItem * rowStride + 1 <=? a)
             && (a <=? currentItem * rowStride + nbItemUnits)
          then itemVectorsInLTM st a else itemVectorsInWM st a)
    /\ itemVectorsInLTM st' = itemVectorsInLTM st
    /\ positionVectors st' = positionVectors st.
Proof.
  intros st ie item b pos tl sd dur Hi st'. subst st'.
  rewrite (encode_memorandum_eq st ie item b pos tl sd dur Hi). cbv zeta.
  cbn [snd]. destruct (Qeq_bool dur (-1 # 1)); cbn; (split; [|split; reflexivity]);
    intro a; apply copyItem_spec.
Qed.

Lemma Qdiv_nonneg (c r : Q) : (0 <= c)%Q -> (0 < r)%Q -> (0 <= c / r)%Q.
Proof.
  intros Hc Hr. apply Qle_shift_div_l; [exact Hr|]. rewrite Qmult_0_l. exact Hc.
Qed.

Lemma Qdiv_neg (c r : Q) : (c < 0)%Q -> (0 < r)%Q -> (c / r < 0)%Q.
Proof.
  intros Hc Hr. apply Qlt_shift_div_r; [exact Hr|]. rewrite Qmult_0_l. exact Hc.
Qed.

Lemma drawRate_pos (mean : Q) (g : nat) : (0 < fst (drawRate mean g))%Q.
Proof.
  pose proof (drawRate_floor mean g) as H.
  eapply Qlt_le_trans; [|exact H]. reflexivity.
Qed.

(** The sign of the duration of a first encoding. *)
Lemma initial_duration_sign (g : nat) :
  let te := (logTauE / fst (drawRate param_R g))%Q in
  let d := if Qgtb te presentationTime then presentationTime else te in
  (d <= presentationTime)%Q
  /\ ((d < 0)%Q <-> (logTauE < 0)%Q \/ (presentationTime < 0)%Q).
Proof.
  cbv zeta. pose proof (drawRate_pos param_R g) as Hr.
  set (r := fst (drawRate param_R g)) in *.
  destruct (Qgtb (logTauE / r) presentationTime) eqn:E.
  - apply Qgtb_true in E. split; [apply Qle_refl|]. split.
    + intro H. right. exact H.
    + intros [H|H]; [|exact H].
      pose proof (Qdiv_neg logTauE r H Hr). lra.
  - apply Qgtb_false in E. split; [exact E|]. split.
    + intro H. left. destruct (Qlt_le_dec logTauE 0) as [Hl|Hl]; [exact Hl|].
      pose proof (Qdiv_nonneg logTauE r Hl Hr). lra.
    + intros [H|H].
      * apply Qdiv_neg; assumption.
      * lra.
Qed.

End EngineMore.

(** ** Distractors *)

Section DistractorFacts.
Context {libc : Libc} {cfg : params}.

Lemma fillPrefix_frame (pattern : parray) (patternSize : Z) :
  agrees_below 1 pattern (fst (fillPrefix pattern patternSize)).
Proof.
  unfold fillPrefix.
  apply (for_up_inv
           (fun s : parray * Z => 1 <= snd s /\ agrees_below 1 pattern (fst s))).
  - simpl. split; [lia | apply agrees_below_refl].
  - intros k [pat c] _ [Hc Ha]. simpl in *. split; [lia|].
    eapply agrees_below_trans; [exact Ha|]. apply agrees_below_pwrite. exact Hc.
Qed.

(** What [createOverlapingRandomPattern] leaves in a pattern of [nbItemUnits]
    cells: nothing below index 1 has changed and the cells 1..nbItemUnits are
    sentinel. *)
Lemma overlapPattern_cells (pattern : parray) (refPattern : vec) (p : Q)
    (g : nat) :
  let pat := fst (createOverlapingRandomPattern pattern refPattern nbItemUnits p g) in
  forall j,
    (j < 1 -> cells pat j = cells pattern j)
    /\ (1 <= j <= nbItemUnits -> cells pat j = sentinel).
Proof.
  cbv zeta. unfold createOverlapingRandomPattern.
  pose proof (fillPrefix_spec pattern nbItemUnits ltac:(unfold nbItemUnits; lia))
    as [Hi Hc].
  pose proof (fillPrefix_frame pattern nbItemUnits) as Ha1.
  destruct (fillPrefix pattern nbItemUnits) as [pat1 i1]. simpl in Hi, Hc, Ha1.
  pose proof (fillGap_spec pat1 i1 nbItemUnits p) as [Hi2 Ha2].
  destruct (fillGap pat1 i1 nbItemUnits p) as [pat2 i2]. simpl in Hi2, Ha2.
  pose proof (createSimilarRandomPattern_frame pat2 refPattern
                param_itemDistractorNoise i2 (i2 + Z.quot nbItemUnits 4) g) as Ha3.
  destruct (createSimilarRandomPattern pat2 refPattern param_itemDistractorNoise
              i2 (i2 + Z.quot nbItemUnits 4) g) as [pat3 g3]. simpl in Ha3.
  pose proof (shuffle_frame pat3 i1 nbItemUnits g3
                ltac:(unfold nbItemUnits; lia)) as Ha4.
  destruct (shuffle pat3 i1 nbItemUnits g3) as [pat4 g4]. simpl in Ha4.
  pose proof (tail_loop_frame pat4 (i2 + nbItemUnits + 1) nbItemUnits) as Ha5.
  simpl. unfold nbItemUnits in *. intro j.
  assert (Hlow : j <= 100 -> cells
                   (for_up (i2 + 100 + 1) 100 (fun c pat => pwrite pat c sentinel)
                      pat4) j = cells pat1 j).
  { intro Hj. rewrite Ha5 by lia. rewrite Ha4 by lia. rewrite Ha3 by lia.
    rewrite Ha2 by lia. reflexivity. }
  split.
  - intro Hj. rewrite Hlow by lia. apply Ha1. exact Hj.
  - intro Hj. rewrite Hlow by lia. apply Hc. lia.
Qed.

(** A retrieval for a refresh changes nothing but the position in the random
    stream. *)
Lemma retrieve_refresh_state (st : state) (pos status bestWMItem0 : Z) :
  status <> 0 ->
  snd (retrieve st pos status bestWMItem0)
  = set_seed st (snd (bestActivation st pos bestWMItem0)).
Proof.
  intro Hs. rewrite retrieve_eq. cbv zeta. cbn [snd].
  unfold timedState. apply Z.eqb_neq in Hs. rewrite Hs. reflexivity.
Qed.

(** An interference from a vector without a characterised dimension changes
    nothing. *)
Lemma interfereRow_sentinel_source (m : vec) (target : Z) (source : vec) (p : Q) :
  (forall j, 1 <= j <= nbItemUnits -> source j = sentinel) ->
  forall a, interfereRow m target source p a = m a.
Proof.
  intros Hsrc a. unfold interfereRow, store_row. rewrite interfere_spec.
  unfold blends.
  destruct ((1 <=? a - target * rowStride)
            && (a - target * rowStride <=? nbItemUnits)) eqn:Ein.
  - rewrite Hsrc by lia. rewrite float_to_int_sentinel. cbn [Z.eqb negb andb].
    rewrite !andb_false_r. unfold row. f_equal. lia.
  - cbn [andb]. unfold row. f_equal. lia.
Qed.

(** The distractor branch of [encode] when every distractor is a new one. *)
Lemma encodeDistractor_eq (st : state) (position : Z) :
  param_sameDist = 0 ->
  encodeDistractor st position
  = let r := fst (retrieve st position 1 indeterminate) in
    let st1 := snd (retrieve st position 1 indeterminate) in
    let slot := maxMemoranda + distractorNumber st1 in
    let pg :=
      createOverlapingRandomPattern
        (pfresh (row (itemVectorsInLTM st1) slot))
        (row (itemVectorsInWM st1) (retrievedItem r))
        nbItemUnits param_itemDistractorOverlap (seed st1) in
    let st2 := set_seed (set_LTM st1 (store_row slot (cells (fst pg)))) (snd pg) in
    let st3 :=
      set_WM st2 (copyItem (itemVectorsInWM st2) (itemVectorsInLTM st2) slot) in
    let st4 :=
      set_WM st3
        (interfereRow (itemVectorsInWM st3) (retrievedItem r)
           (row (itemVectorsInWM st3) slot) distractorEncodingWeight) in
    set_var_eta st4 (var_eta st4 * distractorEncodingWeight)%Q.
Proof.
  intro Hs. unfold encodeDistractor.
  destruct (retrieve st position 1 indeterminate) as [r st1].
  rewrite Hs. cbn [Z.eqb fst snd]. cbv zeta.
  destruct (createOverlapingRandomPattern
              (pfresh (row (itemVectorsInLTM st1)
                         (maxMemoranda + distractorNumber st1)))
              (row (itemVectorsInWM st1) (retrievedItem r)) nbItemUnits
              param_itemDistractorOverlap (seed st1)) as [pat g].
  reflexivity.
Qed.

(** The working memory after the distractor branch: the vector of the new
    distractor is sentinel and no other cell has changed. *)
Lemma encodeDistractor_WM (st : state) (position : Z) :
  param_sameDist = 0 ->
  forall a,
    itemVectorsInWM (encodeDistractor st position) a
    = let slot := maxMemoranda + distractorNumber st in
      if (slot * rowStride + 1 <=? a) && (a <=? slot * rowStride + nbItemUnits)
      then sentinel else itemVectorsInWM st a.
Proof.
  intros Hs a. rewrite (encodeDistractor_eq st position Hs). cbv zeta.
  rewrite (retrieve_refresh_state st position 1 indeterminate) by discriminate.
  set (r := fst (retrieve st position 1 indeterminate)).
  set (g1 := snd (bestActivation st position indeterminate)).
  cbn [set_seed set_LTM set_WM set_var_eta itemVectorsInWM itemVectorsInLTM
         distractorNumber seed].
  set (slot := maxMemoranda + distractorNumber st).
  set (pg := createOverlapingRandomPattern _ _ nbItemUnits _ g1).
  assert (Hpat : forall j, 1 <= j <= nbItemUnits -> cells (fst pg) j = sentinel).
  { intros j Hj. subst pg. apply overlapPattern_cells. exact Hj. }
  set (wm3 := copyItem (itemVectorsInWM st) (store_row slot (cells (fst pg))) slot).
  assert (Hwm3 : forall a,
             wm3 a = if (slot * rowStride + 1 <=? a)
                        && (a <=? slot * rowStride + nbItemUnits)
                     then sentinel else itemVectorsInWM st a).
  { intro b. subst wm3. rewrite copyItem_spec.
    destruct ((slot * rowStride + 1 <=? b) && (b <=? slot * rowStride + nbItemUnits))
      eqn:E; [|reflexivity].
    unfold store_row. apply Hpat. lia. }
  rewrite interfereRow_sentinel_source.
  - apply Hwm3.
  - intros j Hj. unfold row. rewrite Hwm3.
    replace (slot * rowStride + 1 <=? slot * rowStride + j) with true by lia.
    replace (slot * rowStride + j <=? slot * rowStride + nbItemUnits)
      with true by lia.
    reflexivity.
Qed.

(** [encode] for a distractor, as [processing] calls it. *)
Lemma encode_distractor_eq (st : state) (initialEncoding currentItem bestWM
    position : Z) (timeLeft : Q) (strengthDivisor : Z) (duration : Q)
    (distractor : Z) :
  initialEncoding <> 0 -> distractor <> 0 ->
  encode st initialEncoding currentItem bestWM position timeLeft
    strengthDivisor duration distractor
  = let g := snd (drawRate param_R (seed st)) in
    let st1 := set_globalTime (set_seed st g) (globalTime st + 0)%Q in
    let st2 := encodeDistractor st1 position in
    (0%Q,
     set_ipm st2
       (strengthen (positionVectors st2) (itemPositionMatrix st2) currentItem
          position (var_eta st2))).
Proof.
  intros Hi Hd. unfold encode. apply Z.eqb_neq in Hi. apply Z.eqb_neq in Hd.
  rewrite Hi, Hd. destruct (drawRate param_R (seed st)) as [r g].
  reflexivity.
Qed.

Lemma processing_eq (st : state) (lastPosition : Z) :
  processing st lastPosition
  = let g := snd (drawRate (- logf (1 - param_tauOp) / param_Ta) (seed st)) in
    let ta := operationDuration (seed st) in
    let st1 :=
      snd (encode (set_seed st g) 1 (maxMemoranda + distractorNumber st) (-1)
             lastPosition (9999 # 1) 1 ta 1) in
    let st2 := set_globalTime st1 (globalTime st1 + ta)%Q in
    (ta,
     set_ipm st2 (decay (itemPositionMatrix st2) (expf (- param_D * ta)) (-1))).
Proof.
  unfold processing, operationDuration.
  destruct (drawRate (- logf (1 - param_tauOp) / param_Ta) (seed st)) as [rop g].
  cbn [fst snd]. cbv zeta.
  destruct (encode _ 1 _ (-1) lastPosition (9999 # 1) 1 _ 1) as [d st1].
  reflexivity.
Qed.

Lemma encodeDistractor_scalars (st : state) (position : Z) :
  var_eta (encodeDistractor st position)
  = (var_eta st * distractorEncodingWeight)%Q
  /\ globalTime (encodeDistractor st position) = globalTime st
  /\ positionVectors (encodeDistractor st position) = positionVectors st
  /\ itemPositionMatrix (encodeDistractor st position) = itemPositionMatrix st.
Proof.
  unfold encodeDistractor.
  pose proof (retrieve_refresh_state st position 1 indeterminate
                ltac:(discriminate)) as Hr.
  destruct (retrieve st position 1 indeterminate) as [r st1]. cbn [snd] in Hr.
  subst st1. cbv zeta.
  destruct (param_sameDist =? 1).
  - cbn [distractorNumber set_seed].
    destruct (distractorNumber st =? 0).
    + destruct (createOverlapingRandomPattern _ _ nbItemUnits _ _) as [pat g].
      repeat split.
    + repeat split.
  - destruct (createOverlapingRandomPattern _ _ nbItemUnits _ _) as [pat g].
    repeat split.
Qed.

Lemma store_row_below (slot : Z) (ltm : vec) (pat : parray) :
  (forall j, j < 1 -> cells pat j = row ltm slot j) ->
  forall a, a <= slot * rowStride -> store_row slot (cells pat) a = ltm a.
Proof.
  intros H a Ha. unfold store_row. rewrite H by lia. unfold row. f_equal. lia.
Qed.

(** The long-term memory below the row of the current distractor is out of
    reach of the distractor branch. *)
Lemma encodeDistractor_LTM (st : state) (position : Z) :
  forall a, a <= (maxMemoranda + distractorNumber st) * rowStride ->
    itemVectorsInLTM (encodeDistractor st position) a = itemVectorsInLTM st a.
Proof.
  intros a Ha. unfold encodeDistractor.
  pose proof (retrieve_refresh_state st position 1 indeterminate
                ltac:(discriminate)) as Hr.
  destruct (retrieve st position 1 indeterminate) as [r st1]. cbn [snd] in Hr.
  subst st1. cbv zeta.
  destruct (param_sameDist =? 1).
  - cbn [distractorNumber set_seed].
    destruct (distractorNumber st =? 0) eqn:E0.
    + apply Z.eqb_eq in E0. rewrite E0 in Ha.
      cbn [distractorNumber set_seed set_distractorNumber itemVectorsInLTM
             itemVectorsInWM seed].
      set (pg := createOverlapingRandomPattern _ _ nbItemUnits _ _).
      pose proof (overlapPattern_cells
                    (pfresh (row (itemVectorsInLTM st) (maxMemoranda + 1)))
                    (row (itemVectorsInWM st) (retrievedItem r))
                    param_itemDistractorOverlap
                    (snd (bestActivation st position indeterminate))) as Hp.
      cbv zeta in Hp. fold pg in Hp. destruct pg as [pat g].
      cbn [fst] in Hp.
      cbn [set_seed set_LTM set_WM set_var_eta itemVectorsInLTM].
      apply store_row_below.
      * intros j Hj. apply Hp. exact Hj.
      * unfold rowStride, nbItemUnits, maxMemoranda in *. lia.
    + reflexivity.
  - cbn [distractorNumber set_seed itemVectorsInLTM itemVectorsInWM seed].
    set (pg := createOverlapingRandomPattern _ _ nbItemUnits _ _).
    pose proof (overlapPattern_cells
                  (pfresh (row (itemVectorsInLTM st)
                             (maxMemoranda + distractorNumber st)))
                  (row (itemVectorsInWM st) (retrievedItem r))
                  param_itemDistractorOverlap
                  (snd (bestActivation st position indeterminate))) as Hp.
    cbv zeta in Hp. fold pg in Hp. destruct pg as [pat g].
    cbn [fst] in Hp.
    cbn [set_seed set_LTM set_WM set_var_eta itemVectorsInLTM].
    apply store_row_below.
    + intros j Hj. apply Hp. exact Hj.
    + exact Ha.
Qed.

Lemma processing_state (st : state) (lastPosition : Z) :
  let st' := snd (processing st lastPosition) in
  let d :=
    encodeDistractor
      (set_globalTime
         (set_seed
            (set_seed st
               (snd (drawRate (- logf (1 - param_tauOp) / param_Ta) (seed st))))
            (snd (drawRate param_R
                    (snd (drawRate (- logf (1 - param_tauOp) / param_Ta)
                            (seed st))))))
         (globalTime st + 0)%Q)
      lastPosition in
  itemVectorsInWM st' = itemVectorsInWM d
  /\ itemVectorsInLTM st' = itemVectorsInLTM d
  /\ positionVectors st' = positionVectors d
  /\ var_eta st' = var_eta d
  /\ globalTime st' = (globalTime d + operationDuration (seed st))%Q
  /\ distractorNumber st' = distractorNumber d.
Proof.
  cbv zeta. rewrite processing_eq. cbv zeta.
  rewrite encode_distractor_eq by discriminate. cbv zeta. cbn [snd].
  repeat split.
Qed.

(** X12.  When the free time includes the operation ([ftiod 1]), the duration
    [processing] returns does not exceed [param_freeTime], so the time
    [main] leaves for the refresh is not negative. *)
Theorem processing_duration_within_free_time :
  forall (st : state) (lastPosition : Z),
    param_freeTimeIncludesOpDuration = 1 ->
    (fst (processing st lastPosition) <= param_freeTime)%Q
    /\ (0 <= param_freeTime - fst (processing st lastPosition))%Q.
Proof.
  intros st lp Hf. rewrite processing_eq. cbv zeta. cbn [fst].
  unfold operationDuration. rewrite Hf. cbn [Z.eqb]. rewrite andb_true_r.
  set (ta := (- logf (1 - param_tauOp) / _)%Q).
  destruct (Qgtb ta param_freeTime) eqn:E.
  - split; [apply Qle_refl | lra].
  - apply Qgtb_false in E. split; [exact E | lra].
Qed.


(** X14.  With distinct distractors ([sameDist 0]) the only change
    [processing] makes to working memory is the vector of the new
    distractor, which becomes all sentinel.  The interference of the
    distractor with the retrieved item changes nothing, because no
    dimension of the distractor is characterised. *)
Theorem distractor_leaves_other_WM_vectors_unchanged :
  forall (st : state) (lastPosition : Z) (a : Z),
    param_sameDist = 0 ->
    itemVectorsInWM (snd (processing st lastPosition)) a
    = let slot := maxMemoranda + distractorNumber st in
      if (slot * rowStride + 1 <=? a) && (a <=? slot * rowStride + nbItemUnits)
      then sentinel else itemVectorsInWM st a.
Proof.
  intros st lp a Hs.
  destruct (processing_state st lp) as (Hw & _). cbv zeta in Hw.
  rewrite Hw. rewrite encodeDistractor_WM by exact Hs. reflexivity.
Qed.

(** X15.  [processing] writes no LTM cell below row
    [maxMemoranda + distractorNumber]: once a distractor number has been
    allocated, the LTM vectors of the memoranda are out of its reach. *)
Theorem distractor_leaves_earlier_LTM_rows_unchanged :
  forall (st : state) (lastPosition : Z) (a : Z),
    a <= (maxMemoranda + distractorNumber st) * rowStride ->
    itemVectorsInLTM (snd (processing st lastPosition)) a = itemVectorsInLTM st a.
Proof.
  intros st lp a Ha.
  destruct (processing_state st lp) as (_ & Hl & _). cbv zeta in Hl.
  rewrite Hl. rewrite encodeDistractor_LTM; [reflexivity | exact Ha].
Qed.

End DistractorFacts.

(** ** Recall *)

Section RecallFacts.
Context {libc : Libc} {cfg : params}.

Lemma recallSymbol_char (item : Z) : recallChar (recallSymbol item).
Proof.
  unfold recallChar, recallSymbol.
  destruct ((item >=? 1) && (item <=? 26)) eqn:E.
  - right. right. apply andb_true_iff in E. destruct E as [E1 E2].
    change (char_code "A") with 65. change (char_code "Z") with 90. lia.
  - right. left. reflexivity.
Qed.

Lemma recallStep_frame (position : Z) (s : state * (Z -> Z) * Z) :
  let st := fst (fst s) in
  let st' := fst (fst (recallStep position s)) in
  itemVectorsInWM st' = itemVectorsInWM st
  /\ itemVectorsInLTM st' = itemVectorsInLTM st
  /\ positionVectors st' = positionVectors st
  /\ distractorNumber st' = distractorNumber st.
Proof.
  destruct s as [[st rec] b]. cbv zeta. cbn [fst]. rewrite recallStep_eq.
  cbv zeta. cbn [fst].
  destruct (retrieve_frame st position 0 b) as (Hw & Hl & _ & Hp & Hd).
  cbv zeta in Hw, Hl, Hp, Hd.
  destruct (Qgtb (activationMax (fst (retrieve st position 0 b))) param_theta);
    cbn [set_globalTime set_ipm itemVectorsInWM itemVectorsInLTM
           positionVectors distractorNumber];
    repeat split; assumption.
Qed.


(** X16.  [recall] leaves a string of exactly [lastPosition] characters in the
    buffer: each of the first [lastPosition] cells holds [.], [*] or a
    capital letter, the next cell is the terminator, and no other cell is
    written. *)
Theorem recall_writes_a_string_of_lastPosition_symbols :
  forall (st : state) (lastPosition : Z) (recalled : Z -> Z),
    0 <= lastPosition ->
    let out := snd (recall st lastPosition recalled) in
    out lastPosition = 0
    /\ (forall k, 0 <= k < lastPosition ->
          out k = char_code "." \/ out k = char_code "*"
          \/ char_code "A" <= out k <= char_code "Z")
    /\ (forall k, k < 0 \/ lastPosition < k -> out k = recalled k).
Proof.
  intros st lp rec Hlp out.
  assert (G : (fun c (s : state * (Z -> Z) * Z) =>
                 (forall k, 0 <= k < c - 1 -> recallChar (snd (fst s) k))
                 /\ (forall k, k < 0 \/ c - 1 <= k -> snd (fst s) k = rec k))
                (lp + 1)
                (for_up 1 lp recallStep (st, rec, indeterminate))).
  { apply for_up_ind.
    - lia.
    - cbn [fst snd]. split; [intros; lia | reflexivity].
    - intros c [[stc rc] bc] Hc [Hin Hout]. cbn [fst snd] in Hin, Hout.
      rewrite recallStep_eq. cbv zeta. cbn [fst snd]. split.
      + intros k Hk. destruct (Z.eqb_spec k (c - 1)) as [->|Hne].
        * destruct (Qgtb _ param_theta).
          -- apply recallSymbol_char.
          -- left. reflexivity.
        * apply Hin. lia.
      + intros k Hk. replace (k =? c - 1) with false by lia.
        apply Hout. lia. }
  subst out. unfold recall.
  destruct (for_up 1 lp recallStep (st, rec, indeterminate)) as [[st' rec'] b'].
  cbn [fst snd] in *. destruct G as [Hin Hout]. split; [|split].
  - rewrite Z.eqb_refl. reflexivity.
  - intros k Hk. replace (k =? lp) with false by lia. apply Hin. lia.
  - intros k Hk. replace (k =? lp) with false by lia. apply Hout. lia.
Qed.


End RecallFacts.

(** ** What a trial leaves alone *)

Section TrialFacts.
Context {libc : Libc} {cfg : params}.

Lemma sameTables_refl (st : state) : sameTables st st.
Proof. repeat split. Qed.

Lemma sameTables_trans (a b c : state) :
  sameTables a b -> sameTables b c -> sameTables a c.
Proof.
  intros (H1 & H2 & H3) (H4 & H5 & H6). repeat split; congruence.
Qed.

Lemma encode_sameTables (st : state) (initialEncoding currentItem bestWM
    position : Z) (timeLeft : Q) (strengthDivisor : Z) (duration : Q) :
  sameTables st
    (snd (encode st initialEncoding currentItem bestWM position timeLeft
            strengthDivisor duration 0)).
Proof.
  unfold encode, sameTables.
  destruct (drawRate param_R (seed st)) as [r g].
  destruct (initialEncoding =? 0); destruct (Qeq_bool duration (-1 # 1));
    cbn [negb andb fst snd Z.eqb];
    cbn [positionVectors itemVectorsInLTM distractorNumber set_seed set_WM
           set_ipm set_var_te set_var_tr set_var_eta set_globalTime];
    repeat split.
Qed.

Lemma retrieve_sameTables (st : state) (pos status bestWMItem0 : Z) :
  sameTables st (snd (retrieve st pos status bestWMItem0)).
Proof.
  destruct (retrieve_frame st pos status bestWMItem0) as (_ & H2 & _ & H4 & H5).
  repeat split; assumption.
Qed.

Lemma windowStep_sameTables (timeAvailable : Q) (lastPosition : Z)
    (s : state * Z * Q * Z) :
  sameTables (fst (fst (fst s)))
    (fst (fst (fst (windowStep timeAvailable lastPosition s)))).
Proof.
  destruct s as [[[st cpi] d] b]. unfold windowStep.
  pose proof (retrieve_sameTables st cpi 1 b) as Hr.
  destruct (retrieve st cpi 1 b) as [r st1]. cbn [snd] in Hr.
  pose proof (encode_sameTables st1 0 (retrievedItem r) (bestWMItem r) cpi
                timeAvailable (min param_attentionalFocusSize lastPosition) d)
    as He.
  destruct (encode st1 0 (retrievedItem r) (bestWMItem r) cpi timeAvailable
              (min param_attentionalFocusSize lastPosition) d 0) as [d' st2].
  cbn [fst snd] in *. eapply sameTables_trans; eassumption.
Qed.

Lemma refreshPass_sameTables (st : state) (timeAvailable : Q)
    (lastPosition currentPosition bestWMItem0 : Z) :
  sameTables st
    (fst (fst (fst (refreshPass st timeAvailable lastPosition currentPosition
                      bestWMItem0)))).
Proof.
  unfold refreshPass.
  assert (G : sameTables st
                (fst (fst (fst (refreshWindow st timeAvailable lastPosition
                                  currentPosition bestWMItem0))))).
  { unfold refreshWindow.
    apply (for_n_ind
             (fun _ (s : state * Z * Q * Z) =>
                sameTables st (fst (fst (fst s))))).
    - apply sameTables_refl.
    - intros k s _ Hs. eapply sameTables_trans; [exact Hs|].
      apply windowStep_sameTables. }
  destruct (refreshWindow st timeAvailable lastPosition currentPosition
              bestWMItem0) as [[[st' cpi] d] b].
  exact G.
Qed.

Lemma refreshLoop_sameTables (lastPosition : Z) :
  forall (fuel : nat) (st st' : state) (t : Q) (cur b0 : Z),
    refreshLoop fuel st t lastPosition cur b0 = Some st' ->
    sameTables st st'.
Proof.
  induction fuel as [|fuel IH]; intros st st' t cur b0 H.
  - cbn [refreshLoop] in H. destruct (Qgtb t 0); [discriminate|].
    inversion H. apply sameTables_refl.
  - cbn [refreshLoop] in H.
    destruct (Qgtb t 0); [|inversion H; apply sameTables_refl].
    pose proof (refreshPass_sameTables st t lastPosition cur b0) as Hp.
    destruct (refreshPass st t lastPosition cur b0) as [[[st1 t1] cpi] b1].
    cbn [fst] in Hp. eapply sameTables_trans; [exact Hp|].
    eapply IH. exact H.
Qed.

(** X18.  A refresh that ends has written neither the position vectors, nor
    the LTM vectors, nor the number of distractors. *)
Theorem refresh_leaves_positions_and_LTM_unchanged :
  forall (fuel : nat) (st st' : state) (timeAvailable : Q) (lastPosition : Z),
    refresh fuel st timeAvailable lastPosition = Some st' ->
    positionVectors st' = positionVectors st
    /\ itemVectorsInLTM st' = itemVectorsInLTM st
    /\ distractorNumber st' = distractorNumber st.
Proof.
  intros fuel st st' t lp H. unfold refresh in H.
  exact (refreshLoop_sameTables lp fuel st st' t 1 indeterminate H).
Qed.

End TrialFacts.

(** ** The stimulus and the main loop *)

Lemma zseq_In (x : Z) : forall (n : nat) (lo : Z),
  In x (zseq lo n) <-> lo <= x < lo + Z.of_nat n.
Proof.
  induction n as [|n IH]; intro lo; cbn [zseq In].
  - lia.
  - rewrite IH. lia.
Qed.

Lemma zseq_app (n m : nat) : forall lo,
  zseq lo (n + m) = zseq lo n ++ zseq (lo + Z.of_nat n) m.
Proof.
  induction n as [|n IH]; intro lo.
  - cbn. f_equal. lia.
  - cbn [Nat.add zseq app]. rewrite IH. do 3 f_equal. lia.
Qed.

Lemma for_n_ext {S : Type} (body body' : Z -> S -> S) :
  (forall i s, body i s = body' i s) ->
  forall (n : nat) (i : Z) (s : S), for_n n i body s = for_n n i body' s.
Proof.
  intros H. induction n as [|n IH]; intros i s; cbn [for_n].
  - reflexivity.
  - rewrite H. apply IH.
Qed.

Lemma for_n_append (f : Z -> list Z) :
  forall (n : nat) (i : Z) (l : list Z),
    for_n n i (fun j l => l ++ f j) l = l ++ flat_map f (zseq i n).
Proof.
  induction n as [|n IH]; intros i l; cbn [for_n zseq flat_map].
  - rewrite app_nil_r. reflexivity.
  - rewrite IH. rewrite <- app_assoc. reflexivity.
Qed.

Lemma makeStimuli_eq (c : params) :
  makeStimuli c
  = flat_map (stimulusBlock c) (zseq 0 (Z.to_nat (@nbmemo c)))
    ++ [char_code "#"].
Proof.
  unfold makeStimuli. f_equal. unfold for_up at 1.
  replace (@nbmemo c - 1 + 1 - 0) with (@nbmemo c) by lia.
  rewrite (for_n_ext _ (fun i l => l ++ stimulusBlock c i)).
  - rewrite for_n_append. reflexivity.
  - intros i l. unfold for_up. rewrite for_n_append.
    unfold stimulusBlock. rewrite <- app_assoc.
    replace (@nbop c + 1 - 1) with (@nbop c) by lia. reflexivity.
Qed.

Lemma stimulusBlock_length (c : params) (i : Z) :
  List.length (stimulusBlock c i) = S (Z.to_nat (@nbop c)).
Proof.
  unfold stimulusBlock. cbn [app List.length]. f_equal.
  generalize 1. induction (Z.to_nat (@nbop c)) as [|n IH]; intro lo.
  - reflexivity.
  - cbn [zseq flat_map app List.length]. rewrite IH. reflexivity.
Qed.

Lemma blocks_length (c : params) : forall (n : nat) (lo : Z),
  List.length (flat_map (stimulusBlock c) (zseq lo n))
  = (n * S (Z.to_nat (@nbop c)))%nat.
Proof.
  induction n as [|n IH]; intro lo; cbn [zseq flat_map].
  - reflexivity.
  - rewrite length_app, stimulusBlock_length, IH. reflexivity.
Qed.

Lemma stimulusBlock_symbols (c : params) (i : Z) :
  forall s, In s (stimulusBlock c i) ->
    s = 65 + i \/ (1 <= s - char_code "0" <= @nbop c).
Proof.
  intros s Hs. unfold stimulusBlock in Hs. apply in_app_or in Hs.
  destruct Hs as [[Hs|[]]|Hs]; [left; lia|]. right.
  apply in_flat_map in Hs. destruct Hs as (j & Hj & [Hs|[]]).
  apply zseq_In in Hj. lia.
Qed.

(** X19.  For at most 26 memoranda and 16 operations, the stimulus has
    nbmemo * (nbop + 1) + 1 symbols.  The last one is [#]; every symbol
    before it is one of the first [nbmemo] capital letters, which the main
    loop takes for a memorandum, or one of the [nbop] characters that
    follow [0], which it takes for an operation. *)
Theorem makeStimuli_is_blocks_closed_by_hash :
  forall c : params,
    0 <= @nbmemo c <= 26 -> 0 <= @nbop c <= 16 ->
    Z.of_nat (List.length (makeStimuli c)) = @nbmemo c * (@nbop c + 1) + 1
    /\ (exists body, makeStimuli c = body ++ [char_code "#"]
        /\ forall s, In s body ->
             (char_code "A" <= s < char_code "A" + @nbmemo c
              /\ isMemorandum s = true)
             \/ (char_code "0" + 1 <= s <= char_code "0" + @nbop c
                 /\ isMemorandum s = false /\ isOperation s = true)).
Proof.
  intros c Hm Ho. rewrite makeStimuli_eq. split.
  - rewrite length_app, blocks_length. cbn [List.length]. nia.
  - eexists. split; [reflexivity|]. intros s Hs.
    apply in_flat_map in Hs. destruct Hs as (i & Hi & Hs).
    apply zseq_In in Hi. apply stimulusBlock_symbols in Hs.
    unfold isMemorandum, isOperation.
    change (char_code "A") with 65. change (char_code "0") with 48 in *.
    change (char_code "Z") with 90. change (char_code "9") with 57.
    lia.
Qed.

Section TrialLoopFacts.
Context {libc : Libc} {cfg : params}.

Lemma encodeDistractor_tables (st : state) (position : Z) :
  distractorNumber (encodeDistractor st position)
  = (if (param_sameDist =? 1) && (distractorNumber st =? 0)
     then 1 else distractorNumber st)
  /\ forall a,
       param_sameDist = 1 -> a <= (maxMemoranda + 1) * rowStride ->
       itemVectorsInLTM (encodeDistractor st position) a = itemVectorsInLTM st a.
Proof.
  unfold encodeDistractor.
  pose proof (retrieve_refresh_state st position 1 indeterminate
                ltac:(discriminate)) as Hr.
  destruct (retrieve st position 1 indeterminate) as [r st1]. cbn [snd] in Hr.
  subst st1. cbv zeta.
  destruct (param_sameDist =? 1) eqn:Es.
  - cbn [distractorNumber set_seed andb].
    destruct (distractorNumber st =? 0) eqn:E0.
    + cbn [distractorNumber set_seed set_distractorNumber itemVectorsInLTM
             itemVectorsInWM seed].
      set (pg := createOverlapingRandomPattern _ _ nbItemUnits _ _).
      pose proof (overlapPattern_cells
                    (pfresh (row (itemVectorsInLTM st) (maxMemoranda + 1)))
                    (row (itemVectorsInWM st) (retrievedItem r))
                    param_itemDistractorOverlap
                    (snd (bestActivation st position indeterminate))) as Hp.
      cbv zeta in Hp. fold pg in Hp. destruct pg as [pat g].
      cbn [fst] in Hp.
      cbn [set_seed set_LTM set_WM set_var_eta itemVectorsInLTM
             distractorNumber].
      split; [reflexivity|]. intros a _ Ha.
      apply store_row_below; [|exact Ha].
      intros j Hj. apply Hp. exact Hj.
    + split; reflexivity.
  - cbn [andb].
    destruct (createOverlapingRandomPattern _ _ nbItemUnits _ _) as [pat g].
    split; [reflexivity|]. intros a Hs. apply Z.eqb_neq in Es. contradiction.
Qed.

Lemma processing_tables (st : state) (lastPosition : Z) :
  let st' := snd (processing st lastPosition) in
  positionVectors st' = positionVectors st
  /\ distractorNumber st'
     = (if (param_sameDist =? 1) && (distractorNumber st =? 0)
        then 1 else distractorNumber st)
  /\ forall a,
       a <= (maxMemoranda + distractorNumber st) * rowStride
       \/ (param_sameDist = 1 /\ a <= (maxMemoranda + 1) * rowStride) ->
       itemVectorsInLTM st' a = itemVectorsInLTM st a.
Proof.
  destruct (processing_state st lastPosition) as (_ & Hl & Hp & _ & _ & Hd).
  cbv zeta in *. set (st0 := set_globalTime _ (globalTime st + 0)%Q) in *.
  destruct (encodeDistractor_scalars st0 lastPosition) as (_ & _ & Hp' & _).
  destruct (encodeDistractor_tables st0 lastPosition) as (Hd' & Hl').
  split; [|split].
  - rewrite Hp, Hp'. reflexivity.
  - rewrite Hd, Hd'. reflexivity.
  - intros a [Ha|[Hs Ha]]; rewrite Hl.
    + apply (encodeDistractor_LTM st0 lastPosition a Ha).
    + apply (Hl' a Hs Ha).
Qed.

Lemma recall_sameTables (st : state) (lastPosition : Z) (recalled : Z -> Z) :
  sameTables st (fst (recall st lastPosition recalled)).
Proof.
  unfold recall.
  assert (G : sameTables st
                (fst (fst (for_up 1 lastPosition recallStep
                             (st, recalled, indeterminate))))).
  { apply (for_up_inv
             (fun s : state * (Z -> Z) * Z => sameTables st (fst (fst s)))).
    - apply sameTables_refl.
    - intros k s _ Hs. eapply sameTables_trans; [exact Hs|].
      destruct (recallStep_frame k s) as (_ & Hl & Hp & Hd).
      repeat split; assumption. }
  destruct (for_up 1 lastPosition recallStep (st, recalled, indeterminate))
    as [[st' rec'] b'].
  exact G.
Qed.

Lemma memorise_Done (fuel : nat) (st st' : state) (lastPosition lp' symbol : Z) :
  memorise fuel st lastPosition symbol = Done (st', lp') ->
  lp' = lastPosition + 1 /\ sameTables st st'.
Proof.
  unfold memorise. intro H.
  pose proof (encode_sameTables
                (set_lastItem st (symbol - char_code "A" + 1)) 1
                (symbol - char_code "A" + 1) (-1) (lastPosition + 1)
                presentationTime 1 ((-1) # 1)) as He.
  destruct (encode (set_lastItem st (symbol - char_code "A" + 1)) 1
              (symbol - char_code "A" + 1) (-1) (lastPosition + 1)
              presentationTime 1 ((-1) # 1) 0) as [d st1].
  cbn [snd] in He.
  destruct (Qltb d 0); [discriminate|].
  destruct (refresh fuel st1 (presentationTime - d) (lastPosition + 1))
    as [st2|] eqn:E; [|discriminate].
  inversion H; subst. split; [reflexivity|].
  apply (sameTables_trans st st1 st'); [exact He|].
  exact (refreshLoop_sameTables _ _ _ _ _ _ _ E).
Qed.

(** What a completed branch for a distractor has changed. *)
Lemma distract_Done (fuel : nat) (st st' : state) (lastPosition lp' : Z) :
  distract fuel st lastPosition = Done (st', lp') ->
  lp' = lastPosition
  /\ positionVectors st' = positionVectors st
  /\ distractorNumber st <= maxDistractors
  /\ (param_sameDist = 0 -> distractorNumber st' = distractorNumber st + 1)
  /\ (0 <= distractorNumber st -> 0 <= distractorNumber st')
  /\ (param_sameDist = 0 \/ param_sameDist = 1 ->
      0 <= distractorNumber st ->
      forall a, a <= maxMemoranda * rowStride + nbItemUnits ->
        itemVectorsInLTM st' a = itemVectorsInLTM st a).
Proof.
  unfold distract, admitDistractor. intro H.
  destruct (Z.gtb_spec (distractorNumber st) maxDistractors) as [Hcap|Hcap];
    [discriminate|].
  set (st0 := if param_sameDist =? 0
              then set_distractorNumber st (distractorNumber st + 1) else st).
  assert (E0 : (if param_sameDist =? 0
                then Done (set_distractorNumber st (distractorNumber st + 1))
                else Done st) = Done st0).
  { subst st0. destruct (param_sameDist =? 0); reflexivity. }
  rewrite E0 in H. clear E0.
  assert (Hp0 : positionVectors st0 = positionVectors st)
    by (subst st0; destruct (param_sameDist =? 0); reflexivity).
  assert (Hl0 : itemVectorsInLTM st0 = itemVectorsInLTM st)
    by (subst st0; destruct (param_sameDist =? 0); reflexivity).
  assert (Hd0 : distractorNumber st0
                = if param_sameDist =? 0 then distractorNumber st + 1
                  else distractorNumber st)
    by (subst st0; destruct (param_sameDist =? 0); reflexivity).
  destruct (processing_tables st0 lastPosition) as (Hp1 & Hd1 & Hl1).
  cbv zeta in Hp1, Hd1, Hl1.
  destruct (processing st0 lastPosition) as [d st1]. cbn [snd] in *.
  destruct (refresh fuel st1 _ lastPosition) as [st2|] eqn:E; [|discriminate].
  inversion H; subst st2 lp'. clear H.
  destruct (refreshLoop_sameTables _ _ _ _ _ _ _ E) as (Hp2 & Hl2 & Hd2).
  split; [reflexivity|]. split; [congruence|]. split; [exact Hcap|].
  split; [|split].
  - intro Hs. rewrite Hd2, Hd1, Hd0, Hs. cbn [Z.eqb andb]. reflexivity.
  - intro Hn. rewrite Hd2, Hd1, Hd0.
    assert (Hn0 : 0 <= (if param_sameDist =? 0 then distractorNumber st + 1
                        else distractorNumber st))
      by (destruct (param_sameDist =? 0); lia).
    destruct ((param_sameDist =? 1)
              && ((if param_sameDist =? 0 then distractorNumber st + 1
                   else distractorNumber st) =? 0)); [lia | exact Hn0].
  - intros Hs Hn a Ha. rewrite Hl2, <- Hl0. apply Hl1.
    rewrite Hd0. destruct Hs as [Hs|Hs]; rewrite Hs; cbn [Z.eqb].
    + left. unfold maxMemoranda, rowStride, nbItemUnits in *. lia.
    + right. split; [reflexivity|].
      unfold maxMemoranda, rowStride, nbItemUnits in *. lia.
Qed.

Lemma trialLoop_tables (fuel : nat) :
  param_sameDist = 0 \/ param_sameDist = 1 ->
  forall (stimuli : list Z) (st : state) (lp : Z) (rec : Z -> Z)
         (st' : state) (lp' : Z) (rec' : Z -> Z),
    0 <= distractorNumber st ->
    trialLoop fuel stimuli st lp rec = Done (st', lp', rec') ->
    positionVectors st' = positionVectors st
    /\ forall a, a <= maxMemoranda * rowStride + nbItemUnits ->
         itemVectorsInLTM st' a = itemVectorsInLTM st a.
Proof.
  intro Hs. induction stimuli as [|symbol rest IH];
    intros st lp rec st' lp' rec' Hn H; cbn [trialLoop] in H; [discriminate|].
  destruct ((symbol >=? char_code "A") && (symbol <=? char_code "Z")).
  - destruct (memorise fuel st lp symbol) as [[st1 lp1]| | |] eqn:Em;
      try discriminate.
    apply memorise_Done in Em. destruct Em as (_ & Hp & Hl & Hd).
    destruct (IH st1 lp1 rec st' lp' rec' ltac:(lia) H) as [Hp' Hl'].
    split; [congruence|]. intros a Ha. rewrite Hl' by exact Ha.
    rewrite Hl. reflexivity.
  - destruct ((symbol >=? char_code "0") && (symbol <=? char_code "9" + 7)).
    + destruct (distract fuel st lp) as [[st1 lp1]| | |] eqn:Ed;
        try discriminate.
      apply distract_Done in Ed.
      destruct Ed as (_ & Hp & _ & _ & Hn1 & Hl).
      destruct (IH st1 lp1 rec st' lp' rec' (Hn1 Hn) H) as [Hp' Hl'].
      split; [congruence|]. intros a Ha. rewrite Hl' by exact Ha.
      apply Hl; assumption.
    + destruct (symbol =? char_code "#"); [|discriminate].
      pose proof (recall_sameTables st lp rec) as (Hp & Hl & _).
      destruct (recall st lp rec) as [st2 rec2]. cbn [fst] in Hp, Hl.
      inversion H; subst. split; [exact Hp|]. intros a _. rewrite Hl.
      reflexivity.
Qed.

(** X20.  When the main loop of a trial runs to its end with [sameDist] at 0 or
    1, the position vectors and the LTM vectors of the memoranda are what
    they were when the loop started, whatever the stimulus. *)
Theorem trial_keeps_positions_and_memoranda :
  forall (fuel : nat) (stimuli : list Z) (st : state) (lastPosition : Z)
         (recalled : Z -> Z) (st' : state) (lp' : Z) (recalled' : Z -> Z),
    param_sameDist = 0 \/ param_sameDist = 1 ->
    0 <= distractorNumber st ->
    trialLoop fuel stimuli st lastPosition recalled = Done (st', lp', recalled') ->
    positionVectors st' = positionVectors st
    /\ forall i j, 1 <= i <= maxMemoranda -> 0 <= j <= nbItemUnits ->
         row (itemVectorsInLTM st') i j = row (itemVectorsInLTM st) i j.
Proof.
  intros fuel stimuli st lp rec st' lp' rec' Hs Hn H.
  destruct (trialLoop_tables fuel Hs stimuli st lp rec st' lp' rec' Hn H)
    as [Hp Hl].
  split; [exact Hp|]. intros i j Hi Hj. unfold row. apply Hl.
  unfold maxMemoranda, rowStride, nbItemUnits in *. lia.
Qed.

Lemma countIf_cons (f : Z -> bool) (s : Z) (l : list Z) :
  countIf f (s :: l) = (if f s then 1 else 0) + countIf f l.
Proof.
  unfold countIf. cbn [filter]. destruct (f s); cbn [List.length]; lia.
Qed.

Lemma countIf_app (f : Z -> bool) (l1 l2 : list Z) :
  countIf f (l1 ++ l2) = countIf f l1 + countIf f l2.
Proof.
  unfold countIf. rewrite filter_app, length_app. lia.
Qed.

Lemma countIf_nonneg (f : Z -> bool) (l : list Z) : 0 <= countIf f l.
Proof. unfold countIf. lia. Qed.

(** The main loop over a run of letters and digits. *)
Lemma trialLoop_prefix (fuel : nat) :
  forall (body rest : list Z) (st : state) (lp : Z) (rec : Z -> Z)
         (r : state * Z * (Z -> Z)),
    (forall s, In s body -> isMemorandum s = true \/ isOperation s = true) ->
    trialLoop fuel (body ++ rest) st lp rec = Done r ->
    exists st1,
      trialLoop fuel rest st1 (lp + countIf isMemorandum body) rec = Done r
      /\ (param_sameDist = 0 ->
          distractorNumber st1
          = distractorNumber st + countIf isOperation body
          /\ (0 < countIf isOperation body ->
              distractorNumber st1 <= maxDistractors + 1)).
Proof.
  induction body as [|s body IH]; intros rest st lp rec r Hall H.
  - exists st. cbn [app] in H. unfold countIf. cbn.
    replace (lp + 0) with lp by lia. split; [exact H|].
    intros _. split; lia.
  - cbn [app trialLoop] in H. rewrite !countIf_cons.
    assert (Hrest : forall s', In s' body ->
                      isMemorandum s' = true \/ isOperation s' = true)
      by (intros s' Hs'; apply Hall; right; exact Hs').
    fold (isMemorandum s) in H. fold (isOperation s) in H.
    destruct (isMemorandum s) eqn:Em.
    + assert (Eo : isOperation s = false).
      { unfold isMemorandum, isOperation in *.
        change (char_code "A") with 65 in Em. change (char_code "0") with 48.
        change (char_code "9") with 57. lia. }
      rewrite Eo.
      destruct (memorise fuel st lp s) as [[st1 lp1]| | |] eqn:E;
        try discriminate.
      apply memorise_Done in E. destruct E as (-> & _ & _ & Hd).
      destruct (IH rest st1 (lp + 1) rec r Hrest H) as (st2 & H2 & Hd2).
      exists st2. split.
      * replace (lp + (1 + countIf isMemorandum body))
          with (lp + 1 + countIf isMemorandum body) by lia. exact H2.
      * intro Hs. destruct (Hd2 Hs) as [Hc Hb]. rewrite Hd in Hc.
        split; [lia|]. intro Hpos. apply Hb. lia.
    + destruct (Hall s (or_introl eq_refl)) as [Hm|Ho]; [congruence|].
      rewrite Ho in H |- *.
      destruct (distract fuel st lp) as [[st1 lp1]| | |] eqn:E;
        try discriminate.
      apply distract_Done in E. destruct E as (-> & _ & Hcap & Hd & _).
      destruct (IH rest st1 lp rec r Hrest H) as (st2 & H2 & Hd2).
      exists st2. split.
      * replace (lp + (0 + countIf isMemorandum body))
          with (lp + countIf isMemorandum body) by lia. exact H2.
      * intro Hs. destruct (Hd2 Hs) as [Hc Hb]. rewrite (Hd Hs) in Hc.
        split; [lia|]. intros _.
        pose proof (countIf_nonneg isOperation body) as Hnn.
        destruct (Z.eq_dec (countIf isOperation body) 0) as [Hz|Hz].
        -- lia.
        -- apply Hb. lia.
Qed.

Lemma digits_count (f : Z -> bool) (b : bool) :
  forall l : list Z,
    (forall j, In j l -> f (j + char_code "0") = b) ->
    countIf f (flat_map (fun j => [j + char_code "0"]) l)
    = if b then Z.of_nat (List.length l) else 0.
Proof.
  induction l as [|j l IH]; intro H.
  - destruct b; reflexivity.
  - cbn [flat_map app]. rewrite countIf_cons, IH.
    + rewrite (H j (or_introl eq_refl)). destruct b; cbn [List.length]; lia.
    + intros j' Hj'. apply H. right. exact Hj'.
Qed.

Lemma zseq_length : forall (n : nat) (lo : Z), List.length (zseq lo n) = n.
Proof.
  induction n as [|n IH]; intro lo; cbn [zseq List.length]; [reflexivity|].
  rewrite IH. reflexivity.
Qed.

Lemma stimulusBlock_count (i : Z) :
  0 <= i <= 25 -> 0 <= nbop <= 16 ->
  countIf isMemorandum (stimulusBlock cfg i) = 1
  /\ countIf isOperation (stimulusBlock cfg i) = nbop
  /\ forall s, In s (stimulusBlock cfg i) ->
       isMemorandum s = true \/ isOperation s = true.
Proof.
  intros Hi Ho. unfold stimulusBlock.
  assert (Hd : forall j, In j (zseq 1 (Z.to_nat nbop)) ->
                 isMemorandum (j + char_code "0") = false
                 /\ isOperation (j + char_code "0") = true).
  { intros j Hj. apply zseq_In in Hj. unfold isMemorandum, isOperation.
    change (char_code "A") with 65. change (char_code "0") with 48.
    change (char_code "9") with 57. change (char_code "Z") with 90. lia. }
  assert (Hl : isMemorandum (65 + i) = true /\ isOperation (65 + i) = false).
  { unfold isMemorandum, isOperation.
    change (char_code "A") with 65. change (char_code "0") with 48.
    change (char_code "9") with 57. change (char_code "Z") with 90. lia. }
  destruct Hl as [Hl1 Hl2].
  split; [|split].
  - cbn [app]. rewrite countIf_cons, Hl1.
    rewrite (digits_count isMemorandum false); [lia|].
    intros j Hj. apply Hd. exact Hj.
  - cbn [app]. rewrite countIf_cons, Hl2.
    rewrite (digits_count isOperation true).
    + rewrite zseq_length. lia.
    + intros j Hj. apply Hd. exact Hj.
  - intros s Hs. cbn [app] in Hs. destruct Hs as [<-|Hs]; [left; exact Hl1|].
    apply in_flat_map in Hs. destruct Hs as (j & Hj & [<-|[]]).
    right. apply Hd. exact Hj.
Qed.

Lemma blocks_count : forall (n : nat) (lo : Z),
  0 <= lo -> lo + Z.of_nat n <= 26 -> 0 <= nbop <= 16 ->
  let body := flat_map (stimulusBlock cfg) (zseq lo n) in
  countIf isMemorandum body = Z.of_nat n
  /\ countIf isOperation body = Z.of_nat n * nbop
  /\ forall s, In s body -> isMemorandum s = true \/ isOperation s = true.
Proof.
  induction n as [|n IH]; intros lo Hlo Hhi Ho; cbn [zseq flat_map].
  - cbv zeta. repeat split; intros s [].
  - cbv zeta.
    destruct (stimulusBlock_count lo ltac:(lia) Ho) as (Hm & Hop & Hall).
    destruct (IH (lo + 1) ltac:(lia) ltac:(lia) Ho) as (Hm' & Hop' & Hall').
    cbv zeta in Hm', Hop', Hall'.
    rewrite !countIf_app, Hm, Hop, Hm', Hop'. split; [lia|]. split; [lia|].
    intros s Hs. apply in_app_or in Hs. destruct Hs as [Hs|Hs].
    + apply Hall. exact Hs.
    + apply Hall'. exact Hs.
Qed.

(** X21.  A trial that runs to its end on the stimulus of [main], with at most
    26 memoranda and 16 operations, has encoded [nbmemo] positions.  With
    distinct distractors it has created nbmemo * nbop of them, and it can
    only have run to its end when that number is at most
    maxDistractors + 1. *)
Theorem completed_trial_has_nbmemo_positions :
  forall (fuel : nat) (st : state) (recalled : Z -> Z)
         (st' : state) (lp' : Z) (recalled' : Z -> Z),
    0 <= nbmemo <= 26 -> 0 <= nbop <= 16 ->
    distractorNumber st = 0 ->
    trialLoop fuel (makeStimuli cfg) st 0 recalled = Done (st', lp', recalled') ->
    lp' = nbmemo
    /\ (param_sameDist = 0 ->
        distractorNumber st' = nbmemo * nbop
        /\ nbmemo * nbop <= maxDistractors + 1).
Proof.
  intros fuel st rec st' lp' rec' Hm Ho Hd0 H.
  rewrite makeStimuli_eq in H.
  destruct (blocks_count (Z.to_nat nbmemo) 0 ltac:(lia) ltac:(lia) Ho)
    as (Hcm & Hco & Hall). cbv zeta in Hcm, Hco, Hall.
  destruct (trialLoop_prefix fuel _ _ st 0 rec _ Hall H) as (st1 & H1 & Hd1).
  rewrite Hcm in H1. cbn [trialLoop] in H1.
  change ((char_code "#" >=? char_code "A") && (char_code "#" <=? char_code "Z"))
    with false in H1.
  change ((char_code "#" >=? char_code "0")
          && (char_code "#" <=? char_code "9" + 7)) with false in H1.
  rewrite Z.eqb_refl in H1.
  pose proof (recall_sameTables st1 (0 + Z.of_nat (Z.to_nat nbmemo)) rec)
    as (_ & _ & Hdr).
  destruct (recall st1 (0 + Z.of_nat (Z.to_nat nbmemo)) rec) as [st2 rec2].
  cbn [fst] in Hdr. inversion H1; subst st2 lp' rec2. clear H1.
  split; [lia|]. intro Hs. destruct (Hd1 Hs) as [Hc Hb].
  rewrite Hco in Hc, Hb. rewrite Hdr, Hc, Hd0. split; [lia|].
  destruct (Z.eq_dec (nbmemo * nbop) 0) as [Hz|Hz].
  - rewrite Hz. unfold maxDistractors. lia.
  - assert (Hpos : 0 < Z.of_nat (Z.to_nat nbmemo) * nbop) by nia.
    specialize (Hb Hpos). rewrite Hc, Hd0 in Hb. lia.
Qed.

(** X22.  With more than 26 memoranda no trial runs to its end: the symbol of
    the 27th memorandum is past [Z], and the main loop stops on it at the
    latest. *)
Theorem trial_with_more_than_26_memoranda_never_completes :
  forall (fuel : nat) (st : state) (lastPosition : Z) (recalled : Z -> Z)
         (r : state * Z * (Z -> Z)),
    26 < nbmemo -> 0 <= nbop <= 16 ->
    trialLoop fuel (makeStimuli cfg) st lastPosition recalled <> Done r.
Proof.
  intros fuel st lp rec r Hm Ho H. rewrite makeStimuli_eq in H.
  set (m := Z.to_nat (nbmemo - 27)).
  replace (Z.to_nat nbmemo) with (26 + S m)%nat in H by lia.
  rewrite zseq_app in H.
  change (zseq (0 + Z.of_nat 26) (S m))
    with ((0 + Z.of_nat 26) :: zseq (0 + Z.of_nat 26 + 1) m) in H.
  rewrite flat_map_app in H. rewrite <- app_assoc in H.
  destruct (blocks_count 26 0 ltac:(lia) ltac:(lia) Ho) as (_ & _ & Hall).
  cbv zeta in Hall.
  destruct (trialLoop_prefix fuel _ _ st lp rec r Hall H) as (st1 & H1 & _).
  cbn [flat_map] in H1. unfold stimulusBlock in H1 at 1.
  cbn [app trialLoop] in H1.
  change (0 + Z.of_nat 26) with 26 in H1.
  change ((65 + 26 >=? char_code "A") && (65 + 26 <=? char_code "Z"))
    with false in H1.
  change ((65 + 26 >=? char_code "0") && (65 + 26 <=? char_code "9" + 7))
    with false in H1.
  change (65 + 26 =? char_code "#") with false in H1.
  discriminate.
Qed.

End TrialLoopFacts.

(** ** Score and display *)

Lemma correctBelow_step (recalled : Z -> Z) (k : Z) :
  0 <= k ->
  correctBelow recalled (k + 1)
  = if recalled k =? char_code "A" + k
    then correctBelow recalled k + 1 else correctBelow recalled k.
Proof.
  intro Hk. unfold correctBelow.
  rewrite (for_up_last _ 0 (k + 1 - 1)) by lia.
  replace (k + 1 - 1) with k by lia. reflexivity.
Qed.

Lemma correctBelow_bounds (recalled : Z -> Z) (k : Z) :
  0 <= k ->
  0 <= correctBelow recalled k <= k
  /\ (correctBelow recalled k = k
      <-> forall i, 0 <= i < k -> recalled i = char_code "A" + i).
Proof.
  intro Hk. pattern k. apply natlike_ind; [| |exact Hk].
  - unfold correctBelow. rewrite for_up_empty by lia.
    split; [lia|]. split; [intros; lia | reflexivity].
  - clear k Hk. intros k Hk [Hb Hiff]. unfold Z.succ.
    rewrite correctBelow_step by exact Hk.
    destruct (Z.eqb_spec (recalled k) (char_code "A" + k)) as [E|E].
    + split; [lia|]. split.
      * intros Hc i Hi. destruct (Z.eq_dec i k) as [->|Hne]; [exact E|].
        apply Hiff; lia.
      * intro Hall. assert (correctBelow recalled k = k); [|lia].
        apply Hiff. intros i Hi. apply Hall. lia.
    + split; [lia|]. split; [lia|].
      intro Hall. exfalso. apply E. apply Hall. lia.
Qed.

Lemma compareStimAndRecalled_eq (recalled : Z -> Z) (lastPosition : Z)
    (res : vec) :
  0 <= lastPosition ->
  fst (compareStimAndRecalled recalled lastPosition res)
  = (inject_Z (correctBelow recalled lastPosition) / inject_Z lastPosition)%Q
  /\ forall k,
       snd (compareStimAndRecalled recalled lastPosition res) k
       = if ((1 <=? k) && (k <=? lastPosition))
            && (recalled (k - 1) =? char_code "A" + (k - 1))
         then (res k + 1)%Q else res k.
Proof.
  intro Hlp. unfold compareStimAndRecalled.
  assert (G : (fun c (s : Z * vec) =>
                 fst s = correctBelow recalled c
                 /\ forall k,
                      snd s k
                      = if ((1 <=? k) && (k <=? c))
                           && (recalled (k - 1) =? char_code "A" + (k - 1))
                        then (res k + 1)%Q else res k)
                (lastPosition - 1 + 1)
                (for_up 0 (lastPosition - 1)
                   (fun i '(sommeOrdre, res) =>
                      if recalled i =? char_code "A" + i
                      then (sommeOrdre + 1, vset res (i + 1) (res (i + 1)%Z + 1)%Q)
                      else (sommeOrdre, res))
                   (0, res))).
  { apply for_up_ind.
    - lia.
    - cbn [fst snd]. split.
      + unfold correctBelow. rewrite for_up_empty by lia. reflexivity.
      + intro k. destruct (1 <=? k) eqn:E1; [|reflexivity].
        destruct (k <=? 0) eqn:E2; [lia | reflexivity].
    - intros c [n r] Hc [Hn Hr]. cbn [fst snd] in Hn, Hr.
      rewrite correctBelow_step by lia.
      destruct (recalled c =? char_code "A" + c) eqn:E; cbn [fst snd].
      + split; [lia|]. intro k. rewrite vset_eq.
        destruct (Z.eqb_spec k (c + 1)) as [->|Hne].
        * replace (c + 1 - 1) with c by lia. rewrite E.
          replace (1 <=? c + 1) with true by lia.
          replace (c + 1 <=? c + 1) with true by lia. cbn [andb].
          rewrite Hr. replace (c + 1 <=? c) with false by lia.
          rewrite andb_false_r. reflexivity.
        * rewrite Hr. replace (k <=? c + 1) with (k <=? c) by lia.
          reflexivity.
      + split; [exact Hn|]. intro k. rewrite Hr.
        destruct (Z.eqb_spec k (c + 1)) as [->|Hne].
        * replace (c + 1 - 1) with c by lia. rewrite E.
          replace (c + 1 <=? c) with false by lia.
          rewrite !andb_false_r. reflexivity.
        * replace (k <=? c + 1) with (k <=? c) by lia. reflexivity. }
  replace (lastPosition - 1 + 1) with lastPosition in G by lia.
  destruct (for_up 0 (lastPosition - 1) _ (0, res)) as [n r].
  cbn [fst snd] in *. destruct G as [Hn Hr]. rewrite Hn. split; [reflexivity|].
  exact Hr.
Qed.

(** X23.  For a sequence of at least one position, [compareStimAndRecalled]
    returns a proportion between 0 and 1, and 1 exactly when every position
    holds its own letter. *)
Theorem compareStimAndRecalled_is_a_proportion :
  forall (recalled : Z -> Z) (lastPosition : Z) (res : vec),
    1 <= lastPosition ->
    let score := fst (compareStimAndRecalled recalled lastPosition res) in
    (0 <= score)%Q /\ (score <= 1)%Q
    /\ ((score == 1)%Q
        <-> forall i, 0 <= i < lastPosition -> recalled i = char_code "A" + i).
Proof.
  intros recalled lp res Hlp score. subst score.
  destruct (compareStimAndRecalled_eq recalled lp res ltac:(lia)) as [Hs _].
  rewrite Hs.
  destruct (correctBelow_bounds recalled lp ltac:(lia)) as [Hb Hiff].
  assert (Hpos : (0 < inject_Z lp)%Q).
  { change 0%Q with (inject_Z 0). rewrite <- Zlt_Qlt. lia. }
  split; [|split].
  - apply Qle_shift_div_l; [exact Hpos|]. rewrite Qmult_0_l.
    change 0%Q with (inject_Z 0). rewrite <- Zle_Qle. lia.
  - apply Qle_shift_div_r; [exact Hpos|]. rewrite Qmult_1_l.
    rewrite <- Zle_Qle. lia.
  - rewrite <- Hiff. split.
    + intro H.
      assert (H' : (inject_Z (correctBelow recalled lp) == inject_Z lp)%Q).
      { rewrite <- (Qmult_div_r (inject_Z (correctBelow recalled lp))
                       (inject_Z lp)) by lra.
        rewrite H. ring. }
      exact (proj1 (inject_Z_injective _ _) H').
    + intro H. rewrite H. field. lra.
Qed.


(** X25.  [name] and [recall] give an item the same character exactly when the
    item is a memorandum: a distractor is shown as a digit or [#] by [name]
    and written as a letter or [*] by [recall]. *)
Theorem name_agrees_with_recall_on_memoranda_only :
  forall code : Z,
    1 <= code ->
    (name code = recallSymbol code <-> code <= maxMemoranda).
Proof.
  intros code H1. unfold name, recallSymbol, maxMemoranda.
  change (char_code "A") with 65. change (char_code "*") with 42.
  change (char_code "1") with 49. change (char_code "#") with 35.
  replace (code >=? 1) with true by lia. cbn [andb].
  destruct (Z.leb_spec code 10) as [Hc|Hc].
  - replace (code <? 26) with true by lia.
    replace (code <=? 26) with true by lia. split; [intros _; exact Hc|].
    reflexivity.
  - cbv zeta. split; [|lia]. intro H. exfalso.
    destruct (code - 10 <? 10) eqn:E1; destruct (code <=? 26) eqn:E2; lia.
Qed.

(** ** Set-up, and the trial as a whole *)

Section SetupMore.
Context {libc : Libc}.



End SetupMore.

Section TrialMore.
Context {libc : Libc} {cfg : params}.

(** X27.  The branch of the main loop for a memorandum ends the run with an
    error exactly when the duration of the encoding is negative, that is
    when [logTauE] or [presentationTime] is negative; otherwise it goes on
    to the refresh. *)
Theorem memorise_reports_an_error_iff_the_duration_is_negative :
  forall (fuel : nat) (st : state) (lastPosition symbol : Z),
    (exists msg, memorise fuel st lastPosition symbol = Exit msg)
    <-> (logTauE < 0)%Q \/ (presentationTime < 0)%Q.
Proof.
  intros fuel st lp symbol. unfold memorise.
  rewrite encode_memorandum_eq by discriminate. cbv zeta.
  cbn [set_lastItem seed].
  destruct (initial_duration_sign (seed st)) as [_ Hsign]. cbv zeta in Hsign.
  set (d := if Qgtb (logTauE / fst (drawRate param_R (seed st))) presentationTime
            then presentationTime
            else (logTauE / fst (drawRate param_R (seed st)))%Q) in *.
  destruct (Qltb d 0) eqn:E.
  - apply Qltb_true in E. split.
    + intros _. apply Hsign. exact E.
    + intros _. eexists. reflexivity.
  - apply Qltb_false in E. split.
    + intros [msg H]. destruct (refresh fuel _ _ _); discriminate.
    + intro H. apply Hsign in H. lra.
Qed.

(** X28.  The value of [sameDist] is not checked.  With a value other than 0
    and 1 no distractor number is allocated, and the first [processing] of
    a trial writes its pattern over the LTM vector of the last memorandum:
    every dimension of row [maxMemoranda] becomes the sentinel. *)
Theorem unchecked_sameDist_overwrites_the_last_memorandum :
  forall (st : state) (lastPosition j : Z),
    param_sameDist <> 0 -> param_sameDist <> 1 ->
    distractorNumber st = 0 ->
    1 <= j <= nbItemUnits ->
    row (itemVectorsInLTM (snd (processing st lastPosition))) maxMemoranda j
    = sentinel.
Proof.
  intros st lp j H0 H1 Hd Hj.
  destruct (processing_state st lp) as (_ & Hl & _). cbv zeta in Hl.
  rewrite Hl. set (st0 := set_globalTime _ (globalTime st + 0)%Q).
  unfold encodeDistractor.
  pose proof (retrieve_refresh_state st0 lp 1 indeterminate
                ltac:(discriminate)) as Hr.
  destruct (retrieve st0 lp 1 indeterminate) as [r st1]. cbn [snd] in Hr.
  subst st1. cbv zeta. apply Z.eqb_neq in H1. rewrite H1.
  cbn [distractorNumber set_seed itemVectorsInLTM itemVectorsInWM seed].
  assert (Hd0 : distractorNumber st0 = 0) by (subst st0; exact Hd).
  rewrite Hd0.
  set (pg := createOverlapingRandomPattern _ _ nbItemUnits _ _).
  assert (Hp : forall k, 1 <= k <= nbItemUnits -> cells (fst pg) k = sentinel).
  { intros k Hk. subst pg. apply overlapPattern_cells. exact Hk. }
  destruct pg as [pat g]. cbn [fst] in Hp.
  cbn [set_seed set_LTM set_WM set_var_eta itemVectorsInLTM].
  unfold row, store_row. apply Hp. lia.
Qed.

(** X29.  At the end of a trial that runs to its end, with [PRESET] not at 0
    and [sameDist] at 0 or 1, the LTM vectors of the memoranda are still
    the rows of the embeddings table. *)
Theorem completed_trial_keeps_the_embeddings_in_LTM :
  forall (fuel : nat) (embeddingsList : mat Q) (st : state) (recalled : Z -> Z)
         (st' : state) (lp' : Z) (recalled' : Z -> Z) (i j : Z),
    PRESET <> 0 ->
    param_sameDist = 0 \/ param_sameDist = 1 ->
    1 <= i <= maxMemoranda -> 1 <= j <= nbItemUnits ->
    trial fuel embeddingsList st recalled = Done (st', lp', recalled') ->
    row (itemVectorsInLTM st') i j = embeddingsList (i - 1) (j - 1).
Proof.
  intros fuel tbl st rec st' lp' rec' i j HP Hs Hi Hj H. unfold trial in H.
  destruct (generatePositionRepresentations (positionVectors st) (seed st))
    as [pv g].
  pose proof (generateItemRepresentations_preset tbl (itemVectorsInLTM st) g
                HP i j Hi Hj) as Hgen.
  destruct (generateItemRepresentations tbl (itemVectorsInLTM st) g)
    as [ltm g']. cbn [fst] in Hgen.
  match type of H with
  | trialLoop _ _ ?s _ _ = _ =>
      destruct (trialLoop_tables fuel Hs _ s 0 rec st' lp' rec'
                  ltac:(cbn; lia) H) as [_ Hl]
  end.
  unfold row. rewrite Hl.
  - exact Hgen.
  - unfold maxMemoranda, rowStride, nbItemUnits in *. lia.
Qed.

End TrialMore.

(** * The theorems at concrete inputs *)

Lemma retrieve_noise_scale_truncated_at_default :
  noiseScale (cfg := default_params) = 0
  /\ (activation (libc := Sample.libc) (cfg := default_params)
        Sample.positions (fun _ _ => 1 # 9) 1 1 0
      == positionActivation Sample.positions (fun _ _ => 1 # 9) 1 1)%Q.
Proof.
  destruct (retrieve_noise_scale_truncated (libc := Sample.libc)
              (cfg := default_params) eq_refl eq_refl) as [H0 H1].
  split; [exact H0 | apply H1].
Defined.

Lemma createOverlapingRandomPattern_all_sentinel_at_first_cell :
  cells (fst (createOverlapingRandomPattern (libc := Sample.libc)
                (cfg := default_params) (pfresh (fun _ => 0%Q))
                (fun _ => 1 # 2) nbItemUnits (4 # 10) 0)) 1
  = sentinel.
Proof.
  apply (createOverlapingRandomPattern_all_sentinel (libc := Sample.libc)
           (cfg := default_params)).
  unfold nbItemUnits. lia.
Defined.

Lemma distractor_capacity_check_off_by_one_at_full_house :
  admitDistractor (cfg := default_params) Sample.fullHouse
  = Done (set_distractorNumber Sample.fullHouse (maxDistractors + 1))
  /\ maxItem < maxMemoranda + (maxDistractors + 1).
Proof.
  destruct (distractor_capacity_check_off_by_one (libc := Sample.libc)
              (cfg := default_params) Sample.fullHouse eq_refl eq_refl)
    as (Hadmit & Hindex & _).
  split; [exact Hadmit | exact Hindex].
Defined.

Lemma retrieval_below_threshold_is_no_item_at_blank :
  retrievedItem (fst (retrieve (libc := Sample.libc) (cfg := default_params)
                        Sample.blank 1 1 0)) = 0
  /\ snd (recall (libc := Sample.libc) (cfg := default_params)
            Sample.blank 1 (fun _ => 0)) 0
     = char_code ".".
Proof.
  destruct (retrieval_below_threshold_is_no_item (libc := Sample.libc)
              (cfg := default_params)) as [Hretrieve Hrecall].
  split.
  - apply Hretrieve. vm_compute. reflexivity.
  - specialize (Hrecall Sample.blank (fun _ => 0) 1 1 ltac:(lia)).
    change (recallBefore (libc := Sample.libc) (cfg := default_params)
              Sample.blank (fun _ => 0) 1)
      with (Sample.blank, (fun _ : Z => 0), 0) in Hrecall.
    cbv beta iota zeta in Hrecall.
    apply Hrecall. vm_compute. reflexivity.
Defined.

Lemma retrieve_returns_first_closest_LTM_item_at_two_distractors :
  1 <= retrievedItem (fst (retrieve (libc := Sample.libc) (cfg := default_params)
                             Sample.twoDistractors 1 0 0))
    <= maxMemoranda + 2.
Proof.
  pose proof (retrieve_returns_first_closest_LTM_item (libc := Sample.libc)
                (cfg := default_params) Sample.twoDistractors 1 0 0) as H.
  cbv zeta in H.
  apply H.
  - intro Hlow. vm_compute in Hlow. discriminate Hlow.
  - exists 11. split; [vm_compute; split; discriminate|].
    vm_compute. reflexivity.
Defined.

Lemma recall_suppresses_retrieved_item_at_two_distractors :
  let r := fst (retrieve (libc := Sample.libc) (cfg := default_params)
                  Sample.twoDistractors 1 0 0) in
  let duration :=
    if Qgtb (retrievalDuration r) 5 then 5%Q else retrievalDuration r in
  let decayed :=
    decay (itemPositionMatrix Sample.twoDistractors)
      (Sample.exp_approx (- (5 # 10) * duration)) (-1) in
  itemPositionMatrix
    (fst (fst (recallStep (libc := Sample.libc) (cfg := default_params) 1
                 (Sample.twoDistractors, (fun _ => 0), 0)))) 11 1
  = (decayed 11%Z 1%Z - (1 # 9) * activationMax r)%Q.
Proof.
  pose proof (recall_suppresses_retrieved_item (libc := Sample.libc)
                (cfg := default_params) Sample.twoDistractors (fun _ => 0) 0 1) as H.
  cbv zeta in H. cbv zeta.
  rewrite H; [reflexivity|].
  vm_compute. reflexivity.
Defined.

(** C2, the claim as stated fails.  Two distractors exist and the second
    one (item 12) is the only item associated with position 1.  [retrieve]
    finds item 12 as the best WM item and returns item 11, whose LTM vector is
    as close to the WM vector of item 12 (both are all sentinel) and comes
    first.  The WM vector of item 12 is not zero at unit 1, yet its association
    with unit 1 is left as the decay leaves it: nothing is subtracted. *)
Lemma recall_suppression_misses_best_WM_item :
  let r := fst (retrieve (libc := Sample.libc) (cfg := default_params)
                  Sample.twoDistractors 1 0 0) in
  let duration :=
    if Qgtb (retrievalDuration r) 5 then 5%Q else retrievalDuration r in
  let decayed :=
    decay (itemPositionMatrix Sample.twoDistractors)
      (Sample.exp_approx (- (5 # 10) * duration)) (-1) in
  let st' :=
    fst (fst (recallStep (libc := Sample.libc) (cfg := default_params) 1
                (Sample.twoDistractors, (fun _ => 0), 0))) in
  (5 # 100 < activationMax r)%Q
  /\ bestWMItem r = 12
  /\ retrievedItem r = 11
  /\ Qneqb (row (itemVectorsInWM Sample.twoDistractors) 12 1) 0 = true
  /\ itemPositionMatrix st' 12 1 = decayed 12 1
  /\ ~ (itemPositionMatrix st' 12%Z 1%Z
        == decayed 12%Z 1%Z - (1 # 9) * activationMax r)%Q.
Proof.
  cbv zeta. repeat split; try (vm_compute; reflexivity).
  intro H. vm_compute in H. discriminate H.
Defined.

Lemma embeddings_table_is_required_at_samples :
  row (fst (generateItemRepresentations (libc := Sample.libc)
              (cfg := Sample.randomItems) (fun _ _ => 7 # 10) (fun _ => 0%Q) 0))
    1 1
  = uniform01 (libc := Sample.libc) 0
  /\ row (fst (generateItemRepresentations (libc := Sample.libc)
                 (cfg := default_params) (fun _ _ => 7 # 10) (fun _ => 0%Q) 0))
       1 1
     = 7 # 10.
Proof.
  destruct (embeddings_table_is_required (libc := Sample.libc))
    as (Hrandom & Hpreset & _).
  split.
  - apply (Hrandom Sample.randomItems (fun _ _ => 7 # 10) (fun _ => 0%Q) 0%nat 1 1);
      [reflexivity | unfold maxMemoranda; lia | unfold nbItemUnits; lia].
  - apply (Hpreset default_params (fun _ _ => 7 # 10) (fun _ => 0%Q) 0%nat 1 1);
      [discriminate | unfold maxMemoranda; lia | unfold nbItemUnits; lia].
Defined.

(** C8, the claim as stated fails.  Without the embeddings file the run stops
    in [main] before any vector is generated, whatever the flags: the source
    of the embeddings is not optional. *)
Lemma run_stops_without_embeddings_file :
  setup (libc := Sample.libc) None [] Sample.randomItems
  = Exit "Error opening file"
  /\ exists table c,
       setup (libc := Sample.libc) (Some (fun _ _ => 7 # 10)) [] default_params
       = Done (table, c)
       /\ @PRESET c = 1.
Proof.
  split; [reflexivity|].
  exists (fun _ _ => 7 # 10), default_params. split; reflexivity.
Defined.


Lemma refresh_terminates_at_steady_rates :
  exists fuel st',
    refresh (libc := Sample.libc) (cfg := Sample.steadyRates) fuel
      Sample.blank (1 # 1) 1
    = Some st'.
Proof.
  apply (refresh_terminates_when_the_budget_registers_the_duration
           (libc := Sample.libc) (cfg := Sample.steadyRates) (6 # 1)
           (1 # 16777216) (2 ^ (-150))%Q).
  - vm_compute. discriminate.
  - vm_compute. reflexivity.
  - intro g. apply (drawRate_steady (libc := Sample.libc)
                      (cfg := Sample.steadyRates)).
    + reflexivity.
    + vm_compute. discriminate.
  - split; vm_compute; discriminate.
  - vm_compute. discriminate.
  - intros x Hx. apply (binary32_error x Hx).
  - intros x Hx. apply (binary32_nonpos x Hx).
  - lia.
  - intros x Hx. apply (binary32_error x (proj1 Hx)).
  - vm_compute. reflexivity.
Defined.

(** C10, the claim as stated fails, and what the amended statement asks for
    cannot be left out.  With [Tr 0] on the command line [var_tauR] is
    [1 - exp(0)] = 0 and the duration of every reencoding is [-log(1)/r] = 0:
    a budget of one second is never used up, whatever the number of passes.
    With [s 0] on the command line and a budget of [10^9] seconds the
    duration is positive, but the float nearest to the budget less the
    duration is the budget: the time left never changes. *)
Lemma refresh_never_ends_without_refresh_time_or_with_a_huge_budget :
  (0 < 1 # 1)%Q
  /\ (forall fuel,
         refresh (libc := Sample.libc) (cfg := Sample.noRefreshTime) fuel
           Sample.blank (1 # 1) 1
         = None)
  /\ (0 < windowDuration (libc := Sample.libc) (cfg := Sample.steadyRates)
            Sample.blank (1000000000 # 1) 1 0)%Q
  /\ (forall fuel,
         refresh (libc := Sample.libc) (cfg := Sample.steadyRates) fuel
           Sample.blank (1000000000 # 1) 1
         = None).
Proof.
  split; [reflexivity|]. split; [|split].
  - intro fuel. unfold refresh.
    apply (refreshLoop_no_progress (libc := Sample.libc)
             (cfg := Sample.noRefreshTime)); [reflexivity|].
    apply (sample_pass_stalls Sample.noRefreshTime (1 # 1) 0);
      [reflexivity | | vm_compute; split; reflexivity].
    intro g. apply Qzero_div. vm_compute. reflexivity.
  - vm_compute. reflexivity.
  - intro fuel. unfold refresh.
    apply (refreshLoop_no_progress (libc := Sample.libc)
             (cfg := Sample.steadyRates)); [reflexivity|].
    apply (sample_pass_stalls Sample.steadyRates (1000000000 # 1)
             (reencodingCriterion (libc := Sample.libc)
                (cfg := Sample.steadyRates) / (6 # 1)));
      [reflexivity | | vm_compute; split; reflexivity].
    intro g.
    rewrite (drawRate_steady_eq (libc := Sample.libc)
               (cfg := Sample.steadyRates) param_R g);
      [reflexivity | reflexivity | vm_compute; discriminate].
Defined.

(** * The further properties at concrete inputs *)

Lemma interfere_stays_between_old_and_new_at_halves :
  (0 <= interfere Sample.zeros Sample.halves (1 # 2) 1%Z)%Q
  /\ (interfere Sample.zeros Sample.halves (1 # 2) 1%Z <= 1)%Q.
Proof.
  apply (interfere_stays_between_old_and_new Sample.zeros Sample.halves (1 # 2) 0 1 1);
    vm_compute; discriminate.
Defined.

Lemma interfere_with_weight_zero_keeps_the_old_vector_at_halves :
  (interfere Sample.zeros Sample.halves 0 1%Z == Sample.zeros 1%Z)%Q.
Proof.
  apply (interfere_with_weight_zero_keeps_the_old_vector Sample.zeros Sample.halves 0 1).
  reflexivity.
Defined.

Lemma strengthen_moves_active_units_toward_L_at_blank :
  (0 <= strengthen (cfg := default_params) Sample.positions (fun _ _ => 0%Q)
          1%Z 1%Z (1 # 2) 1%Z 1%Z)%Q
  /\ (strengthen (cfg := default_params) Sample.positions (fun _ _ => 0%Q)
        1%Z 1%Z (1 # 2) 1%Z 1%Z <= 1 # 9)%Q.
Proof.
  destruct (strengthen_moves_active_units_toward_L (cfg := default_params)
              Sample.positions (fun _ _ => 0%Q) 1 1 (1 # 2) 1 1)
    as (_ & Hlow & Hhigh); try (vm_compute; discriminate).
  split; [exact Hlow | exact Hhigh].
Defined.


Lemma shuffle_permutes_its_window_at_three_cells :
  exists sigma tau : Z -> Z,
    (forall x, sigma (tau x) = x)
    /\ (forall x, tau (sigma x) = x)
    /\ (forall x, x < 1 \/ 1 + 3 < x -> sigma x = x)
    /\ forall x,
         cells (fst (shuffle (libc := Sample.libc) (pfresh inject_Z) 1 3 0)) x
         = inject_Z (sigma x).
Proof.
  apply (shuffle_permutes_its_window (libc := Sample.libc) (pfresh inject_Z)
           1 3 0).
  lia.
Defined.

Lemma generateItemRepresentations_clears_distractors_at_samples :
  row (fst (generateItemRepresentations (libc := Sample.libc)
              (cfg := default_params) Sample.identityTable Sample.zeros 0)) 11 1
  = sentinel.
Proof.
  apply (generateItemRepresentations_clears_distractors (libc := Sample.libc)
           (cfg := default_params));
    [unfold maxItem, maxMemoranda, maxDistractors | unfold nbItemUnits]; lia.
Defined.

Lemma initial_encoding_copies_the_LTM_vector_at_blank :
  itemVectorsInWM
    (snd (encode (libc := Sample.libc) (cfg := default_params)
            (set_WM Sample.blank Sample.zeros) 1 1 (-1) 1 (15 # 10) 1 ((-1) # 1) 0))
    (1 * rowStride + 1)
  = 1%Q.
Proof.
  destruct (initial_encoding_copies_the_LTM_vector (libc := Sample.libc)
              (cfg := default_params) (set_WM Sample.blank Sample.zeros) 1 1 (-1) 1
              (15 # 10) 1 ((-1) # 1) ltac:(discriminate)) as (Hw & _).
  rewrite Hw. reflexivity.
Defined.

Lemma processing_duration_within_free_time_at_blank :
  (fst (processing (libc := Sample.libc) (cfg := default_params)
          Sample.blank 1%Z) <= 1)%Q
  /\ (0 <= 1 - fst (processing (libc := Sample.libc) (cfg := default_params)
                      Sample.blank 1%Z))%Q.
Proof.
  apply (processing_duration_within_free_time (libc := Sample.libc)
           (cfg := default_params) Sample.blank 1).
  reflexivity.
Defined.

Lemma distractor_leaves_other_WM_vectors_unchanged_at_blank :
  itemVectorsInWM
    (snd (processing (libc := Sample.libc) (cfg := default_params)
            (set_distractorNumber Sample.blank 1) 1))
    (1 * rowStride + 1)
  = 1%Q
  /\ itemVectorsInWM
       (snd (processing (libc := Sample.libc) (cfg := default_params)
               (set_distractorNumber Sample.blank 1) 1))
       (11 * rowStride + 1)
     = sentinel.
Proof.
  split.
  - rewrite (distractor_leaves_other_WM_vectors_unchanged
               (libc := Sample.libc) (cfg := default_params)
               (set_distractorNumber Sample.blank 1) 1 (1 * rowStride + 1)
               eq_refl).
    reflexivity.
  - rewrite (distractor_leaves_other_WM_vectors_unchanged
               (libc := Sample.libc) (cfg := default_params)
               (set_distractorNumber Sample.blank 1) 1 (11 * rowStride + 1)
               eq_refl).
    reflexivity.
Defined.

Lemma distractor_leaves_earlier_LTM_rows_unchanged_at_blank :
  itemVectorsInLTM
    (snd (processing (libc := Sample.libc) (cfg := default_params)
            (set_distractorNumber Sample.blank 1) 1))
    (10 * rowStride + 10)
  = 1%Q.
Proof.
  rewrite (distractor_leaves_earlier_LTM_rows_unchanged
             (libc := Sample.libc) (cfg := default_params)
             (set_distractorNumber Sample.blank 1) 1 (10 * rowStride + 10)).
  - reflexivity.
  - vm_compute. discriminate.
Defined.

Lemma recall_writes_a_string_of_lastPosition_symbols_at_blank :
  snd (recall (libc := Sample.libc) (cfg := default_params) Sample.blank 2
         (fun _ => 7)) 2 = 0
  /\ snd (recall (libc := Sample.libc) (cfg := default_params) Sample.blank 2
            (fun _ => 7)) 3 = 7.
Proof.
  destruct (recall_writes_a_string_of_lastPosition_symbols
              (libc := Sample.libc) (cfg := default_params) Sample.blank 2
              (fun _ => 7) ltac:(lia)) as (Hend & _ & Hrest).
  split; [exact Hend|]. apply Hrest. lia.
Defined.


Lemma refresh_leaves_positions_and_LTM_unchanged_at_blank :
  exists st',
    refresh (libc := Sample.libc) (cfg := Sample.steadyRates) 2 Sample.blank
      (1 # 10) 1 = Some st'
    /\ positionVectors st' = Sample.positions
    /\ itemVectorsInLTM st' = Sample.vectors.
Proof.
  assert (Hrun : match refresh (libc := Sample.libc) (cfg := Sample.steadyRates)
                         2 Sample.blank (1 # 10) 1 with
                 | Some _ => true | None => false end = true)
    by (vm_compute; reflexivity).
  destruct (refresh (libc := Sample.libc) (cfg := Sample.steadyRates) 2
              Sample.blank (1 # 10) 1) as [st'|] eqn:E; [|discriminate Hrun].
  exists st'. split; [reflexivity|].
  destruct (refresh_leaves_positions_and_LTM_unchanged (libc := Sample.libc)
              (cfg := Sample.steadyRates) 2 Sample.blank st' (1 # 10) 1 E)
    as (Hp & Hl & _).
  split; [exact Hp | exact Hl].
Defined.

Lemma trial_keeps_positions_and_memoranda_at_two_letters :
  exists st' lp' recalled',
    trialLoop (libc := Sample.libc) (cfg := Sample.twoLetters) 0
      (makeStimuli Sample.twoLetters) Sample.blank 0 (fun _ => 0)
    = Done (st', lp', recalled')
    /\ positionVectors st' = Sample.positions
    /\ row (itemVectorsInLTM st') 2 2 = 1%Q.
Proof.
  assert (Hrun : completes
                   (trialLoop (libc := Sample.libc) (cfg := Sample.twoLetters) 0
                      (makeStimuli Sample.twoLetters) Sample.blank 0 (fun _ => 0))
                 = true)
    by (vm_compute; reflexivity).
  destruct (trialLoop (libc := Sample.libc) (cfg := Sample.twoLetters) 0
              (makeStimuli Sample.twoLetters) Sample.blank 0 (fun _ => 0))
    as [[[st' lp'] rec']| | |] eqn:E; try discriminate Hrun.
  exists st', lp', rec'. split; [reflexivity|].
  destruct (trial_keeps_positions_and_memoranda (libc := Sample.libc)
              (cfg := Sample.twoLetters) 0 (makeStimuli Sample.twoLetters) Sample.blank 0
              (fun _ => 0) st' lp' rec' (or_introl eq_refl) ltac:(cbn; lia) E)
    as (Hp & Hl).
  split; [exact Hp|]. rewrite Hl; [reflexivity | |];
    [unfold maxMemoranda | unfold nbItemUnits]; lia.
Defined.

Lemma makeStimuli_is_blocks_closed_by_hash_at_default :
  Z.of_nat (List.length (makeStimuli default_params)) = 7 * (4 + 1) + 1
  /\ makeStimuli Sample.twoLetters = [65; 49; 66; 49; 35].
Proof.
  destruct (makeStimuli_is_blocks_closed_by_hash default_params
              ltac:(cbn; lia) ltac:(cbn; lia)) as (Hlen & _).
  split; [exact Hlen | reflexivity].
Defined.

Lemma completed_trial_has_nbmemo_positions_at_two_letters :
  exists st' lp' recalled',
    trialLoop (libc := Sample.libc) (cfg := Sample.twoLetters) 0
      (makeStimuli Sample.twoLetters) Sample.blank 0 (fun _ => 0)
    = Done (st', lp', recalled')
    /\ lp' = 2 /\ distractorNumber st' = 2 * 1.
Proof.
  assert (Hrun : completes
                   (trialLoop (libc := Sample.libc) (cfg := Sample.twoLetters) 0
                      (makeStimuli Sample.twoLetters) Sample.blank 0 (fun _ => 0))
                 = true)
    by (vm_compute; reflexivity).
  destruct (trialLoop (libc := Sample.libc) (cfg := Sample.twoLetters) 0
              (makeStimuli Sample.twoLetters) Sample.blank 0 (fun _ => 0))
    as [[[st' lp'] rec']| | |] eqn:E; try discriminate Hrun.
  exists st', lp', rec'. split; [reflexivity|].
  destruct (completed_trial_has_nbmemo_positions (libc := Sample.libc)
              (cfg := Sample.twoLetters) 0 Sample.blank (fun _ => 0) st' lp' rec'
              ltac:(cbn; lia) ltac:(cbn; lia) eq_refl E) as (Hlp & Hd).
  split; [exact Hlp|]. apply (Hd eq_refl).
Defined.

Lemma trial_with_more_than_26_memoranda_never_completes_at_27 :
  @nbmemo Sample.tooManyLetters = 27
  /\ forall r,
       trialLoop (libc := Sample.libc) (cfg := Sample.tooManyLetters) 0
         (makeStimuli Sample.tooManyLetters) Sample.blank 0 (fun _ => 0)
       <> Done r.
Proof.
  split; [reflexivity|]. intro r.
  apply (trial_with_more_than_26_memoranda_never_completes
           (libc := Sample.libc) (cfg := Sample.tooManyLetters));
    cbn; lia.
Defined.

Lemma compareStimAndRecalled_is_a_proportion_at_ABD :
  (0 <= fst (compareStimAndRecalled
               Sample.lastWrong 3 Sample.zeros))%Q
  /\ (fst (compareStimAndRecalled Sample.lastWrong 3%Z Sample.zeros) <= 1)%Q
  /\ (fst (compareStimAndRecalled Sample.inOrder 3%Z Sample.zeros) == 1)%Q.
Proof.
  destruct (compareStimAndRecalled_is_a_proportion
              Sample.lastWrong 3 Sample.zeros
              ltac:(lia)) as (H0 & H1 & _).
  destruct (compareStimAndRecalled_is_a_proportion
              Sample.inOrder 3 Sample.zeros ltac:(lia)) as (_ & _ & Hall).
  split; [exact H0|]. split; [exact H1|]. apply Hall. intros i _. reflexivity.
Defined.


Lemma name_agrees_with_recall_on_memoranda_only_at_C_and_K :
  name 3 = recallSymbol 3 /\ name 11 <> recallSymbol 11.
Proof.
  split.
  - apply (name_agrees_with_recall_on_memoranda_only 3); [lia|].
    unfold maxMemoranda. lia.
  - intro H.
    apply (name_agrees_with_recall_on_memoranda_only 11) in H; [|lia].
    unfold maxMemoranda in H. lia.
Defined.


Lemma unchecked_sameDist_overwrites_the_last_memorandum_at_blank :
  row Sample.vectors maxMemoranda 10 = 1%Q
  /\ row (itemVectorsInLTM
            (snd (processing (libc := Sample.libc) (cfg := Sample.thirdKind)
                    Sample.blank 1))) maxMemoranda 10
     = sentinel.
Proof.
  split; [reflexivity|].
  apply (unchecked_sameDist_overwrites_the_last_memorandum
           (libc := Sample.libc) (cfg := Sample.thirdKind) Sample.blank 1 10);
    try discriminate; try reflexivity.
  unfold nbItemUnits. lia.
Defined.

Lemma completed_trial_keeps_the_embeddings_in_LTM_at_one_letter :
  exists st' lp' recalled',
    trial (libc := Sample.libc) (cfg := Sample.oneLetter) 0 Sample.identityTable Sample.blank
      (fun _ => 0)
    = Done (st', lp', recalled')
    /\ row (itemVectorsInLTM st') 1 1 = 1%Q.
Proof.
  assert (Hrun : completes
                   (trial (libc := Sample.libc) (cfg := Sample.oneLetter) 0
                      Sample.identityTable Sample.blank (fun _ => 0))
                 = true)
    by (vm_compute; reflexivity).
  destruct (trial (libc := Sample.libc) (cfg := Sample.oneLetter) 0 Sample.identityTable
              Sample.blank (fun _ => 0))
    as [[[st' lp'] rec']| | |] eqn:E; try discriminate Hrun.
  exists st', lp', rec'. split; [reflexivity|].
  rewrite (completed_trial_keeps_the_embeddings_in_LTM (libc := Sample.libc)
             (cfg := Sample.oneLetter) 0 Sample.identityTable Sample.blank (fun _ => 0)
             st' lp' rec' 1 1 ltac:(discriminate) (or_introl eq_refl)
             ltac:(unfold maxMemoranda; lia) ltac:(unfold nbItemUnits; lia) E).
  reflexivity.
Defined.
